(** * Nexus CRM: lead-agent core and Evolution gateway

    A shallow embedding of the algorithmic core of the repository:

    - [server/index.js]: the bounded event log ([pushEvent], the
      [GET /api/evolution/events] handler) and the gateway client
      ([evolutionTryRequest]);
    - the agent helpers of the front end ([agentNormalizePhone],
      [agentMergeDraft], [agentComputeLeadScore], [agentPickNextStageId])
      and the orchestrator [runAgentWorkflow].

    Conventions.  JavaScript strings are modelled by [string], read as
    sequences of 8-bit code units (the Latin-1 range).  JavaScript numbers
    that the code only uses as counters, lengths, scores and rounded
    amounts are modelled by [Z]: every such value stays far below 2^53,
    where Number arithmetic is exact.  Objects used as dictionaries are
    [gmap string _]; arrays are lists. *)

From stdpp Require Import base numbers option list sorting strings pretty gmap fin_maps.
From Stdlib Require Import ZArith Lia Ascii.

Local Open Scope Z_scope.

(** ** The event log of [server/index.js] *)

Module EventLog.

Definition MAX_EVENTS : nat := 500.

(** The object handed to [pushEvent] by the webhook handler. *)
Record EventData := {
  ev_id : string;
  ev_type : string;
  ev_channel : string;
  ev_instance : option string;
  ev_sender : string;
  ev_author : option string;
  ev_text : string;
  ev_receivedAt : Z;
}.

(** [{ seq, ...event }]: the payload never carries a [seq] key of its
    own, so the spread leaves the assigned number in place. *)
Record Event := { seq : Z; data : EventData }.

(** The two module-level variables [eventSeq] and [events]. *)
Record Log := { eventSeq : Z; events : list Event }.

Definition initial : Log := {| eventSeq := 0; events := [] |}.

(** [function pushEvent(event)] *)
Definition pushEvent (st : Log) (event : EventData) : Log * Event :=
  let seq := eventSeq st + 1 in
  let next := {| seq := seq; data := event |} in
  let pushed := events st ++ [next] in
  let kept :=
    if bool_decide (MAX_EVENTS < length pushed)%nat
    then drop (length pushed - MAX_EVENTS) pushed
    else pushed in
  ({| eventSeq := seq; events := kept |}, next).

(** The body of the [GET /api/evolution/events] handler, for a numeric
    [after]: the pending events and [nextAfter]. *)
Definition readAfter (after : Z) (st : Log) : list Event * Z :=
  (filter (λ event, after < seq event) (events st), eventSeq st).

(** A run of [pushEvent] calls, with the events they return. *)
Fixpoint pushAll (st : Log) (evs : list EventData) : Log * list Event :=
  match evs with
  | [] => (st, [])
  | e :: rest =>
      let pushed := pushEvent st e in
      let later := pushAll pushed.1 rest in
      (later.1, pushed.2 :: later.2)
  end.

Definition sample : EventData :=
  {| ev_id := "e"; ev_type := "whatsapp_message"; ev_channel := "whatsapp";
     ev_instance := None; ev_sender := "5511999998888"; ev_author := None;
     ev_text := "oi"; ev_receivedAt := 0 |}.

End EventLog.

(** ** JavaScript strings and values *)

Module Js.

Definition chars (s : string) : list ascii := String.list_ascii_of_string s.
Definition str (l : list ascii) : string := String.string_of_list_ascii l.

Definition code (c : ascii) : N := N_of_ascii c.

(** [\d] *)
Definition isDigit (c : ascii) : bool := (48 <=? code c)%N && (code c <=? 57)%N.

(** White space and line terminators of the Latin-1 range, as
    [String.prototype.trim] removes them. *)
Definition isSpace (c : ascii) : bool :=
  ((9 <=? code c)%N && (code c <=? 13)%N) || (code c =? 32)%N || (code c =? 160)%N.

(** [s.replace(/\D/g, '')] *)
Definition digitsOnly (s : string) : string := str (filter (λ c, isDigit c) (chars s)).

Fixpoint dropSpaces (l : list ascii) : list ascii :=
  match l with
  | c :: rest => if isSpace c then dropSpaces rest else l
  | [] => []
  end.

(** [s.trim()] *)
Definition trim (s : string) : string :=
  str (reverse (dropSpaces (reverse (dropSpaces (chars s))))).

Definition lowerChar (c : ascii) : ascii :=
  let n := code c in
  if ((65 <=? n)%N && (n <=? 90)%N)
     || ((192 <=? n)%N && (n <=? 222)%N && negb (n =? 215)%N)
  then ascii_of_N (n + 32) else c.

(** [s.toLowerCase()] on the Latin-1 range *)
Definition toLowerCase (s : string) : string := str (lowerChar <$> chars s).

(** [s.length] *)
Definition strlen (s : string) : nat := length (chars s).

(** [s.startsWith(p)] *)
Definition startsWith (p s : string) : bool :=
  bool_decide (take (strlen p) (chars s) = chars p).

(** [s.endsWith(p)] *)
Definition endsWith (p s : string) : bool :=
  bool_decide (strlen p ≤ strlen s)%nat
  && bool_decide (drop (strlen s - strlen p) (chars s) = chars p).

(** [s.slice(from)] and [s.slice(from, to)] for indices within range *)
Definition sliceFrom (from : nat) (s : string) : string := str (drop from (chars s)).
Definition slice (from to : nat) (s : string) : string :=
  str (take (to - from) (drop from (chars s))).

(** [s.slice(0, -1)] *)
Definition dropLast (s : string) : string :=
  str (take (strlen s - 1) (chars s)).

(** Numbers: the finite ones the code computes with are integers. *)
Inductive JsNumber := Fin (z : Z) | NaN | PosInf | NegInf.

(** Primitive values, as drafts, signals and stored records hold them. *)
Inductive JsValue :=
| VUndefined
| VNull
| VBool (b : bool)
| VNum (n : JsNumber)
| VStr (s : string).

Global Instance JsNumber_eq_dec : EqDecision JsNumber.
Proof. solve_decision. Defined.
Global Instance JsValue_eq_dec : EqDecision JsValue.
Proof. solve_decision. Defined.

(** [Boolean(v)], the test of [v ? a : b], [!v], [v && w]. *)
Definition truthy (v : JsValue) : bool :=
  match v with
  | VUndefined | VNull => false
  | VBool b => b
  | VNum (Fin z) => bool_decide (z ≠ 0)
  | VNum NaN => false
  | VNum _ => true
  | VStr s => bool_decide (s ≠ "")
  end.

(** [v === undefined || v === null] *)
Definition nullish (v : JsValue) : bool :=
  match v with VUndefined | VNull => true | _ => false end.

(** [Number.isFinite(v)] *)
Definition isFiniteNumber (v : JsValue) : bool :=
  match v with VNum (Fin _) => true | _ => false end.

(** [String(v)] *)
Definition toString (v : JsValue) : string :=
  match v with
  | VUndefined => "undefined"
  | VNull => "null"
  | VBool true => "true"
  | VBool false => "false"
  | VNum (Fin z) => pretty z
  | VNum NaN => "NaN"
  | VNum PosInf => "Infinity"
  | VNum NegInf => "-Infinity"
  | VStr s => s
  end.

(** [obj?.key]: a missing key reads as [undefined]. *)
Definition field (obj : gmap string JsValue) (key : string) : JsValue :=
  default VUndefined (obj !! key).

End Js.

(** ** The agent helpers *)

Module Agent.
Import Js.

(** [const digits = String(raw ?? '').replace(/\D/g, '')] *)
Definition phoneDigits (raw : string) : string := digitsOnly raw.

(** [const trimmed = digits.startsWith('55') && digits.length > 11
      ? digits.slice(2) : digits] *)
Definition phoneTrimmed (raw : string) : string :=
  let digits := phoneDigits raw in
  if startsWith "55" digits && bool_decide (11 < strlen digits)%nat
  then sliceFrom 2 digits
  else digits.

(** [function agentNormalizePhone(raw)] *)
Definition agentNormalizePhone (raw : string) : string :=
  let trimmed := phoneTrimmed raw in
  if bool_decide (strlen trimmed = 11%nat) then
    "(" +:+ slice 0 2 trimmed +:+ ") " +:+ slice 2 7 trimmed +:+ "-" +:+ sliceFrom 7 trimmed
  else if bool_decide (strlen trimmed = 10%nat) then
    "(" +:+ slice 0 2 trimmed +:+ ") " +:+ slice 2 6 trimmed +:+ "-" +:+ sliceFrom 6 trimmed
  else raw.

(** The test of the [forEach] callback of [agentMergeDraft]: the entry is
    skipped when the value is [undefined], [null] or a string that trims
    to the empty string. *)
Definition skipped (value : JsValue) : bool :=
  match value with
  | VUndefined | VNull => true
  | VStr s => bool_decide (trim s = "")
  | _ => false
  end.

(** [function agentMergeDraft(prevDraft, signals)] *)
Definition agentMergeDraft (prevDraft signals : gmap string JsValue)
  : gmap string JsValue :=
  map_fold (λ key value next, if skipped value then next else <[key:=value]> next)
           prevDraft signals.

(** [draft?.key ? ... : ...] *)
Definition has (draft : gmap string JsValue) (key : string) : bool :=
  truthy (field draft key).

(** [function agentComputeLeadScore(draft)] *)
Definition agentComputeLeadScore (draft : gmap string JsValue) : Z :=
  let base := 25 in
  let points := [
    if has draft "name" then 10 else 0;
    if has draft "email" then 15 else 0;
    if has draft "phone" then 15 else 0;
    if has draft "intent" then 5 else 0;
    if has draft "propertyType" then 10 else 0;
    if has draft "location" then 10 else 0;
    if has draft "bedrooms" then 5 else 0;
    if has draft "budget" then 15 else 0 ] in
  Z.min 100 (foldl (λ acc value, acc + value) base points).

(** [const rank = { new: 0, contacted: 1, ... }] and [rank[id] ?? 0] *)
Definition rank : gmap string Z :=
  list_to_map [("new", 0); ("contacted", 1); ("qualified", 2); ("proposal", 3);
               ("negotiation", 4); ("won", 5)].

Definition rankOf (stageId : option string) : Z :=
  match stageId with
  | Some id => default 0 (rank !! id)
  | None => 0
  end.

Definition desiredStage (draft : gmap string JsValue) : string :=
  if has draft "intent" && has draft "budget"
     && (has draft "location" || has draft "propertyType")
  then "qualified" else "contacted".

(** [function agentPickNextStageId(prevStageId, draft)]; a missing
    ([undefined] or [null]) [prevStageId] is [None]. *)
Definition agentPickNextStageId (prevStageId : option string)
    (draft : gmap string JsValue) : string :=
  let currentRank := rankOf prevStageId in
  let desired := desiredStage draft in
  let desiredRank := rankOf (Some desired) in
  if bool_decide (currentRank < desiredRank) then desired
  else default desired prevStageId.

End Agent.

(** ** The gateway client of [server/index.js] *)

Module Gateway.
Import Js.

Record Request := {
  url : string;
  method : string;
  headers : list (string * string);
  body : option string;
}.

(** What [await fetch(url, ...)] followed by [await res.text()] yields: a
    response with its status and body text, or a rejection (a transport
    failure) with the message [String(err?.message || err)]. *)
Inductive Outcome :=
| Responded (status : Z) (text : string)
| Failed (message : string).

(** The network and the JSON codec.  [fetch] threads the state of the
    outside world; [JSON_parse] is [None] where [JSON.parse] throws or
    yields [null], the two cases the code maps to [json = null]. *)
Class Network := {
  World : Type;
  fetch : World → Request → Outcome * World;
  Json : Type;
  JSON_parse : string → option Json;
  Body : Type;
  JSON_stringify : Body → string;
}.

Section Client.
Context `{Network}.

(** [json ?? text ?? null] *)
Inductive Payload := PJson (json : Json) | PText (text : string).

Record Result := {
  ok : bool;
  status : Z;
  path : option string;
  data : option Payload;
  error : option string;
}.

(** [function normalizeBaseUrl(baseUrl)] *)
Definition normalizeBaseUrl (baseUrl : option string) : string :=
  let trimmed := trim (default "" baseUrl) in
  if bool_decide (trimmed = "") then ""
  else if endsWith "/" trimmed then dropLast trimmed else trimmed.

(** [function buildAuthHeaders(apiKey)] *)
Definition buildAuthHeaders (apiKey : option string) : list (string * string) :=
  let token := trim (default "" apiKey) in
  if bool_decide (token = "") then []
  else [("apikey", token); ("authorization", "Bearer " +:+ token)].

(** [res.ok] *)
Definition isOk (status : Z) : bool := (200 <=? status) && (status <=? 299).

Definition candidateUrl (normalized candidate : string) : string :=
  normalized +:+ (if startsWith "/" candidate then candidate else "/" +:+ candidate).

Definition requestFor (normalized : string) (apiKey : option string)
    (method : string) (body : option Body) (candidate : string) : Request :=
  {| url := candidateUrl normalized candidate;
     method := method;
     headers := ("content-type", "application/json") :: buildAuthHeaders apiKey;
     body := JSON_stringify <$> body |}.

Definition payloadOf (text : string) : Payload :=
  let json := if bool_decide (text = "") then None else JSON_parse text in
  match json with Some j => PJson j | None => PText text end.

Definition success (candidate : string) (status : Z) (text : string) : Result :=
  {| ok := true; status := status; path := Some candidate;
     data := Some (payloadOf text); error := None |}.

Definition failure (candidate : string) (status : Z) (text : string) : Result :=
  {| ok := false; status := status; path := Some candidate;
     data := Some (payloadOf text); error := None |}.

Definition transportFailure (candidate message : string) : Result :=
  {| ok := false; status := 0; path := Some candidate;
     data := None; error := Some message |}.

Definition missingBaseUrl : Result :=
  {| ok := false; status := 400; path := None; data := None;
     error := Some "EVOLUTION_BASE_URL ausente" |}.

Definition noAttempt : Result :=
  {| ok := false; status := 500; path := None; data := None;
     error := Some "Falha ao chamar Evolution API" |}.

(** The [for (const candidate of paths)] loop with its [lastError]
    variable.  Besides the result, the model returns the requests that
    were issued, in order, and the world after the last one. *)
Fixpoint tryCandidates (request : string → Request) (lastError : option Result)
    (paths : list string) (w : World) : Result * list Request * World :=
  match paths with
  | [] => (default noAttempt lastError, [], w)
  | candidate :: rest =>
      match fetch w (request candidate) with
      | (Responded status text, w1) =>
          if isOk status then (success candidate status text, [request candidate], w1)
          else
            let error := failure candidate status text in
            if bool_decide (status ≠ 404) then (error, [request candidate], w1)
            else
              let later := tryCandidates request (Some error) rest w1 in
              (later.1.1, request candidate :: later.1.2, later.2)
      | (Failed message, w1) =>
          let later :=
            tryCandidates request (Some (transportFailure candidate message)) rest w1 in
          (later.1.1, request candidate :: later.1.2, later.2)
      end
  end.

(** [async function evolutionTryRequest({ baseUrl, apiKey, method, paths, body })] *)
Definition evolutionTryRequest (baseUrl apiKey : option string) (method : string)
    (paths : list string) (body : option Body) (w : World)
  : Result * list Request * World :=
  let normalized := normalizeBaseUrl baseUrl in
  if bool_decide (normalized = "") then (missingBaseUrl, [], w)
  else tryCandidates (requestFor normalized apiKey method body) None paths w.

(** The candidates of [paths] are passed over one after the other, each
    answering 404 when tried; the result is the world after the last of
    them, [None] if some candidate answers otherwise. *)
Fixpoint all404 (request : string → Request) (paths : list string) (w : World)
  : option World :=
  match paths with
  | [] => Some w
  | candidate :: rest =>
      match fetch w (request candidate) with
      | (Responded status _, w1) =>
          if bool_decide (status = 404) then all404 request rest w1 else None
      | (Failed _, _) => None
      end
  end.

(** The same, where a candidate may also fail in transport. *)
Fixpoint allSkipped (request : string → Request) (paths : list string) (w : World)
  : option World :=
  match paths with
  | [] => Some w
  | candidate :: rest =>
      match fetch w (request candidate) with
      | (Responded status _, w1) =>
          if bool_decide (status = 404) then allSkipped request rest w1 else None
      | (Failed _, w1) => allSkipped request rest w1
      end
  end.

(** The transport-failure rule as the specification words it: the
    failure of a candidate is the final result at once, and no later
    candidate is attempted. *)
Definition transportStopsAsStated (baseUrl apiKey : option string) (method : string)
    (body : option Body) (candidate : string) (rest : list string) (w : World) : Prop :=
  ∀ message w1,
    fetch w (requestFor (normalizeBaseUrl baseUrl) apiKey method body candidate)
      = (Failed message, w1) →
    evolutionTryRequest baseUrl apiKey method (candidate :: rest) body w
      = (transportFailure candidate message,
         [requestFor (normalizeBaseUrl baseUrl) apiKey method body candidate], w1).

End Client.

(** A scripted provider for the examples: the world counts the requests
    made, and the answer depends on the URL alone. *)
Definition scriptedAnswer (url : string) : Outcome :=
  if bool_decide (url = "http://evo/a") then Responded 404 "Not Found"
  else if bool_decide (url = "http://evo/b") then Responded 404 "Not Found"
  else if bool_decide (url = "http://evo/c") then Responded 200 "ok"
  else if bool_decide (url = "http://evo/boom") then Responded 500 "Internal Server Error"
  else Failed "fetch failed".

Definition scripted : Network :=
  {| World := nat;
     fetch := λ w request, (scriptedAnswer (url request), S w);
     Json := Empty_set;
     JSON_parse := λ _, None;
     Body := unit;
     JSON_stringify := λ _, "{}" |}.

End Gateway.

(** ** The orchestrator [runAgentWorkflow] *)

Module Workflow.
Import Js Agent.

(** A one-character string of the Latin-1 range, for the accented letters
    of the labels. *)
Definition latin1 (n : N) : string := String (ascii_of_N n) "".

Record Lead := {
  lead_id : string;
  lead_name : string;
  lead_company : string;
  lead_email : JsValue;
  lead_phone : JsValue;
  lead_origin : string;
  lead_score : Z;
  lead_stageId : option string;
  lead_value : JsNumber;
  lead_lastTouch : string;
}.

Record Task := {
  task_id : string;
  task_title : string;
  task_note : string;
  task_type : string;
  task_dueLabel : string;
  task_overdue : bool;
  task_priority : string;
  task_related : string;
  task_done : bool;
}.

Record Deal := {
  deal_id : string;
  deal_title : string;
  deal_company : string;
  deal_stageId : string;
  deal_amount : JsNumber;
  deal_probability : Z;
  deal_closeDate : string;
  deal_initials : string;
}.

Record Step := {
  step_waitMinutes : JsValue;
  step_message : option string;
  step_channel : string;
}.

Record Automation := {
  auto_name : string;
  auto_active : bool;
  auto_trigger : string;
  auto_steps : list Step;
}.

Record Flags := { automationsTriggered : bool }.

(** A session as [sessions[channelId]] holds it; [None] is a missing,
    [undefined] or [null] property. *)
Record Session := {
  leadId : option string;
  draft : option (gmap string JsValue);
  dealId : option string;
  peer : option string;
  flags : option Flags;
}.

(** The settings; [None] is a missing key. *)
Record Settings := {
  autoCreateLead : option bool;
  autoCreateTask : option bool;
  autoCreateDeal : option bool;
  triggerMarketingAutomations : option bool;
}.

(** What the orchestrator takes from its surroundings: the signal
    extractor (regular-expression matching is outside this embedding, and
    every statement below holds whatever it returns), [Number(string)],
    the id generator with its source of randomness, and
    [initialsFromCompany]. *)
Class Host := {
  agentExtractSignals : string → gmap string JsValue;
  numberOfString : string → JsNumber;
  Ids : Type;
  createId : string → Ids → string * Ids;
  initialsFromCompany : string → string;
}.

Section Orchestrator.
Context `{Host}.

(** The state the component reads through its refs and writes through
    its setters. *)
Record App := {
  sessions : gmap string Session;
  storedLeads : list Lead;
  storedDeals : list Deal;
  storedTasks : list Task;
  storedAutomations : list Automation;
  settings : Settings;
  ids : Ids;
}.

Record Args := {
  channelId : string;
  text : string;
  author : option string;
  arg_peer : option string;
}.

(** [value !== false] *)
Definition notFalse (value : option bool) : bool :=
  negb (bool_decide (value = Some false)).

(** Truthiness of an id that may be missing. *)
Definition idSet (value : option string) : bool :=
  match value with Some s => bool_decide (s ≠ "") | None => false end.

(** [Number(v)] *)
Definition toNumber (v : JsValue) : JsNumber :=
  match v with
  | VUndefined => NaN
  | VNull => Fin 0
  | VBool b => Fin (if b then 1 else 0)
  | VNum n => n
  | VStr s => numberOfString s
  end.

(** [n > 0] *)
Definition positive (n : JsNumber) : bool :=
  match n with Fin z => bool_decide (0 < z) | PosInf => true | _ => false end.

(** [Math.round(n) || 0] and [Math.max(0, n)] *)
Definition orZero (n : JsNumber) : JsNumber :=
  match n with NaN => Fin 0 | _ => n end.
Definition maxZero (n : JsNumber) : JsNumber :=
  match n with
  | Fin z => Fin (Z.max 0 z)
  | PosInf => PosInf
  | NegInf => Fin 0
  | NaN => NaN
  end.

(** [v?.trim()]: [None] where the call throws a [TypeError] (the value is
    neither missing nor a string). *)
Definition optTrim (v : JsValue) : option JsValue :=
  match v with
  | VUndefined | VNull => Some VUndefined
  | VStr s => Some (VStr (trim s))
  | _ => None
  end.

(** [channels.find((item) => item.id === channelId) ?? channels[0]], the
    label of the result. *)
Definition channelLabel (channelId : string) : string :=
  if bool_decide (channelId = "instagram") then "Instagram"
  else if bool_decide (channelId = "facebook") then "Facebook"
  else "WhatsApp".

Definition defaultSession : Session :=
  {| leadId := None; draft := Some ∅; dealId := None; peer := None; flags := None |}.

(** [Boolean(channelSession.flags?.automationsTriggered)] *)
Definition alreadyTriggered (session : Session) : bool :=
  match flags session with Some f => automationsTriggered f | None => false end.

(** The [find] predicates of the identity resolution. *)
Definition emailMatches (email : JsValue) (lead : Lead) : bool :=
  bool_decide (toLowerCase (toString (if nullish (lead_email lead) then VStr "" else lead_email lead))
               = toLowerCase (toString email)).

Definition leadPhoneDigits (lead : Lead) : string :=
  digitsOnly (toString (if nullish (lead_phone lead) then VStr "" else lead_phone lead)).

Definition phoneMatches (phone : JsValue) (lead : Lead) : bool :=
  let normalizedPhone := digitsOnly (toString phone) in
  bool_decide (leadPhoneDigits lead ≠ "") && bool_decide (leadPhoneDigits lead = normalizedPhone).

(** [array.find(p)] *)
Definition find {A} (p : A → bool) (l : list A) : option A := head (filter (λ x, p x) l).

(** [let leadId = channelSession.leadId] and the two matching blocks. *)
Definition resolveLeadId (session : Session) (nextDraft : gmap string JsValue)
    (storedLeadList : list Lead) : option string :=
  let leadId0 := leadId session in
  let leadId1 :=
    if negb (idSet leadId0) && has nextDraft "email" then
      match find (emailMatches (field nextDraft "email")) storedLeadList with
      | Some existing => Some (lead_id existing)
      | None => leadId0
      end
    else leadId0 in
  if negb (idSet leadId1) && has nextDraft "phone" then
    match find (phoneMatches (field nextDraft "phone")) storedLeadList with
    | Some existing => Some (lead_id existing)
    | None => leadId1
    end
  else leadId1.

(** The fields of [leadPayload]. *)
Record LeadPayload := {
  p_name : string;
  p_company : string;
  p_email : JsValue;
  p_phone : JsValue;
  p_origin : string;
  p_score : Z;
  p_stageId : string;
  p_value : JsNumber;
  p_lastTouch : string;
}.

(** [{ id: leadId, ...leadPayload }] and [{ ...lead, ...leadPayload }] *)
Definition leadOf (id : string) (payload : LeadPayload) : Lead :=
  {| lead_id := id; lead_name := p_name payload; lead_company := p_company payload;
     lead_email := p_email payload; lead_phone := p_phone payload;
     lead_origin := p_origin payload; lead_score := p_score payload;
     lead_stageId := Some (p_stageId payload); lead_value := p_value payload;
     lead_lastTouch := p_lastTouch payload |}.

Definition updateLead (id : string) (payload : LeadPayload) (lead : Lead) : Lead :=
  if bool_decide (lead_id lead = id) then leadOf (lead_id lead) payload else lead.

Definition orDefault (fallback : string) (v : JsValue) : string :=
  match v with VStr s => if bool_decide (s ≠ "") then s else fallback | _ => fallback end.

Definition orEmpty (v : JsValue) : JsValue := if nullish v then VStr "" else v.

(** [{ buy: 'Compra', rent: ..., sell: 'Venda' }[intent]] *)
Definition intentLabel (intent : JsValue) : option string :=
  let key := toString intent in
  if bool_decide (key = "buy") then Some "Compra"
  else if bool_decide (key = "rent") then Some ("Loca" +:+ latin1 231 +:+ latin1 227 +:+ "o")
  else if bool_decide (key = "sell") then Some "Venda"
  else None.

(** [parts.filter(Boolean).join(' ')] *)
Fixpoint join (sep : string) (parts : list string) : string :=
  match parts with
  | [] => ""
  | [part] => part
  | part :: rest => part +:+ sep +:+ join sep rest
  end.

Definition joinTruthy (sep : string) (parts : list JsValue) : string :=
  join sep (toString <$> filter (λ v, truthy v) parts).

(** The title of the task of step [index] of an automation. *)
Definition automationTitle (automation : Automation) (index : nat) : string :=
  "Automa" +:+ latin1 231 +:+ latin1 227 +:+ "o: "
  +:+ auto_name automation +:+ " " +:+ latin1 183
  +:+ " Passo " +:+ pretty (index + 1)%nat.

(** The tasks of one automation: the inner [steps.forEach]. *)
Fixpoint stepTasks (automation : Automation) (related : string) (index : nat)
    (steps : list Step) (supply : Ids) : list Task * Ids :=
  match steps with
  | [] => ([], supply)
  | step :: rest =>
      let minutes := maxZero (orZero (toNumber (step_waitMinutes step))) in
      let created := createId "t" supply in
      let message := trim (default "" (step_message step)) in
      let task :=
        {| task_id := created.1;
           task_title := automationTitle automation index;
           task_note := if bool_decide (message ≠ "") then message
                        else "Enviar mensagem autom" +:+ latin1 225 +:+ "tica";
           task_type := if bool_decide (step_channel step = "email")
                        then "email" else "follow_up";
           task_dueLabel := if truthy (VNum minutes)
                            then toString (VNum minutes) +:+ " min" else "Agora";
           task_overdue := false;
           task_priority := "medium";
           task_related := related;
           task_done := false |} in
      let later := stepTasks automation related (S index) rest created.2 in
      (task :: later.1, later.2)
  end.

(** The outer [activeAutomations.forEach]. *)
Fixpoint automationTasksOf (automations : list Automation) (related : string)
    (supply : Ids) : list Task * Ids :=
  match automations with
  | [] => ([], supply)
  | automation :: rest =>
      let mine := stepTasks automation related 0 (auto_steps automation) supply in
      let later := automationTasksOf rest related mine.2 in
      (mine.1 ++ later.1, later.2)
  end.

(** [automation.active && automation.trigger === 'new_lead'] *)
Definition activeNewLead (automation : Automation) : bool :=
  auto_active automation && bool_decide (auto_trigger automation = "new_lead").

(** What [runAgentWorkflow] computes before its first side effect. *)
Record Frame := {
  channelSession : Session;
  nextDraft : gmap string JsValue;
  leadName : string;
  resolved : option string;
  leadPayload : LeadPayload;
}.

(** The lines from [const signals = ...] to [const leadPayload = ...].
    The result is [None] where [.trim()] is called on a draft field that
    is neither missing nor a string, which throws before any setter is
    called.  [Math.round] is the identity on the numbers of the model. *)
Definition frameOf (app : App) (args : Args) (trimmed : string) : option Frame :=
  let channelSession := default defaultSession (sessions app !! channelId args) in
  let storedLeadList := storedLeads app in
  let normalizedAuthor := trim (default "" (author args)) in
  let signals := agentExtractSignals trimmed in
  let nextDraft := agentMergeDraft (default ∅ (draft channelSession)) signals in
  let origin := channelId args in
  let nextScore := agentComputeLeadScore nextDraft in
  let stageSeed :=
    if idSet (leadId channelSession)
    then find (λ lead, bool_decide (Some (lead_id lead) = leadId channelSession))
              storedLeadList ≫= lead_stageId
    else Some "new" in
  let nextStageId := agentPickNextStageId stageSeed nextDraft in
  let fallbackName :=
    if bool_decide (normalizedAuthor ≠ "")
       && bool_decide (normalizedAuthor ≠ "Voc" +:+ latin1 234)
    then normalizedAuthor
    else "Lead " +:+ channelLabel (channelId args) in
  trimmedName ← optTrim (field nextDraft "name");
  trimmedCompany ← optTrim (field nextDraft "company");
  let leadName := orDefault fallbackName trimmedName in
  Some {| channelSession := channelSession;
          nextDraft := nextDraft;
          leadName := leadName;
          resolved := resolveLeadId channelSession nextDraft storedLeadList;
          leadPayload :=
            {| p_name := leadName;
               p_company := orDefault "" trimmedCompany;
               p_email := orEmpty (field nextDraft "email");
               p_phone := orEmpty (field nextDraft "phone");
               p_origin := origin;
               p_score := nextScore;
               p_stageId := nextStageId;
               p_value := if has nextDraft "budget"
                          then toNumber (field nextDraft "budget") else Fin 0;
               p_lastTouch := "agora" |} |}.

(** [if (!leadId && currentSettings.autoCreateLead !== false) { ... }
     else if (leadId) { ... }] *)
Record LeadStep := {
  ls_leadId : option string;
  ls_created : bool;
  ls_leads : list Lead;
  ls_ids : Ids;
}.

Definition leadStep (app : App) (frame : Frame) : LeadStep :=
  if negb (idSet (resolved frame)) && notFalse (autoCreateLead (settings app)) then
    let created := createId "k" (ids app) in
    {| ls_leadId := Some created.1;
       ls_created := true;
       ls_leads := leadOf created.1 (leadPayload frame) :: storedLeads app;
       ls_ids := created.2 |}
  else if idSet (resolved frame) then
    {| ls_leadId := resolved frame;
       ls_created := false;
       ls_leads := updateLead (default "" (resolved frame)) (leadPayload frame)
                   <$> storedLeads app;
       ls_ids := ids app |}
  else
    {| ls_leadId := resolved frame;
       ls_created := false;
       ls_leads := storedLeads app;
       ls_ids := ids app |}.

(** [if (createdLead && leadId && currentSettings.autoCreateTask !== false) { ... }] *)
Record TaskStep := {
  ts_created : bool;
  ts_tasks : list Task;
  ts_ids : Ids;
}.

Definition followUpStep (app : App) (frame : Frame) (lead : LeadStep) : TaskStep :=
  if ls_created lead && idSet (ls_leadId lead) && notFalse (autoCreateTask (settings app))
  then
    let created := createId "t" (ls_ids lead) in
    let followTask :=
      {| task_id := created.1;
         task_title := "Follow-up " +:+ leadName frame;
         task_note := "Agente IA registrou um novo lead. Responder e qualificar o atendimento.";
         task_type := "follow_up";
         task_dueLabel := "Hoje";
         task_overdue := false;
         task_priority := "high";
         task_related := leadName frame;
         task_done := false |} in
    {| ts_created := true; ts_tasks := followTask :: storedTasks app; ts_ids := created.2 |}
  else
    {| ts_created := false; ts_tasks := storedTasks app; ts_ids := ls_ids lead |}.

(** [const eligibleForDeal = ...; if (eligibleForDeal) { ... }] *)
Record DealStep := {
  ds_created : bool;
  ds_deals : list Deal;
  ds_dealId : option string;
  ds_ids : Ids;
}.

Definition dealStep (app : App) (frame : Frame) (lead : LeadStep) (supply : Ids)
  : DealStep :=
  let draft := nextDraft frame in
  let eligibleForDeal :=
    idSet (ls_leadId lead) && notFalse (autoCreateDeal (settings app))
    && negb (idSet (dealId (channelSession frame)))
    && has draft "intent"
    && positive (toNumber (field draft "budget")) in
  if eligibleForDeal then
    let created := createId "d" supply in
    let dealTitle :=
      joinTruthy " "
        [VStr (default ("Neg" +:+ latin1 243 +:+ "cio") (intentLabel (field draft "intent")));
         field draft "propertyType";
         if has draft "location"
         then VStr ("em " +:+ toString (field draft "location")) else VStr ""] in
    let dealCompany :=
      if bool_decide (p_company (leadPayload frame) ≠ "")
      then p_company (leadPayload frame) else p_name (leadPayload frame) in
    let newDeal :=
      {| deal_id := created.1;
         deal_title := if bool_decide (dealTitle ≠ "") then dealTitle
                       else "Neg" +:+ latin1 243 +:+ "cio " +:+ p_name (leadPayload frame);
         deal_company := dealCompany;
         deal_stageId := "discovery";
         deal_amount := orZero (toNumber (field draft "budget"));
         deal_probability := 25;
         deal_closeDate := "30 dias";
         deal_initials :=
           initialsFromCompany
             (if bool_decide (dealCompany ≠ "") then dealCompany
              else if bool_decide (dealTitle ≠ "") then dealTitle
              else p_name (leadPayload frame)) |} in
    {| ds_created := true; ds_deals := newDeal :: storedDeals app;
       ds_dealId := Some created.1; ds_ids := created.2 |}
  else
    {| ds_created := false; ds_deals := storedDeals app;
       ds_dealId := dealId (channelSession frame); ds_ids := supply |}.

(** [const activeAutomations = ...] *)
Definition activeAutomations (app : App) : list Automation :=
  if notFalse (triggerMarketingAutomations (settings app))
  then filter (λ automation, activeNewLead automation) (storedAutomations app)
  else [].

(** [if (createdLead && leadId && activeAutomations.length
         && !automationsAlreadyTriggered) { ... }] *)
Record AutomationStep := {
  as_triggered : bool;
  as_created : list Task;
  as_tasks : list Task;
  as_ids : Ids;
}.

Definition automationStep (app : App) (frame : Frame) (lead : LeadStep)
    (tasks : list Task) (supply : Ids) : AutomationStep :=
  let automationsAlreadyTriggered := alreadyTriggered (channelSession frame) in
  if ls_created lead && idSet (ls_leadId lead)
     && bool_decide (activeAutomations app ≠ [])
     && negb automationsAlreadyTriggered
  then
    let built := automationTasksOf (activeAutomations app) (leadName frame) supply in
    if bool_decide (built.1 ≠ []) then
      {| as_triggered := true; as_created := built.1;
         as_tasks := built.1 ++ tasks; as_ids := built.2 |}
    else
      {| as_triggered := false; as_created := []; as_tasks := tasks; as_ids := built.2 |}
  else
    {| as_triggered := false; as_created := []; as_tasks := tasks; as_ids := supply |}.

(** The patch handed to [setSession]. *)
Definition nextSession (args : Args) (frame : Frame) (lead : LeadStep)
    (deal : DealStep) (automation : AutomationStep) : Session :=
  {| leadId := ls_leadId lead;
     draft := Some (nextDraft frame);
     dealId := ds_dealId deal;
     peer := match arg_peer args with
             | Some p => Some p
             | None => peer (channelSession frame)
             end;
     flags := Some {| automationsTriggered :=
                        alreadyTriggered (channelSession frame) || as_triggered automation |} |}.

(** What one call did, next to the state it leaves. *)
Record Turn := {
  after : App;
  createdLead : bool;
  createdDeal : bool;
  createdTasks : bool;
  triggeredAutomations : bool;
  automationTasks : list Task;
  payload : option LeadPayload;
}.

Definition idle (app : App) : Turn :=
  {| after := app; createdLead := false; createdDeal := false; createdTasks := false;
     triggeredAutomations := false; automationTasks := []; payload := None |}.

(** [runAgentWorkflow].  The refs are read and the setters applied as
    one step on the current state.  The conversation log (the user
    message, the reply composed by [agentBuildReply] and the audit lines)
    and the delivery of the reply through the gateway are left out; they
    do not feed back into the state modelled here. *)
Definition runAgentWorkflow (app : App) (args : Args) : option Turn :=
  let trimmed := trim (text args) in
  if bool_decide (trimmed = "") then Some (idle app)
  else
    frame ← frameOf app args trimmed;
    let lead := leadStep app frame in
    let follow := followUpStep app frame lead in
    let deal := dealStep app frame lead (ts_ids follow) in
    let automation := automationStep app frame lead (ts_tasks follow) (ds_ids deal) in
    Some {| after :=
              {| sessions := <[channelId args := nextSession args frame lead deal automation]>
                               (sessions app);
                 storedLeads := ls_leads lead;
                 storedDeals := ds_deals deal;
                 storedTasks := as_tasks automation;
                 storedAutomations := storedAutomations app;
                 settings := settings app;
                 ids := as_ids automation |};
            createdLead := ls_created lead;
            createdDeal := ds_created deal;
            createdTasks := ts_created follow;
            triggeredAutomations := as_triggered automation;
            automationTasks := as_created automation;
            payload := Some (leadPayload frame) |}.

(** *** Runs of the page

    The call reads [sessionsRef], [storedLeadsRef], [storedAutomationsRef]
    and [settingsRef]; an effect sets each of them to the state of the
    component after a render.  It writes through setters that update the
    state React holds: [setStoredLeads((prev) => ...)],
    [setStoredTasks], [setStoredDeals] and [setSession], each a function
    of the value held at that moment.  Between two renders the refs keep
    what they had, so a call that follows another one without a render in
    between reads the state as it was before the first call and writes on
    top of what the first call wrote.

    [live] is the state React holds, [seen] what the refs hold. *)
Record Page := { live : App; seen : App }.

(** A page right after a render. *)
Definition rendered (app : App) : Page := {| live := app; seen := app |}.

(** What the blocks of a call work on: the stores of the state React
    holds, which the setters update, with the automations and the settings
    the call reads from its refs. *)
Definition target (page : Page) : App :=
  {| sessions := sessions (live page);
     storedLeads := storedLeads (live page);
     storedDeals := storedDeals (live page);
     storedTasks := storedTasks (live page);
     storedAutomations := storedAutomations (seen page);
     settings := settings (seen page);
     ids := ids (live page) |}.

(** [runAgentWorkflow] on a page: the frame is computed from the refs,
    the setters update the state React holds.  On a page right after a
    render this is [runAgentWorkflow] above. *)
Definition runAgentWorkflowOn (page : Page) (args : Args) : option Turn :=
  let trimmed := trim (text args) in
  if bool_decide (trimmed = "") then Some (idle (live page))
  else
    frame ← frameOf (seen page) args trimmed;
    let lead := leadStep (target page) frame in
    let follow := followUpStep (target page) frame lead in
    let deal := dealStep (target page) frame lead (ts_ids follow) in
    let automation :=
      automationStep (target page) frame lead (ts_tasks follow) (ds_ids deal) in
    Some {| after :=
              {| sessions := <[channelId args := nextSession args frame lead deal automation]>
                               (sessions (live page));
                 storedLeads := ls_leads lead;
                 storedDeals := ds_deals deal;
                 storedTasks := as_tasks automation;
                 storedAutomations := storedAutomations (live page);
                 settings := settings (live page);
                 ids := as_ids automation |};
            createdLead := ls_created lead;
            createdDeal := ds_created deal;
            createdTasks := ts_created follow;
            triggeredAutomations := as_triggered automation;
            automationTasks := as_created automation;
            payload := Some (leadPayload frame) |}.

(** Between two messages the rest of the interface may change leads,
    deals, tasks, automations and settings (only the orchestrator writes
    the sessions), and the component may render, which brings the refs up
    to date. *)
Inductive Action :=
| Message (args : Args)
| Edit (edit : App → App)
| Render.

Definition keepSessions (app edited : App) : App :=
  {| sessions := sessions app;
     storedLeads := storedLeads edited;
     storedDeals := storedDeals edited;
     storedTasks := storedTasks edited;
     storedAutomations := storedAutomations edited;
     settings := settings edited;
     ids := ids edited |}.

(** One processed message: the page it found, its arguments and what it did. *)
Record Entry := { before : Page; args : Args; turn : Turn }.

Fixpoint run (page : Page) (actions : list Action) : Page * list Entry :=
  match actions with
  | [] => (page, [])
  | Message args :: rest =>
      match runAgentWorkflowOn page args with
      | Some t =>
          let later := run {| live := after t; seen := seen page |} rest in
          (later.1, {| before := page; args := args; turn := t |} :: later.2)
      | None => run page rest
      end
  | Edit edit :: rest =>
      run {| live := keepSessions (live page) (edit (live page)); seen := seen page |} rest
  | Render :: rest => run (rendered (live page)) rest
  end.

(** Every message of the run is handled with current refs: a render
    separates it from the message or the edit before it.  [current] tells
    whether the refs are current at the start. *)
Fixpoint refreshed (current : bool) (actions : list Action) : bool :=
  match actions with
  | [] => true
  | Message _ :: rest => current && refreshed false rest
  | Edit _ :: rest => refreshed false rest
  | Render :: rest => refreshed true rest
  end.

(** [sessions[channelId] ?? { leadId: null, draft: {} }] *)
Definition sessionOf (app : App) (channel : string) : Session :=
  default defaultSession (sessions app !! channel).

(** The latch of the session of a channel. *)
Definition flagOf (app : App) (channel : string) : bool :=
  alreadyTriggered (sessionOf app channel).

(** The last case of the dedup resolver as the specification words it:
    when neither the session, the email nor the phone yields a lead, a
    lead is created and its fresh id is stored in the session. *)
Definition newLeadAsStated (app : App) (args : Args) : Prop :=
  ∀ t frame,
    runAgentWorkflow app args = Some t →
    frameOf app args (trim (text args)) = Some frame →
    idSet (resolved frame) = false →
    createdLead t = true
    ∧ leadId (sessionOf (after t) (channelId args)) = Some (createId "k" (ids app)).1.

(** The entry is a message of the channel that fired the automations. *)
Definition fires (channel : string) (entry : Entry) : bool :=
  bool_decide (channelId (args entry) = channel) && triggeredAutomations (turn entry).

End Orchestrator.

(** A host for the examples: no message carries a signal, ids are
    numbered. *)
Definition scriptedHost : Host :=
  {| agentExtractSignals := λ _, ∅;
     numberOfString := λ _, NaN;
     Ids := nat;
     createId := λ prefix n, (prefix +:+ "-" +:+ pretty n, S n);
     initialsFromCompany := λ company, company |}.

Definition idsFrom (n : nat) : @Ids scriptedHost := n.

Definition defaultSettings : Settings :=
  {| autoCreateLead := Some true; autoCreateTask := Some true;
     autoCreateDeal := Some true; triggerMarketingAutomations := Some true |}.

Definition welcome : Automation :=
  {| auto_name := "Boas-vindas"; auto_active := true; auto_trigger := "new_lead";
     auto_steps := [ {| step_waitMinutes := VNum (Fin 0); step_message := Some "Ola!";
                        step_channel := "whatsapp" |};
                     {| step_waitMinutes := VNum (Fin 30); step_message := None;
                        step_channel := "email" |} ] |}.

(** A fresh application with one active new-lead automation. *)
Definition freshApp : App (H := scriptedHost) :=
  {| sessions := ∅; storedLeads := []; storedDeals := []; storedTasks := [];
     storedAutomations := [welcome]; settings := defaultSettings; ids := idsFrom 0 |}.

(** The same with lead creation switched off. *)
Definition noCreateApp : App (H := scriptedHost) :=
  {| sessions := ∅; storedLeads := []; storedDeals := []; storedTasks := [];
     storedAutomations := [welcome];
     settings := {| autoCreateLead := Some false; autoCreateTask := Some true;
                    autoCreateDeal := Some true; triggerMarketingAutomations := Some true |};
     ids := idsFrom 0 |}.

Definition hello : Args :=
  {| channelId := "whatsapp"; text := "oi"; author := Some "Ana";
     arg_peer := Some "5511999998888" |}.

Definition storedLead (id : string) (email phone : string) : Lead :=
  {| lead_id := id; lead_name := "Lead"; lead_company := "";
     lead_email := VStr email; lead_phone := VStr phone; lead_origin := "site";
     lead_score := 40; lead_stageId := Some "contacted"; lead_value := Fin 0;
     lead_lastTouch := "ontem" |}.

(** A session that already knows an email and a phone, and a store in
    which the first lead has that phone and the second that email. *)
Definition knownApp : App (H := scriptedHost) :=
  {| sessions := {[ "whatsapp" :=
                    {| leadId := None;
                       draft := Some {[ "email" := VStr "Ana@X.com";
                                        "phone" := VStr "(11) 99999-8888" ]};
                       dealId := None; peer := None; flags := None |} ]};
     storedLeads := [storedLead "k-1" "bob@x.com" "11 99999 8888";
                     storedLead "k-2" "ana@x.com" ""];
     storedDeals := []; storedTasks := []; storedAutomations := [welcome];
     settings := defaultSettings; ids := idsFrom 7 |}.

End Workflow.

(** ** The stage order and the wording of the specification *)

Module Policy.
Import Js Agent.

(** The pipeline stages in their total order. *)
Inductive Stage := New | Contacted | Qualified | Proposal | Negotiation | Won.

Global Instance Stage_eq_dec : EqDecision Stage.
Proof. solve_decision. Defined.

Definition stageId (s : Stage) : string :=
  match s with
  | New => "new"
  | Contacted => "contacted"
  | Qualified => "qualified"
  | Proposal => "proposal"
  | Negotiation => "negotiation"
  | Won => "won"
  end.

(** The position of a stage in new < contacted < ... < won. *)
Definition position (s : Stage) : Z :=
  match s with
  | New => 0
  | Contacted => 1
  | Qualified => 2
  | Proposal => 3
  | Negotiation => 4
  | Won => 5
  end.

Definition stageMax (a b : Stage) : Stage := if position a <? position b then b else a.

(** The desired stage as the specification words it. *)
Definition desired (draft : gmap string JsValue) : Stage :=
  if has draft "intent" && has draft "budget"
     && (has draft "location" || has draft "propertyType")
  then Qualified else Contacted.

(** The points a fact contributes when it is present. *)
Definition weight (points : Z) (present : bool) : Z := if present then points else 0.

(** A fact is present in a draft, as the specification words the score:
    the draft holds a value for it, one that is neither [undefined] nor
    [null].  The extractor yields such values only, 0 bedrooms among them,
    and the merger stores them. *)
Definition present (draft : gmap string JsValue) (key : string) : bool :=
  negb (nullish (field draft key)).

(** The score as the specification words it. *)
Definition scoreAsStated (draft : gmap string JsValue) : Z :=
  Z.min 100 (25 + weight 10 (present draft "name") + weight 15 (present draft "email")
             + weight 15 (present draft "phone") + weight 5 (present draft "intent")
             + weight 10 (present draft "propertyType")
             + weight 10 (present draft "location")
             + weight 5 (present draft "bedrooms") + weight 15 (present draft "budget")).

Definition leadScoreAsStated (draft : gmap string JsValue) : Prop :=
  agentComputeLeadScore draft = scoreAsStated draft.

(** The overwrite rule of the fact merger as the specification words it:
    a signal value overwrites when it is a non-empty string or a finite
    number. *)
Definition overwritesAsStated (value : JsValue) : bool :=
  match value with
  | VStr s => bool_decide (s ≠ "")
  | VNum _ => isFiniteNumber value
  | _ => false
  end.

Definition mergeAsStated (prev signals : gmap string JsValue) : Prop :=
  ∀ key,
    agentMergeDraft prev signals !! key =
    match signals !! key with
    | Some value => if overwritesAsStated value then Some value else prev !! key
    | None => prev !! key
    end.

(** The country-code rule as the specification words it: the leading
    "55" goes exactly when 11 or more digits remain. *)
Definition stripped (raw : string) : Prop :=
  phoneTrimmed raw = sliceFrom 2 (phoneDigits raw).

Definition stripRuleAsStated (raw : string) : Prop :=
  startsWith "55" (phoneDigits raw) = true →
  (stripped raw ↔ (11 ≤ strlen (sliceFrom 2 (phoneDigits raw)))%nat).

End Policy.

(** ** JSON payloads *)

Module Payloads.
Import Js.

(** The numbers of a JSON document are kept abstract: all the code does
    with them is convert them to a string or test their truthiness. *)
Class Numbers := {
  Num : Type;
  numToString : Num → string;
  numTruthy : Num → bool;
}.

Section Trees.
Context `{Numbers}.

(** A value as [JSON.parse] returns it.  The fields of an object are its
    own properties, one entry per key. *)
Inductive Json :=
| JNull
| JBool (b : bool)
| JNumber (n : Num)
| JString (s : string)
| JArray (items : list Json)
| JObject (fields : list (string * Json)).

Fixpoint lookupField (key : string) (fields : list (string * Json)) : option Json :=
  match fields with
  | [] => None
  | (k, v) :: rest => if bool_decide (k = key) then Some v else lookupField key rest
  end.

(** [value?.key]: [None] is [undefined].  None of the keys the code reads
    is a property of strings, arrays, numbers or booleans. *)
Definition get (key : string) (value : option Json) : option Json :=
  match value with
  | Some (JObject fields) => lookupField key fields
  | _ => None
  end.

(** [a ?? b] *)
Definition orElse (a b : option Json) : option Json :=
  match a with
  | None | Some JNull => b
  | _ => a
  end.

(** [Boolean(value)] *)
Definition jsonTruthy (value : option Json) : bool :=
  match value with
  | None | Some JNull => false
  | Some (JBool b) => b
  | Some (JNumber n) => numTruthy n
  | Some (JString s) => bool_decide (s ≠ "")
  | Some (JArray _) | Some (JObject _) => true
  end.

(** [String(value)] *)
Fixpoint jsonString (value : Json) : string :=
  match value with
  | JNull => "null"
  | JBool true => "true"
  | JBool false => "false"
  | JNumber n => numToString n
  | JString s => s
  | JArray items =>
      Workflow.join ","
        ((fix each (l : list Json) : list string :=
            match l with
            | [] => []
            | JNull :: rest => "" :: each rest
            | item :: rest => jsonString item :: each rest
            end) items)
  | JObject _ => "[object Object]"
  end.

(** [String(value ?? '')] *)
Definition stringOrEmpty (value : option Json) : string :=
  match value with
  | None | Some JNull => ""
  | Some v => jsonString v
  end.

(** [typeof value === 'string'] *)
Definition asString (value : option Json) : option string :=
  match value with Some (JString s) => Some s | _ => None end.

(** The first candidate that is a string, as a chain of
    [if (typeof candidate === 'string') return candidate] tests. *)
Fixpoint firstString (candidates : list (option Json)) : option string :=
  match candidates with
  | [] => None
  | candidate :: rest =>
      match asString candidate with
      | Some s => Some s
      | None => firstString rest
      end
  end.

(** [for (const candidate of candidates)
       if (typeof candidate === 'string' && candidate.trim()) return candidate.trim()] *)
Fixpoint firstText (candidates : list (option Json)) : option string :=
  match candidates with
  | [] => None
  | candidate :: rest =>
      match asString candidate with
      | Some s => if bool_decide (trim s ≠ "") then Some (trim s) else firstText rest
      | None => firstText rest
      end
  end.

(** [function extractQrCode(payload)] *)
Definition extractQrCode (payload : option Json) : option string :=
  if negb (jsonTruthy payload) then None
  else
    firstText [ get "base64" (get "qrcode" payload);
                get "qrcode" payload;
                get "qrCode" payload;
                get "qr" payload;
                get "base64" payload;
                get "qrcode" (get "data" payload);
                get "base64" (get "data" payload);
                get "qr" (get "data" payload) ].

(** [function extractConnectionState(payload)] *)
Definition extractConnectionState (payload : option Json) : option string :=
  if negb (jsonTruthy payload) then None
  else
    firstText [ get "state" payload;
                get "status" payload;
                get "connectionState" payload;
                get "state" (get "instance" payload);
                get "status" (get "instance" payload);
                get "state" (get "data" payload);
                get "status" (get "data" payload) ].

End Trees.

(** [/^[A-Za-z0-9+/=]+$/] tests every character against this class. *)
Definition isBase64Char (c : ascii) : bool :=
  let n := code c in
  ((65 <=? n)%N && (n <=? 90)%N) || ((97 <=? n)%N && (n <=? 122)%N)
  || ((48 <=? n)%N && (n <=? 57)%N)
  || (n =? 43)%N || (n =? 47)%N || (n =? 61)%N.

(** [function looksLikeBase64Image(value)], for a string [value]. *)
Definition looksLikeBase64Image (value : string) : bool :=
  if bool_decide (value = "") then false
  else
    let trimmed := trim value in
    if startsWith "data:image/" trimmed then true
    else if bool_decide (strlen trimmed < 128)%nat then false
    else bool_decide (chars trimmed ≠ []) && forallb isBase64Char (chars trimmed).

(** [function toDataImage(value)], for a string [value]. *)
Definition toDataImage (value : string) : string :=
  let trimmed := trim value in
  if bool_decide (trimmed = "") then ""
  else if startsWith "data:image/" trimmed then trimmed
  else if looksLikeBase64Image trimmed then "data:image/png;base64," +:+ trimmed
  else trimmed.

(** [s.replace(/<suffix>$/i, '')] for a lower-case ASCII [suffix] without
    pattern operators. *)
Definition removeSuffixCI (suffix s : string) : string :=
  if endsWith suffix (toLowerCase s)
  then str (take (strlen s - strlen suffix) (chars s))
  else s.

(** [function normalizeWhatsappSender(value)], after [String(value ?? '')]. *)
Definition normalizeWhatsappSender (value : string) : string :=
  let raw := trim value in
  if bool_decide (raw = "") then ""
  else
    let withoutJid := removeSuffixCI "@g.us" (removeSuffixCI "@s.whatsapp.net" raw) in
    digitsOnly withoutJid.

End Payloads.

(** ** The webhook receiver of [server/index.js] *)

Module Webhook.
Import Js Payloads EventLog.

Section Receiver.
Context `{Numbers}.

(** [function extractWhatsappText(message)] *)
Definition extractWhatsappText (message : option Json) : string :=
  if negb (jsonTruthy message) then ""
  else
    match asString message with
    | Some s => s
    | None =>
        default ""
          (firstString
             [ get "text" message;
               get "conversation" message;
               get "text" (get "extendedTextMessage" message);
               get "caption" (get "imageMessage" message);
               get "caption" (get "videoMessage" message);
               get "caption" (get "documentMessage" message);
               get "selectedDisplayText" (get "buttonsResponseMessage" message);
               get "title" (get "listResponseMessage" message) ])
    end.

Record Parsed := {
  fromMe : bool;
  sender : string;
  text : string;
  pushName : string;
  instance : string;
}.

(** [function parseEvolutionWebhook(payload)] *)
Definition parseEvolutionWebhook (payload : Json) : Parsed :=
  let payload := Some payload in
  let data := orElse (get "data" payload) (orElse (get "message" payload) payload) in
  let key := orElse (get "key" data) (get "key" payload) in
  let fromMe :=
    jsonTruthy (orElse (get "fromMe" key)
                  (orElse (get "fromMe" data) (get "fromMe" payload))) in
  let remoteJid :=
    orElse (get "remoteJid" key)
      (orElse (get "remoteJid" data)
         (orElse (get "remoteJid" payload)
            (orElse (get "from" payload) (get "sender" payload)))) in
  let sender := normalizeWhatsappSender (stringOrEmpty remoteJid) in
  let message :=
    orElse (get "message" data)
      (orElse (get "message" payload)
         (orElse (get "message" (get "data" payload)) data)) in
  let text := extractWhatsappText message in
  let pushName :=
    trim (stringOrEmpty
            (orElse (get "pushName" data)
               (orElse (get "pushName" payload) (get "senderName" payload)))) in
  let instance :=
    trim (stringOrEmpty
            (orElse (get "instance" payload)
               (orElse (get "instanceName" payload) (get "instance" data)))) in
  {| fromMe := fromMe; sender := sender; text := trim text;
     pushName := pushName; instance := instance |}.

(** The parts of a request the webhook route reads, with the two values
    the handler draws from its environment: the id from
    [crypto.randomUUID()] and the time from [Date.now()]. *)
Record Request := {
  queryToken : option string;
  headerToken : option string;
  payload : Json;
  uuid : string;
  now : Z;
}.

(** [function requireWebhookToken(reqUrl, req)], for the configured
    [WEBHOOK_TOKEN]. *)
Definition requireWebhookToken (WEBHOOK_TOKEN : string) (request : Request) : bool :=
  if bool_decide (WEBHOOK_TOKEN = "") then true
  else
    let tokenFromQuery := trim (default "" (queryToken request)) in
    let tokenFromHeader := trim (default "" (headerToken request)) in
    bool_decide (tokenFromQuery = WEBHOOK_TOKEN)
    || bool_decide (tokenFromHeader = WEBHOOK_TOKEN).

(** The answers of the route: status and body. *)
Inductive Reply :=
| Unauthorized            (* 401 { ok: false, error } *)
| Ignored (reason : option string)   (* 200 { ok: true, ignored: true, reason? } *)
| Accepted.               (* 200 { ok: true } *)

Definition replyStatus (reply : Reply) : Z :=
  match reply with Unauthorized => 401 | _ => 200 end.

(** [a || null] *)
Definition orNull (s : string) : option string :=
  if bool_decide (s = "") then None else Some s.

(** The [POST /api/evolution/webhook] branch of the server, after
    [readJson] has produced the payload. *)
Definition handleWebhook (WEBHOOK_TOKEN : string) (st : Log) (request : Request)
  : Log * Reply :=
  if negb (requireWebhookToken WEBHOOK_TOKEN request) then (st, Unauthorized)
  else
    let parsed := parseEvolutionWebhook (payload request) in
    if bool_decide (text parsed = "") || bool_decide (sender parsed = "")
    then (st, Ignored None)
    else if fromMe parsed then (st, Ignored (Some "fromMe"))
    else
      let pushed :=
        pushEvent st
          {| ev_id := uuid request;
             ev_type := "whatsapp_message";
             ev_channel := "whatsapp";
             ev_instance := orNull (instance parsed);
             ev_sender := sender parsed;
             ev_author := orNull (pushName parsed);
             ev_text := text parsed;
             ev_receivedAt := now request |} in
      (pushed.1, Accepted).

(** [async function readJson(req)], for a body already read as text;
    [parse] is [JSON.parse], [None] where it throws. *)
Definition readJson (parse : string → option Json) (raw : string) : Json :=
  if bool_decide (trim raw = "") then JObject []
  else
    match parse raw with
    | Some value => value
    | None => JObject [("_raw", JString raw)]
    end.

End Receiver.
End Webhook.

(** ** The environment file loader of [server/index.js] *)

Module Env.
Import Js.

(** [raw.split(/\r?\n/)], on the characters of [raw]; [current] holds the
    characters of the line being read, last first. *)
Fixpoint splitLines (current : list ascii) (l : list ascii) : list (list ascii) :=
  match l with
  | [] => [reverse current]
  | c :: rest =>
      if bool_decide (c = "010"%char) then
        reverse (match current with
                 | last :: before => if bool_decide (last = "013"%char) then before else current
                 | [] => current
                 end) :: splitLines [] rest
      else splitLines (c :: current) rest
  end.

(** [line.indexOf('=')]; [None] is -1. *)
Fixpoint indexOfEq (l : list ascii) : option nat :=
  match l with
  | [] => None
  | c :: rest => if bool_decide (c = "="%char) then Some 0%nat else S <$> indexOfEq rest
  end.

(** The three quoting styles the loader strips. *)
Definition quotedBy (q value : string) : bool := startsWith q value && endsWith q value.

Definition doubleQuote : string := String (ascii_of_N 34) "".

Definition quoted (value : string) : bool :=
  quotedBy doubleQuote value || quotedBy "'" value || quotedBy "`" value.

(** The body of the [forEach] callback, on [process.env]. *)
Definition envLine (env : gmap string string) (line : string) : gmap string string :=
  match indexOfEq (chars line) with
  | None | Some 0%nat => env
  | Some index =>
      let key := trim (slice 0 index line) in
      if bool_decide (key = "") then env
      else if bool_decide (is_Some (env !! key)) then env
      else
        let value := trim (sliceFrom (index + 1) line) in
        let value := if quoted value then slice 1 (strlen value - 1) value else value in
        <[key := value]> env
  end.

(** [.filter((line) => line && !line.startsWith('#'))] *)
Definition keptLine (line : string) : bool :=
  bool_decide (line ≠ "") && negb (startsWith "#" line).

Definition envLines (raw : string) : list string :=
  filter (λ line, keptLine line) ((λ l, trim (str l)) <$> splitLines [] (chars raw)).

(** [function loadEnvFile(filepath)], for the content of the file; [None]
    where the file is missing or cannot be read. *)
Definition loadEnvFile (file : option string) (env : gmap string string)
  : gmap string string :=
  match file with
  | None => env
  | Some raw => foldl envLine env (envLines raw)
  end.

(** The two calls at the top of the module. *)
Definition loadEnvFiles (dotEnv dotEnvLocal : option string) (env : gmap string string)
  : gmap string string :=
  loadEnvFile dotEnvLocal (loadEnvFile dotEnv env).

(** [String(process.env.EVOLUTION_WEBHOOK_TOKEN || '').trim()] *)
Definition WEBHOOK_TOKEN (env : gmap string string) : string :=
  trim (default "" (env !! "EVOLUTION_WEBHOOK_TOKEN")).

End Env.

(** ** The polling loop of the agent page *)

Module Poller.
Import Js Agent Payloads EventLog Webhook.

(** [item.type === 'whatsapp_message' && item.text && item.sender] *)
Definition deliverable (item : Event) : bool :=
  bool_decide (ev_type (data item) = "whatsapp_message")
  && bool_decide (ev_text (data item) ≠ "")
  && bool_decide (ev_sender (data item) ≠ "").

(** [const author = String(item.author ?? '').trim()
       || agentNormalizePhone(sender) || `WhatsApp ${sender}`] *)
Definition authorOf (item : Event) : string :=
  let sender := ev_sender (data item) in
  let named := trim (default "" (ev_author (data item))) in
  if bool_decide (named ≠ "") then named
  else if bool_decide (agentNormalizePhone sender ≠ "") then agentNormalizePhone sender
  else "WhatsApp " +:+ sender.

(** The arguments of the [runAgentWorkflow] call made for an item. *)
Definition argsOf (item : Event) : Workflow.Args :=
  {| Workflow.channelId := "whatsapp";
     Workflow.text := ev_text (data item);
     Workflow.author := Some (authorOf item);
     Workflow.arg_peer := Some (ev_sender (data item)) |}.

(** [if (seq > evolutionAfterRef.current) evolutionAfterRef.current = seq] *)
Definition advance (cursor : Z) (item : Event) : Z :=
  if bool_decide (cursor < seq item) then seq item else cursor.

(** One round of [poll]: the new cursor and the items handed to the
    orchestrator, in order.  The response is [None] where the request
    fails or the answer is not [ok]. *)
Definition pollResponse (cursor : Z) (response : option (list Event * Z))
  : Z * list Event :=
  match response with
  | None => (cursor, [])
  | Some (incoming, nextAfter) =>
      let reached := foldl advance cursor incoming in
      (if bool_decide (reached < nextAfter) then nextAfter else reached,
       filter (λ item, deliverable item) incoming)
  end.

Section Pipeline.
Context `{Numbers}.

(** The server log, the cursor of the page ([evolutionAfterRef.current])
    and the items the page has handed to the orchestrator so far. *)
Record System := { log : Log; cursor : Z; delivered : list Event }.

(** The server and the page both freshly started. *)
Definition start : System := {| log := initial; cursor := 0; delivered := [] |}.

(** What happens to the pair.  [Start] is a start of the polling effect:
    on the first mount, on a remount of the page and whenever the
    Evolution settings change, the effect sets the cursor to 0, whatever
    the server holds.  [Reboot] is a restart of the server process, which
    empties the log and resets its counter; the page keeps its cursor.
    [Poll] is a poll the server answers, taken as one step: the events are
    read and the answer is handled before the next step ([poll] awaits
    each call and is rescheduled only when it is done); [PollFails] is a
    poll that fails or is answered without [ok]. *)
Inductive Step :=
| Hook (request : Webhook.Request)
| Poll
| PollFails
| Start
| Reboot.

Definition step (token : string) (sys : System) (a : Step) : System :=
  match a with
  | Hook request =>
      {| log := (handleWebhook token (log sys) request).1;
         cursor := cursor sys; delivered := delivered sys |}
  | Poll =>
      let polled := pollResponse (cursor sys) (Some (readAfter (cursor sys) (log sys))) in
      {| log := log sys; cursor := polled.1; delivered := delivered sys ++ polled.2 |}
  | PollFails => sys
  | Start => {| log := log sys; cursor := 0; delivered := delivered sys |}
  | Reboot => {| log := initial; cursor := cursor sys; delivered := delivered sys |}
  end.

Definition simulate (token : string) (sys : System) (steps : list Step) : System :=
  foldl (step token) sys steps.

(** The polling effect is not started anew during these steps. *)
Definition steady (steps : list Step) : bool :=
  forallb (λ a, match a with Start => false | _ => true end) steps.

(** Neither the effect nor the server restarts, and the webhook requests
    since the last answered poll never exceed [budget]; [pending] counts
    those seen since that poll. *)
Fixpoint pollsKeepUp (budget pending : nat) (steps : list Step) : bool :=
  match steps with
  | [] => true
  | Hook _ :: rest => bool_decide (S pending ≤ budget)%nat && pollsKeepUp budget (S pending) rest
  | Poll :: rest => pollsKeepUp budget 0 rest
  | PollFails :: rest => pollsKeepUp budget pending rest
  | Start :: _ | Reboot :: _ => false
  end.

End Pipeline.
End Poller.

(** ** The checklist of pending questions *)

Module Checklist.
Import Js Agent Workflow.

Definition askName : string := "Qual seu nome?".
Definition askContact : string := "Pode me passar um telefone ou e-mail para contato?".
Definition askIntent : string :=
  "Voc" +:+ latin1 234 +:+ " busca comprar, alugar ou vender?".
Definition askProperty : string :=
  "Qual tipo de im" +:+ latin1 243 +:+ "vel voc" +:+ latin1 234 +:+ " procura?".
Definition askLocation : string := "Em qual cidade ou bairro?".
Definition askBudget : string := "Qual faixa de valor (aprox.)?".

(** [function agentBuildQuestions(draft)] *)
Definition agentBuildQuestions (draft : gmap string JsValue) : list string :=
  (if negb (has draft "name") then [askName] else [])
  ++ (if negb (has draft "phone") && negb (has draft "email") then [askContact] else [])
  ++ (if negb (has draft "intent") then [askIntent] else [])
  ++ (if negb (has draft "propertyType") then [askProperty] else [])
  ++ (if negb (has draft "location") then [askLocation] else [])
  ++ (if negb (has draft "budget") then [askBudget] else []).

(** [questions.slice(0, 2)], the questions a reply surfaces. *)
Definition surfaced (draft : gmap string JsValue) : list string :=
  take 2 (agentBuildQuestions draft).

End Checklist.

(** ** Trimming, on lists of characters *)

Module Trimming.
Import Js.

(** A list of characters that does not begin with white space. *)
Definition headOk (l : list ascii) : Prop :=
  match l with c :: _ => isSpace c = false | [] => True end.

Definition trimL (l : list ascii) : list ascii :=
  reverse (dropSpaces (reverse (dropSpaces l))).

End Trimming.

(** ** Sample data for the examples *)

Module Samples.
Import Js Payloads EventLog Webhook.

Definition plainNumbers : Numbers :=
  {| Num := Z; numToString := λ z, pretty z; numTruthy := λ z, bool_decide (z ≠ 0) |}.

(** A message as the provider posts it. *)
Definition inbound (jid text : string) (mine : bool) : Json (H := plainNumbers) :=
  JObject [("event", JString "messages.upsert");
           ("instance", JString "loja");
           ("data", JObject [("key", JObject [("remoteJid", JString jid);
                                             ("fromMe", JBool mine)]);
                             ("pushName", JString "Ana");
                             ("message", JObject [("conversation", JString text)])])].

Definition post (jid text : string) (mine : bool) : Request (H := plainNumbers) :=
  {| queryToken := None; headerToken := Some "s3cret";
     payload := inbound jid text mine; uuid := "u-1"; now := 1700000000000 |}.

Definition newline : string := String (ascii_of_N 10) "".

(** The content of an environment file. *)
Definition dotEnv : string :=
  "PORT=9000" +:+ newline
  +:+ "# comment" +:+ newline
  +:+ " TOKEN = 'a b' " +:+ newline
  +:+ "PORT=1" +:+ newline
  +:+ "=x" +:+ newline
  +:+ "plain".

End Samples.

(** ** Invariants of the log and of the polling page *)

Module Pipeline.
Import Js EventLog Webhook Poller.

Definition earlier (a b : Event) : Prop := seq a < seq b.

(** The log is in order of sequence number, within the counter, and
    holds messages only. *)
Definition logOrdered (st : Log) : Prop :=
  0 ≤ eventSeq st
  ∧ StronglySorted earlier (events st)
  ∧ Forall (λ ev, 0 < seq ev ≤ eventSeq st) (events st)
  ∧ Forall (λ ev, deliverable ev = true) (events st).

Section Systems.
Context `{Payloads.Numbers}.

(** What holds while the polling effect runs on: [base] is what had been
    handed over when the cursor was [from], [handed] what has been handed
    over since. *)
Definition inOrder (base : list Event) (from : Z) (handed : list Event)
    (sys : System) : Prop :=
  logOrdered (log sys)
  ∧ from ≤ cursor sys
  ∧ delivered sys = base ++ handed
  ∧ StronglySorted earlier handed
  ∧ Forall (λ ev, from < seq ev ≤ cursor sys) handed.

(** What holds while the polls keep up: the log still holds, as its last
    entries [recent], every event numbered above the cursor, and the items
    handed over since the cursor was [from] are the events numbered from
    there to the cursor. *)
Definition caughtUp (base : list Event) (from : Z) (pending : nat)
    (sys : System) : Prop :=
  ∃ old recent handed,
    events (log sys) = old ++ recent
    ∧ seq <$> recent = seqZ (cursor sys + 1) (eventSeq (log sys) - cursor sys)
    ∧ Forall (λ ev, deliverable ev = true) recent
    ∧ Forall (λ ev, seq ev ≤ cursor sys) old
    ∧ delivered sys = base ++ handed
    ∧ seq <$> handed = seqZ (from + 1) (cursor sys - from)
    ∧ from ≤ cursor sys ≤ eventSeq (log sys)
    ∧ eventSeq (log sys) - cursor sys ≤ Z.of_nat pending.

End Systems.
End Pipeline.

(** ** What a session remembers across a run *)

Module Memory.
Import Js Agent Workflow.

Section Sessions.
Context `{Host}.

(** [channelSession.draft ?? {}] *)
Definition draftOf (app : App) (channel : string) : gmap string JsValue :=
  default ∅ (draft (sessionOf app channel)).

(** The entry is a message of the channel that created a lead. *)
Definition creates (channel : string) (entry : Entry) : bool :=
  bool_decide (channelId (args entry) = channel) && createdLead (turn entry).

(** The entry is a message of the channel that opened a deal. *)
Definition opens (channel : string) (entry : Entry) : bool :=
  bool_decide (channelId (args entry) = channel) && createdDeal (turn entry).

End Sessions.
End Memory.

(** * Properties *)

Module EventLogFacts.
Import EventLog.

Lemma pushEvent_events st e :
  events (pushEvent st e).1 =
  drop (length (events st ++ [(pushEvent st e).2]) - MAX_EVENTS)
       (events st ++ [(pushEvent st e).2]).
Proof.
  unfold pushEvent; simpl. case_bool_decide as Hlen; [done|].
  replace (_ - MAX_EVENTS)%nat with 0%nat by lia. done.
Qed.

Lemma pushEvent_seq st e : seq (pushEvent st e).2 = eventSeq st + 1.
Proof. done. Qed.

Lemma pushEvent_counter st e : eventSeq (pushEvent st e).1 = eventSeq st + 1.
Proof. done. Qed.

Lemma pushAll_length st evs : length (pushAll st evs).2 = length evs.
Proof.
  revert st. induction evs as [|e rest IH]; intros st; cbn [pushAll snd length];
    [done|]. by rewrite IH.
Qed.

Lemma pushAll_counter st evs :
  eventSeq (pushAll st evs).1 = eventSeq st + Z.of_nat (length evs).
Proof.
  revert st. induction evs as [|e rest IH]; intros st; cbn [pushAll fst length];
    [lia|]. rewrite IH, pushEvent_counter. lia.
Qed.

Lemma pushAll_lookup st evs i ev :
  (pushAll st evs).2 !! i = Some ev →
  seq ev = eventSeq st + Z.of_nat i + 1 ∧ evs !! i = Some (data ev).
Proof.
  revert st i. induction evs as [|e rest IH]; intros st i; cbn [pushAll snd];
    [done|].
  destruct i as [|i].
  - intros Hi. change (Some (pushEvent st e).2 = Some ev) in Hi.
    apply (inj Some) in Hi. subst ev. rewrite pushEvent_seq. split; [lia | done].
  - intros Hi. destruct (IH _ _ Hi) as [-> ?].
    rewrite pushEvent_counter. split; [lia | done].
Qed.

Lemma pushEvent_bounded st e :
  (length (events (pushEvent st e).1) ≤ MAX_EVENTS)%nat.
Proof.
  rewrite pushEvent_events, length_drop. lia.
Qed.

Lemma pushAll_events st evs :
  (length (events st) ≤ MAX_EVENTS)%nat →
  events (pushAll st evs).1 =
  drop (length (events st ++ (pushAll st evs).2) - MAX_EVENTS)
       (events st ++ (pushAll st evs).2).
Proof.
  revert st. induction evs as [|e rest IH]; intros st Hst; cbn [pushAll fst snd].
  - rewrite app_nil_r.
    replace (_ - MAX_EVENTS)%nat with 0%nat by lia. done.
  - rewrite (IH _ (pushEvent_bounded st e)), pushEvent_events.
    set (out := (pushEvent st e).2). set (outs := (pushAll _ rest).2).
    set (k := (length (events st ++ [out]) - MAX_EVENTS)%nat).
    assert (k ≤ length (events st ++ [out]))%nat as Hk by (unfold k; lia).
    rewrite <- (drop_app_le _ outs k) by done.
    rewrite drop_drop, length_drop.
    rewrite <- (assoc_L (++) (events st) [out] outs). simpl.
    f_equal. unfold k. rewrite !length_app. simpl. lia.
Qed.

Lemma filter_all_positive (l : list Event) :
  Forall (λ ev, 0 < seq ev) l → filter (λ event, 0 < seq event) l = l.
Proof.
  induction 1 as [|ev l Hev _ IH]; [done|].
  rewrite filter_cons_True by done. by rewrite IH.
Qed.

Lemma pushAll_positive st evs :
  0 ≤ eventSeq st → Forall (λ ev, 0 < seq ev) (pushAll st evs).2.
Proof.
  intros Hst. apply Forall_lookup_2. intros i ev Hi.
  destruct (pushAll_lookup _ _ _ _ Hi) as [-> _]. lia.
Qed.

(** C1.  Event log contract.  Start from the empty log and push any
    sequence [evs] of events.  The i-th call (counting from 0) returns the
    event it was given with sequence number i + 1, so the numbers start at
    1, grow by exactly 1 per call and are never reused, whatever has been
    evicted; the counter equals the number of calls made; the log holds at
    most 500 events, namely the last 500 returned; reading after cursor 0
    yields exactly those, with next cursor equal to the counter.  In
    particular after 501 calls the log has length 500, and reading after 0
    returns the events numbered 2..501 with next cursor 501. *)
Theorem event_log_contract (evs : list EventData) :
  let final := (pushAll initial evs).1 in
  let outs := (pushAll initial evs).2 in
  let n := length evs in
  length outs = n
  ∧ (∀ i ev, outs !! i = Some ev →
       seq ev = Z.of_nat i + 1 ∧ evs !! i = Some (data ev))
  ∧ (∀ i j ei ej, outs !! i = Some ei → outs !! j = Some ej →
       (i < j)%nat → seq ei < seq ej)
  ∧ eventSeq final = Z.of_nat n
  ∧ (length (events final) ≤ 500)%nat
  ∧ events final = drop (n - 500) outs
  ∧ readAfter 0 final = (drop (n - 500) outs, Z.of_nat n)
  ∧ (n = 501%nat →
       length (events final) = 500%nat
       ∧ readAfter 0 final = (drop 1 outs, 501)
       ∧ seq <$> drop 1 outs = (λ k, Z.of_nat k + 2) <$> List.seq 0 500).
Proof.
  intros final outs n.
  assert (length outs = n) as Hlen by apply pushAll_length.
  assert (∀ i ev, outs !! i = Some ev →
            seq ev = Z.of_nat i + 1 ∧ evs !! i = Some (data ev)) as Hseq.
  { intros i ev Hi. destruct (pushAll_lookup _ _ _ _ Hi) as [-> ?]. done. }
  assert (events final = drop (n - 500) outs) as Hevents.
  { unfold final. rewrite pushAll_events by (simpl; lia).
    simpl. fold outs. by rewrite Hlen. }
  assert (eventSeq final = Z.of_nat n) as Hcounter.
  { unfold final. by rewrite pushAll_counter. }
  assert (readAfter 0 final = (drop (n - 500) outs, Z.of_nat n)) as Hread.
  { unfold readAfter. rewrite Hcounter, Hevents. f_equal.
    apply filter_all_positive, Forall_drop, pushAll_positive. done. }
  split_and!; try done.
  - intros i j ei ej Hi Hj Hij.
    destruct (Hseq _ _ Hi) as [-> _], (Hseq _ _ Hj) as [-> _]. lia.
  - rewrite Hevents, length_drop. lia.
  - intros Hn. rewrite Hread, Hevents, length_drop, Hlen, Hn.
    split_and!; [done..|].
    apply list_eq. intros k. rewrite !list_lookup_fmap, lookup_drop.
    destruct (decide (k < 500)%nat) as [Hk|Hk].
    + rewrite lookup_seq_lt by done.
      destruct (lookup_lt_is_Some_2 outs (1 + k)) as [ev Hev]; [lia|].
      rewrite Hev. cbn [fmap option_fmap option_map].
      destruct (Hseq _ _ Hev) as [-> _]. f_equal. lia.
    + rewrite lookup_seq_ge by lia.
      rewrite (lookup_ge_None_2 outs) by lia. done.
Qed.

(** The scenario of C1 on a concrete run of 501 events. *)
Lemma event_log_contract_witness :
  length (replicate 501 sample) = 501%nat
  ∧ length (events (pushAll initial (replicate 501 sample)).1) = 500%nat
  ∧ (readAfter 0 (pushAll initial (replicate 501 sample)).1).2 = 501.
Proof.
  pose proof (event_log_contract (replicate 501 sample)) as Hc.
  cbv zeta in Hc. destruct Hc as (_ & _ & _ & _ & _ & _ & _ & Hc).
  assert (length (replicate 501 sample) = 501%nat) as Hn by apply length_replicate.
  destruct (Hc Hn) as (Hl & Hr & _).
  split; [exact Hn|]. split; [exact Hl|]. rewrite Hr. reflexivity.
Defined.

End EventLogFacts.

Module JsFacts.
Import Js.

Lemma chars_str l : chars (str l) = l.
Proof. apply String.list_ascii_of_string_of_list_ascii. Qed.

Lemma str_chars s : str (chars s) = s.
Proof. apply String.string_of_list_ascii_of_string. Qed.

Lemma chars_app a b : chars (a +:+ b) = chars a ++ chars b.
Proof.
  unfold chars. induction a as [|c a IH]; [done|].
  change (String c a +:+ b) with (String c (a +:+ b)).
  cbn [String.list_ascii_of_string app]. by rewrite IH.
Qed.

Lemma chars_inj a b : chars a = chars b → a = b.
Proof. intros Hab. rewrite <- (str_chars a), <- (str_chars b). by rewrite Hab. Qed.

Lemma strlen_str l : strlen (str l) = length l.
Proof. unfold strlen. by rewrite chars_str. Qed.

Lemma strlen_sliceFrom n s : strlen (sliceFrom n s) = (strlen s - n)%nat.
Proof. unfold sliceFrom. rewrite strlen_str, length_drop. done. Qed.

Lemma startsWith_55 s :
  startsWith "55" s = true → ∃ rest, chars s = "5"%char :: "5"%char :: rest.
Proof.
  unfold startsWith. intros Hp%bool_decide_eq_true.
  change (take 2 (chars s) = ["5"%char; "5"%char]) in Hp.
  destruct (chars s) as [|a [|b rest]]; simplify_eq/=. eauto.
Qed.

Lemma digitsOnly_app a b : digitsOnly (a +:+ b) = digitsOnly a +:+ digitsOnly b.
Proof.
  apply chars_inj. unfold digitsOnly.
  repeat (rewrite chars_app || rewrite chars_str). by rewrite filter_app.
Qed.

Lemma digitsOnly_digits l :
  Forall (λ c, isDigit c = true) l → digitsOnly (str l) = str l.
Proof.
  intros Hl. unfold digitsOnly. rewrite chars_str. f_equal.
  induction Hl as [|c l Hc _ IH]; [done|].
  rewrite filter_cons_True by (by rewrite Hc). by rewrite IH.
Qed.

Lemma digitsOnly_all_digits s : Forall (λ c, isDigit c = true) (chars (digitsOnly s)).
Proof.
  unfold digitsOnly. rewrite chars_str. apply Forall_forall.
  intros c [Hc _]%list_elem_of_filter. by destruct (isDigit c).
Qed.

Lemma str_app a b : str (a ++ b) = str a +:+ str b.
Proof. apply chars_inj. by rewrite chars_app, !chars_str. Qed.

Lemma slices_rejoin (i j : nat) s :
  (i ≤ j)%nat → slice 0 i s +:+ slice i j s +:+ sliceFrom j s = s.
Proof.
  intros Hij. unfold slice, sliceFrom. rewrite <- !str_app, drop_0, Nat.sub_0_r.
  transitivity (str (chars s)); [|apply str_chars]. f_equal.
  replace (drop j (chars s)) with (drop (j - i) (drop i (chars s)))
    by (rewrite drop_drop; f_equal; lia).
  rewrite take_drop. apply take_drop.
Qed.

Lemma digitsOnly_slice (i j : nat) s :
  Forall (λ c, isDigit c = true) (chars s) → digitsOnly (slice i j s) = slice i j s.
Proof. intros Hs. apply digitsOnly_digits. by apply Forall_take, Forall_drop. Qed.

Lemma digitsOnly_sliceFrom (i : nat) s :
  Forall (λ c, isDigit c = true) (chars s) → digitsOnly (sliceFrom i s) = sliceFrom i s.
Proof. intros Hs. apply digitsOnly_digits. by apply Forall_drop. Qed.

End JsFacts.

Module AgentFacts.
Import Js Agent Workflow Policy JsFacts.

(** *** Scoring *)

Lemma has_spec (draft : gmap string JsValue) key :
  has draft key = true ↔ ∃ value, draft !! key = Some value ∧ truthy value = true.
Proof.
  unfold has, field. destruct (draft !! key) as [value|]; simpl.
  - split; [by exists value | by intros (? & [= <-] & ?)].
  - split; [done | by intros (? & ? & _)].
Qed.

Lemma has_present (draft : gmap string JsValue) key :
  has draft key = true → present draft key = true.
Proof. unfold has, present. by destruct (field draft key) as [| |?|[]|?]. Qed.

(** The score reads the draft through its truthiness tests only. *)
Lemma score_by_tests (draft other : gmap string JsValue) :
  (∀ key, has other key = has draft key) →
  agentComputeLeadScore other = agentComputeLeadScore draft.
Proof. intros Hsame. unfold agentComputeLeadScore. by rewrite !Hsame. Qed.

Lemma weight_grows (points : Z) (a b : bool) :
  0 ≤ points → (a = true → b = true) → weight points a ≤ weight points b.
Proof.
  intros Hpoints Hab. unfold weight.
  destruct a, b; first [lia | by specialize (Hab eq_refl)].
Qed.

Lemma score_unfolded (draft : gmap string JsValue) :
  agentComputeLeadScore draft =
    Z.min 100 (25 + weight 10 (has draft "name") + weight 15 (has draft "email")
               + weight 15 (has draft "phone") + weight 5 (has draft "intent")
               + weight 10 (has draft "propertyType") + weight 10 (has draft "location")
               + weight 5 (has draft "bedrooms") + weight 15 (has draft "budget")).
Proof. reflexivity. Qed.

(** C4, as the code has it.  The lead score is the base 25 plus the
    weight of every fact the draft holds with a truthy value (name 10,
    email 15, phone 15, intent 5, propertyType 10, location 10, bedrooms 5,
    budget 15), capped at 100, and lies in [0,100].  A fact that is present
    with a falsy value, such as 0 bedrooms, earns nothing: the score is the
    one of the draft without it.  So the score never exceeds the one the
    specification words, and equals it for every draft whose present facts
    are all truthy. *)
Theorem lead_score_formula (draft : gmap string JsValue) :
  agentComputeLeadScore draft =
    Z.min 100 (25 + weight 10 (has draft "name") + weight 15 (has draft "email")
               + weight 15 (has draft "phone") + weight 5 (has draft "intent")
               + weight 10 (has draft "propertyType") + weight 10 (has draft "location")
               + weight 5 (has draft "bedrooms") + weight 15 (has draft "budget"))
  ∧ 0 ≤ agentComputeLeadScore draft ≤ 100
  ∧ (∀ key, has draft key = true ↔
            ∃ value, draft !! key = Some value ∧ truthy value = true)
  ∧ (∀ key value, draft !! key = Some value → truthy value = false →
       agentComputeLeadScore draft = agentComputeLeadScore (delete key draft))
  ∧ agentComputeLeadScore draft ≤ scoreAsStated draft
  ∧ ((∀ key, present draft key = true → has draft key = true) →
       agentComputeLeadScore draft = scoreAsStated draft).
Proof.
  split; [reflexivity|]. split; [|split; [apply has_spec|]].
  { unfold agentComputeLeadScore. cbn [foldl].
    repeat match goal with |- context [has draft ?k] => destruct (has draft k) end;
      vm_compute; split; discriminate. }
  split; [|split].
  - intros key value Hkey Hfalsy. apply score_by_tests. intros k.
    unfold has, field. destruct (decide (k = key)) as [->|Hother].
    + by rewrite lookup_delete_eq, Hkey.
    + by rewrite lookup_delete_ne.
  - rewrite score_unfolded. unfold scoreAsStated. apply Z.min_le_compat_l.
    pose proof (weight_grows 10 _ _ ltac:(lia) (has_present draft "name")).
    pose proof (weight_grows 15 _ _ ltac:(lia) (has_present draft "email")).
    pose proof (weight_grows 15 _ _ ltac:(lia) (has_present draft "phone")).
    pose proof (weight_grows 5 _ _ ltac:(lia) (has_present draft "intent")).
    pose proof (weight_grows 10 _ _ ltac:(lia) (has_present draft "propertyType")).
    pose proof (weight_grows 10 _ _ ltac:(lia) (has_present draft "location")).
    pose proof (weight_grows 5 _ _ ltac:(lia) (has_present draft "bedrooms")).
    pose proof (weight_grows 15 _ _ ltac:(lia) (has_present draft "budget")).
    lia.
  - intros Htruthy. rewrite score_unfolded. unfold scoreAsStated.
    assert (∀ key, present draft key = has draft key) as Hsame.
    { intros key. pose proof (has_present draft key). pose proof (Htruthy key).
      destruct (present draft key), (has draft key); auto. by symmetry; auto. }
    by rewrite !Hsame.
Qed.

(** C4 as stated fails on a draft that holds 0 bedrooms, which the
    extractor yields for "0 quartos": the fact is present, the formula as
    worded gives 30 and the code 25. *)
Lemma lead_score_as_stated_fails : ¬ leadScoreAsStated {[ "bedrooms" := VNum (Fin 0) ]}.
Proof. unfold leadScoreAsStated. vm_compute. discriminate. Qed.

Example score_empty_draft : agentComputeLeadScore ∅ = 25.
Proof. reflexivity. Qed.

Example score_full_draft :
  agentComputeLeadScore
    {[ "name" := VStr "Ana"; "email" := VStr "ana@x.com"; "phone" := VStr "(11) 99999-8888";
       "intent" := VStr "buy"; "propertyType" := VStr "Apartamento";
       "location" := VStr "Pinheiros"; "bedrooms" := VNum (Fin 2);
       "budget" := VNum (Fin 500000) ]} = 100.
Proof. vm_compute. reflexivity. Qed.

Example score_zero_bedrooms :
  agentComputeLeadScore {[ "bedrooms" := VNum (Fin 0) ]} = 25.
Proof. vm_compute. reflexivity. Qed.

Lemma lead_score_floor (draft : gmap string JsValue) :
  25 ≤ agentComputeLeadScore draft ≤ 100.
Proof.
  unfold agentComputeLeadScore. cbn [foldl].
  repeat match goal with |- context [has draft ?k] => destruct (has draft k) end;
    vm_compute; split; discriminate.
Qed.

(** *** Stage policy *)

Lemma rankOf_stage s : rankOf (Some (stageId s)) = position s.
Proof. by destruct s. Qed.

Lemma desiredStage_desired draft : desiredStage draft = stageId (desired draft).
Proof. unfold desiredStage, desired. by case_match. Qed.

Lemma desired_cases draft : desired draft = Qualified ∨ desired draft = Contacted.
Proof. unfold desired. case_match; auto. Qed.

(** C3.  For a current stage [s] of the order new < contacted < qualified
    < proposal < negotiation < won and any draft, the next stage is the
    larger of [s] and the desired stage; the desired stage is qualified
    exactly when the draft has intent and budget and (location or
    propertyType), and contacted otherwise; with no current stage the
    result is the desired stage; and the result is never earlier than [s]. *)
Theorem next_stage_policy (s : Stage) (draft : gmap string JsValue) :
  agentPickNextStageId (Some (stageId s)) draft = stageId (stageMax s (desired draft))
  ∧ (desired draft = Qualified ↔
       has draft "intent" = true ∧ has draft "budget" = true
       ∧ (has draft "location" = true ∨ has draft "propertyType" = true))
  ∧ (desired draft = Contacted ↔
       ¬ (has draft "intent" = true ∧ has draft "budget" = true
          ∧ (has draft "location" = true ∨ has draft "propertyType" = true)))
  ∧ agentPickNextStageId None draft = stageId (desired draft)
  ∧ position s ≤ position (stageMax s (desired draft)).
Proof.
  split_and!.
  - unfold agentPickNextStageId. rewrite desiredStage_desired, !rankOf_stage.
    unfold stageMax. destruct (desired_cases draft) as [-> | ->];
      destruct s; reflexivity.
  - unfold desired.
    destruct (has draft "intent"), (has draft "budget"), (has draft "location"),
      (has draft "propertyType"); simpl; intuition congruence.
  - unfold desired.
    destruct (has draft "intent"), (has draft "budget"), (has draft "location"),
      (has draft "propertyType"); simpl; intuition congruence.
  - unfold agentPickNextStageId. rewrite desiredStage_desired, rankOf_stage.
    destruct (desired_cases draft) as [-> | ->]; reflexivity.
  - unfold stageMax. case_match; [|lia]. apply Z.ltb_lt in H. lia.
Qed.

Example stage_never_regresses : agentPickNextStageId (Some "won") ∅ = "won".
Proof. reflexivity. Qed.

Example stage_qualifies :
  agentPickNextStageId (Some "new")
    {[ "intent" := VStr "buy"; "budget" := VNum (Fin 500000);
       "location" := VStr "Pinheiros" ]} = "qualified".
Proof. vm_compute. reflexivity. Qed.

(** *** Fact merger *)

Lemma agentMergeDraft_empty (prev : gmap string JsValue) : agentMergeDraft prev ∅ = prev.
Proof. apply map_fold_empty. Qed.

Lemma agentMergeDraft_lookup (prev signals : gmap string JsValue) key :
  agentMergeDraft prev signals !! key =
  match signals !! key with
  | Some value => if skipped value then prev !! key else Some value
  | None => prev !! key
  end.
Proof.
  revert key. unfold agentMergeDraft.
  apply (map_fold_weak_ind (λ next (m : gmap string JsValue), ∀ key,
    next !! key = match m !! key with
                  | Some value => if skipped value then prev !! key else Some value
                  | None => prev !! key
                  end)).
  - intros key. by rewrite lookup_empty.
  - intros i x m next Hi IH key. destruct (decide (i = key)) as [->|Hne].
    + rewrite lookup_insert_eq. specialize (IH key). rewrite Hi in IH.
      destruct (skipped x); [done|]. by rewrite lookup_insert_eq.
    + rewrite lookup_insert_ne by done. rewrite <- IH.
      destruct (skipped x); [done|]. by rewrite lookup_insert_ne.
Qed.

Lemma skipped_spec value :
  skipped value = true ↔
  value = VUndefined ∨ value = VNull ∨ ∃ s, value = VStr s ∧ trim s = "".
Proof.
  destruct value as [| |b|n|s]; simpl.
  - split; [by left | done].
  - split; [by right; left | done].
  - split; [done | intros [?|[?|(s & ? & _)]]; done].
  - split; [done | intros [?|[?|(s & ? & _)]]; done].
  - rewrite bool_decide_eq_true. split.
    + intros Hs. right; right. by exists s.
    + intros [?|[?|(s' & [= <-] & Hs)]]; done.
Qed.

(** C5, as the code has it.  Merging the empty signal returns the draft;
    for any draft and signal, the merge overwrites exactly the fields whose
    signal value is neither [undefined], [null] nor a string that trims to
    the empty string (so any number overwrites, finite or not), and leaves
    every other field as it was; hence a fact once set is never cleared by
    a signal in which it is missing or empty. *)
Theorem merge_overwrite_rule (prev signals : gmap string JsValue) :
  agentMergeDraft prev ∅ = prev
  ∧ (∀ key, agentMergeDraft prev signals !! key =
            match signals !! key with
            | Some value => if skipped value then prev !! key else Some value
            | None => prev !! key
            end)
  ∧ (∀ value, skipped value = true ↔
              value = VUndefined ∨ value = VNull ∨ ∃ s, value = VStr s ∧ trim s = "")
  ∧ (∀ key fact, prev !! key = Some fact →
       (signals !! key = None ∨ ∃ value, signals !! key = Some value ∧ skipped value = true) →
       agentMergeDraft prev signals !! key = Some fact).
Proof.
  split_and!.
  - apply agentMergeDraft_empty.
  - apply agentMergeDraft_lookup.
  - apply skipped_spec.
  - intros key fact Hfact Hsig. rewrite agentMergeDraft_lookup.
    destruct Hsig as [-> | (value & -> & ->)]; done.
Qed.

(** C5 as stated fails: a signal carrying [NaN] for the budget overwrites
    the budget of the draft, although [NaN] is not a finite number. *)
Lemma merge_as_stated_fails :
  ¬ mergeAsStated {[ "budget" := VNum (Fin 500000) ]} {[ "budget" := VNum NaN ]}.
Proof.
  intros Hclaim. specialize (Hclaim "budget").
  rewrite agentMergeDraft_lookup in Hclaim.
  rewrite !lookup_singleton_eq in Hclaim. simpl in Hclaim. discriminate.
Qed.

(** A string of blanks is not empty, yet it does not overwrite. *)
Remark merge_blank_string_kept :
  agentMergeDraft {[ "name" := VStr "Ana" ]} {[ "name" := VStr " " ]} !! "name"
  = Some (VStr "Ana").
Proof. rewrite agentMergeDraft_lookup, !lookup_singleton_eq. reflexivity. Qed.

(** *** Phone normalization *)

Lemma phoneTrimmed_all_digits raw :
  Forall (λ c, isDigit c = true) (chars (phoneTrimmed raw)).
Proof.
  unfold phoneTrimmed, phoneDigits. case_match.
  - unfold sliceFrom. rewrite chars_str. apply Forall_drop, digitsOnly_all_digits.
  - apply digitsOnly_all_digits.
Qed.

Lemma phoneTrimmed_55 raw :
  startsWith "55" (phoneDigits raw) = true →
  phoneTrimmed raw =
    if bool_decide (11 < strlen (phoneDigits raw))%nat
    then sliceFrom 2 (phoneDigits raw) else phoneDigits raw.
Proof. intros Hp. unfold phoneTrimmed. by rewrite Hp. Qed.

Lemma not_own_tail s : (2 ≤ strlen s)%nat → s ≠ sliceFrom 2 s.
Proof.
  intros Hlen Heq. pose proof (strlen_sliceFrom 2 s) as Hs.
  rewrite <- Heq in Hs. lia.
Qed.

Lemma stripped_iff raw :
  startsWith "55" (phoneDigits raw) = true →
  stripped raw ↔ (11 < strlen (phoneDigits raw))%nat.
Proof.
  intros Hp. unfold stripped. rewrite (phoneTrimmed_55 _ Hp).
  destruct (startsWith_55 _ Hp) as [rest Hrest].
  assert (2 ≤ strlen (phoneDigits raw))%nat as Hlen.
  { unfold strlen. rewrite Hrest. simpl. lia. }
  case_bool_decide as Hlong; split; try done.
  intros Heq. by apply not_own_tail in Heq.
Qed.

Lemma formatted_digits (i : nat) t :
  (2 ≤ i)%nat → Forall (λ c, isDigit c = true) (chars t) →
  digitsOnly ("(" +:+ slice 0 2 t +:+ ") " +:+ slice 2 i t +:+ "-" +:+ sliceFrom i t) = t.
Proof.
  intros Hi Ht. rewrite !digitsOnly_app.
  rewrite !digitsOnly_slice, digitsOnly_sliceFrom by done.
  change (digitsOnly "(") with "". change (digitsOnly ") ") with "".
  change (digitsOnly "-") with "".
  change ("" +:+ ?x) with x. by apply slices_rejoin.
Qed.

Example phone_mobile : agentNormalizePhone "+55 (11) 99999-8888" = "(11) 99999-8888".
Proof. reflexivity. Qed.

Example phone_landline : agentNormalizePhone "551133334444" = "(11) 3333-4444".
Proof. reflexivity. Qed.

Example phone_too_long : agentNormalizePhone "55119999988887" = "55119999988887".
Proof. reflexivity. Qed.

(** C8, as the code has it.  For a raw token whose digits-only form
    begins with "55": the leading "55" is stripped exactly when 10 or more
    digits remain (the digits-only form has more than 11 digits); the
    decision depends only on the number of digits; matching compares
    digits-only forms, so two phones with the same digits match the same
    leads; and whenever the result is re-formatted for display (10 or 11
    digits after the rule), its digits-only form is the digit string the
    rule produced. *)
Theorem phone_country_code_rule (raw : string) :
  startsWith "55" (phoneDigits raw) = true →
  (stripped raw ↔ (10 ≤ strlen (sliceFrom 2 (phoneDigits raw)))%nat)
  ∧ (¬ stripped raw → phoneTrimmed raw = phoneDigits raw)
  ∧ (∀ other, startsWith "55" (phoneDigits other) = true →
       strlen (phoneDigits other) = strlen (phoneDigits raw) →
       (stripped other ↔ stripped raw))
  ∧ (∀ (lead : Lead) (phone1 phone2 : JsValue),
       digitsOnly (toString phone1) = digitsOnly (toString phone2) →
       phoneMatches phone1 lead = phoneMatches phone2 lead)
  ∧ (strlen (phoneTrimmed raw) = 10%nat ∨ strlen (phoneTrimmed raw) = 11%nat →
       digitsOnly (agentNormalizePhone raw) = phoneTrimmed raw).
Proof.
  intros Hp. split_and!.
  - rewrite (stripped_iff _ Hp), strlen_sliceFrom. lia.
  - rewrite (stripped_iff _ Hp), (phoneTrimmed_55 _ Hp).
    intros Hshort. by rewrite bool_decide_eq_false_2.
  - intros other Hother Hlen. rewrite (stripped_iff _ Hp), (stripped_iff _ Hother).
    by rewrite Hlen.
  - intros lead phone1 phone2 Hsame. unfold phoneMatches. by rewrite Hsame.
  - pose proof (phoneTrimmed_all_digits raw) as Hdigits.
    unfold agentNormalizePhone. intros [Hlen|Hlen].
    + rewrite (bool_decide_eq_false_2 (_ = 11%nat)) by lia.
      rewrite bool_decide_eq_true_2 by done.
      apply formatted_digits; [lia | done].
    + rewrite bool_decide_eq_true_2 by done.
      apply formatted_digits; [lia | done].
Qed.

(** C8 on the token "+55 (11) 99999-8888". *)
Lemma phone_country_code_rule_witness :
  startsWith "55" (phoneDigits "+55 (11) 99999-8888") = true
  ∧ stripped "+55 (11) 99999-8888"
  ∧ digitsOnly (agentNormalizePhone "+55 (11) 99999-8888") = "11999998888".
Proof.
  assert (startsWith "55" (phoneDigits "+55 (11) 99999-8888") = true) as Hp
    by reflexivity.
  destruct (phone_country_code_rule "+55 (11) 99999-8888" Hp)
    as (Hstrip & _ & _ & _ & Hformat).
  split; [exact Hp|]. split.
  - apply Hstrip. vm_compute. lia.
  - rewrite Hformat; [reflexivity | right; reflexivity].
Defined.

(** C8 as stated fails on "551133334444": ten digits remain after the
    "55", fewer than eleven, and the code strips it all the same. *)
Lemma strip_rule_as_stated_fails : ¬ stripRuleAsStated "551133334444".
Proof.
  intros Hclaim. destruct (Hclaim eq_refl) as [Hto _].
  assert (stripped "551133334444") as Hstripped by reflexivity.
  apply Hto in Hstripped. vm_compute in Hstripped. lia.
Qed.

End AgentFacts.

Module GatewayFacts.
Import Js Gateway.

Section Loop.
Context `{Network}.

Lemma all404_allSkipped request paths w w1 :
  all404 request paths w = Some w1 → allSkipped request paths w = Some w1.
Proof.
  revert w. induction paths as [|c rest IH]; intros w; simpl; [done|].
  destruct (fetch w (request c)) as [[status text|message] w']; [|done].
  case_bool_decide; [apply IH | done].
Qed.

Lemma isOk_404 : isOk 404 = false.
Proof. reflexivity. Qed.

(** Candidates that answer 404 or fail in transport are passed over: the
    loop goes on with the remaining ones, and has asked each of them. *)
Lemma tryCandidates_skipped request pre rest w w1 lastError :
  allSkipped request pre w = Some w1 →
  ∃ lastError',
    tryCandidates request lastError (pre ++ rest) w =
      ((tryCandidates request lastError' rest w1).1.1,
       (request <$> pre) ++ (tryCandidates request lastError' rest w1).1.2,
       (tryCandidates request lastError' rest w1).2).
Proof.
  revert w lastError. induction pre as [|c pre IH]; intros w lastError.
  - intros [= <-]. exists lastError. simpl.
    by destruct (tryCandidates request lastError rest w) as [[??]?].
  - cbn [allSkipped app tryCandidates fmap list_fmap].
    destruct (fetch w (request c)) as [[status text|message] w'].
    + case_bool_decide as Hstatus; [|done]. subst status. intros Hskip.
      rewrite isOk_404, bool_decide_eq_false_2 by (intros ?; done).
      destruct (IH w' (Some (failure c 404 text)) Hskip) as [le' ->].
      by exists le'.
    + intros Hskip.
      destruct (IH w' (Some (transportFailure c message)) Hskip) as [le' ->].
      by exists le'.
Qed.

Lemma fmap_snoc (request : string → Request) pre c :
  request <$> (pre ++ [c]) = (request <$> pre) ++ [request c].
Proof. by rewrite fmap_app. Qed.

(** With a candidate left to try, what was recorded before plays no
    part in the result. *)
Lemma tryCandidates_forgets request lastError rest w :
  rest ≠ [] → tryCandidates request lastError rest w = tryCandidates request None rest w.
Proof. by destruct rest. Qed.

(** Candidates that all answer 404: each is asked, and the result is the
    404 of the last one. *)
Lemma tryCandidates_all404 request lastError rest w w1 :
  rest ≠ [] → all404 request rest w = Some w1 →
  let out := tryCandidates request lastError rest w in
  out.1.2 = request <$> rest ∧ out.2 = w1
  ∧ ok out.1.1 = false ∧ status out.1.1 = 404
  ∧ path out.1.1 = last rest ∧ error out.1.1 = None.
Proof.
  revert lastError w. induction rest as [|c rest IH]; intros lastError w Hrest; [done|].
  cbn [all404 tryCandidates]. destruct (fetch w (request c)) as [[status text|message] w']; [|done].
  case_bool_decide as Hstatus; [|done]. subst status. intros Hall.
  rewrite isOk_404, bool_decide_eq_false_2 by (intros ?; done).
  destruct rest as [|next rest].
  - cbn in Hall. apply (inj Some) in Hall. subst w'. by cbn.
  - destruct (IH (Some (failure c 404 text)) w' ltac:(done) Hall)
      as (Hasked & Hworld & Hok & Hcode & Hpath & Herror).
    cbv zeta. cbn [fst snd fmap list_fmap]. rewrite Hasked.
    by split_and!.
Qed.

(** C6.  With a usable base URL, let the candidates [pre] each answer
    404 and let the next candidate [c] answer with an HTTP status.  The
    requests are made in the order of the list.  If the status of [c] is
    2xx the result is the success of [c]: it is [ok], carries that status
    and reports [path = c]; if it is any other status than 404 the result
    is the failure of [c]: it is not [ok], carries that status, [path = c]
    and the body of the answer; in both cases the candidates after [c] are
    never attempted.  If [c] answers 404 as well and is the last candidate,
    the result is that last 404, with status 404 and [path = c]. *)
Theorem fallback_over_statuses (baseUrl apiKey : option string) (method : string)
    (body : option Body) (pre : list string) (c : string) (post : list string)
    (w w1 w2 : World) (status : Z) (text : string) :
  normalizeBaseUrl baseUrl ≠ "" →
  let request := requestFor (normalizeBaseUrl baseUrl) apiKey method body in
  all404 request pre w = Some w1 →
  fetch w1 (request c) = (Responded status text, w2) →
  let out := evolutionTryRequest baseUrl apiKey method (pre ++ c :: post) body w in
  let final := evolutionTryRequest baseUrl apiKey method (pre ++ [c]) body w in
  (isOk status = true →
     out = (success c status text, request <$> (pre ++ [c]), w2)
     ∧ path (success c status text) = Some c
     ∧ ok out.1.1 = true ∧ Gateway.status out.1.1 = status ∧ path out.1.1 = Some c
     ∧ data out.1.1 = Some (payloadOf text))
  ∧ (isOk status = false → status ≠ 404 →
     out = (failure c status text, request <$> (pre ++ [c]), w2)
     ∧ ok out.1.1 = false ∧ Gateway.status out.1.1 = status ∧ path out.1.1 = Some c
     ∧ data out.1.1 = Some (payloadOf text) ∧ error out.1.1 = None)
  ∧ (status = 404 →
     final = (failure c 404 text, request <$> (pre ++ [c]), w2)
     ∧ ok final.1.1 = false ∧ Gateway.status final.1.1 = 404 ∧ path final.1.1 = Some c
     ∧ data final.1.1 = Some (payloadOf text) ∧ error final.1.1 = None).
Proof.
  intros Hbase request Hpre Hc out final. apply all404_allSkipped in Hpre.
  unfold out, final, evolutionTryRequest. rewrite bool_decide_eq_false_2 by done.
  fold request. rewrite fmap_snoc. split_and!.
  - intros Hok.
    destruct (tryCandidates_skipped request pre (c :: post) w w1 None Hpre) as [le ->].
    cbn [tryCandidates]. by rewrite Hc, Hok.
  - intros Hok Hstatus.
    destruct (tryCandidates_skipped request pre (c :: post) w w1 None Hpre) as [le ->].
    cbn [tryCandidates]. by rewrite Hc, Hok, bool_decide_eq_true_2.
  - intros ->.
    destruct (tryCandidates_skipped request pre [c] w w1 None Hpre) as [le ->].
    cbn [tryCandidates]. rewrite Hc, isOk_404, bool_decide_eq_false_2 by (intros ?; done).
    done.
Qed.

(** C7, as the code has it.  With a usable base URL, let the candidates
    [pre] each answer 404 or fail in transport, and let the next candidate
    [c] fail in transport.  The failure is recorded and the loop goes on.
    It is the final result (not [ok], status 0, [path = c], the message as
    [error]) when [c] is the last candidate.  When other candidates follow,
    the next one is attempted and the result is what the loop returns on
    those that follow, as if [c] had not been tried: if the next one answers
    with a status other than 404 its response is the result, and if those
    that follow all answer 404 the result is the 404 of the last of them. *)
Theorem transport_failure_advances (baseUrl apiKey : option string) (method : string)
    (body : option Body) (pre : list string) (c : string)
    (w w1 w2 : World) (message : string) :
  normalizeBaseUrl baseUrl ≠ "" →
  let request := requestFor (normalizeBaseUrl baseUrl) apiKey method body in
  allSkipped request pre w = Some w1 →
  fetch w1 (request c) = (Failed message, w2) →
  let alone := evolutionTryRequest baseUrl apiKey method (pre ++ [c]) body w in
  let followed rest := evolutionTryRequest baseUrl apiKey method (pre ++ c :: rest) body w in
  alone = (transportFailure c message, request <$> (pre ++ [c]), w2)
  ∧ (∀ next post status text w3,
       fetch w2 (request next) = (Responded status text, w3) → status ≠ 404 →
       followed (next :: post)
         = (if isOk status then success next status text else failure next status text,
            request <$> (pre ++ [c; next]), w3))
  ∧ (ok alone.1.1 = false ∧ status alone.1.1 = 0 ∧ path alone.1.1 = Some c
     ∧ error alone.1.1 = Some message ∧ data alone.1.1 = None)
  ∧ (∀ next post status text w3,
       fetch w2 (request next) = (Responded status text, w3) → status ≠ 404 →
       ok (followed (next :: post)).1.1 = isOk status
       ∧ Gateway.status (followed (next :: post)).1.1 = status
       ∧ path (followed (next :: post)).1.1 = Some next
       ∧ error (followed (next :: post)).1.1 = None)
  ∧ (∀ rest, rest ≠ [] →
       followed rest
         = ((tryCandidates request None rest w2).1.1,
            (request <$> (pre ++ [c])) ++ (tryCandidates request None rest w2).1.2,
            (tryCandidates request None rest w2).2))
  ∧ (∀ rest w3, rest ≠ [] → all404 request rest w2 = Some w3 →
       (followed rest).1.2 = request <$> (pre ++ c :: rest)
       ∧ (followed rest).2 = w3
       ∧ ok (followed rest).1.1 = false
       ∧ status (followed rest).1.1 = 404
       ∧ path (followed rest).1.1 = last rest
       ∧ error (followed rest).1.1 = None).
Proof.
  intros Hbase request Hpre Hc alone followed.
  assert (∀ rest,
    followed rest
    = ((tryCandidates request (Some (transportFailure c message)) rest w2).1.1,
       (request <$> (pre ++ [c]))
       ++ (tryCandidates request (Some (transportFailure c message)) rest w2).1.2,
       (tryCandidates request (Some (transportFailure c message)) rest w2).2)) as Hgoes.
  { intros rest. unfold followed, evolutionTryRequest.
    rewrite bool_decide_eq_false_2 by done. fold request.
    destruct (tryCandidates_skipped request pre (c :: rest) w w1 None Hpre) as [le ->].
    cbn [tryCandidates]. rewrite Hc. cbn [fst snd].
    by rewrite fmap_app, <- (assoc_L (++)). }
  assert (alone = (transportFailure c message, request <$> (pre ++ [c]), w2)) as Hlast.
  { change alone with (followed []). rewrite Hgoes. cbn. by rewrite app_nil_r. }
  assert (∀ next post status text w3,
    fetch w2 (request next) = (Responded status text, w3) → status ≠ 404 →
    followed (next :: post)
    = (if isOk status then success next status text else failure next status text,
       request <$> (pre ++ [c; next]), w3)) as Hnext.
  { intros next post status text w3 Hanswer Hstatus. rewrite Hgoes.
    cbn [tryCandidates]. rewrite Hanswer.
    replace (pre ++ [c; next]) with ((pre ++ [c]) ++ [next]) by (by rewrite <- (assoc_L (++))).
    rewrite (fmap_app _ (pre ++ [c])).
    destruct (isOk status); [done|]. by rewrite bool_decide_eq_true_2. }
  split; [done|]. split; [done|]. split; [by rewrite Hlast|]. split; [|split].
  - intros next post status text w3 Hanswer Hstatus.
    rewrite (Hnext next post status text w3 Hanswer Hstatus). by destruct (isOk status).
  - intros rest Hrest. by rewrite Hgoes, tryCandidates_forgets.
  - intros rest w3 Hrest Hall. rewrite Hgoes. cbn [fst snd].
    destruct (tryCandidates_all404 request (Some (transportFailure c message)) rest w2 w3
                Hrest Hall) as (Hasked & Hworld & Hok & Hcode & Hpath & Herror).
    cbv zeta in Hasked, Hworld, Hok, Hcode, Hpath, Herror.
    rewrite Hasked. split; [|done].
    by rewrite <- fmap_app, <- (assoc_L (++)).
Qed.

End Loop.

(** C6 on the scripted provider: with candidates [a; b; c], where [a] and
    [b] answer 404 and [c] answers 200, the result reports [path = c] after
    three requests; with candidates [boom; b; c], where [boom] answers 500,
    the result is the failure of [boom] after a single request. *)
Lemma fallback_over_statuses_witness :
  normalizeBaseUrl (Some "http://evo/") ≠ ""
  ∧ (path (evolutionTryRequest (H := scripted) (Some "http://evo/") (Some "key") "GET"
             ["/a"; "/b"; "/c"] None 0%nat).1.1 = Some "/c"
     ∧ length (evolutionTryRequest (H := scripted) (Some "http://evo/") (Some "key") "GET"
                 ["/a"; "/b"; "/c"] None 0%nat).1.2 = 3%nat)
  ∧ evolutionTryRequest (H := scripted) (Some "http://evo/") (Some "key") "GET"
      ["/boom"; "/b"; "/c"] None 0%nat
    = (failure (H := scripted) "/boom" 500 "Internal Server Error",
       [requestFor (H := scripted) "http://evo" (Some "key") "GET" None "/boom"], 1%nat).
Proof.
  assert (normalizeBaseUrl (Some "http://evo/") ≠ "") as Hbase by (vm_compute; discriminate).
  split; [exact Hbase|]. split.
  - destruct (fallback_over_statuses (H := scripted) (Some "http://evo/") (Some "key") "GET"
                None ["/a"; "/b"] "/c" [] 0%nat 2%nat 3%nat 200 "ok" Hbase eq_refl eq_refl)
      as (Hok & _ & _).
    destruct (Hok eq_refl) as [Hrun _].
    change (["/a"; "/b"] ++ ["/c"]) with ["/a"; "/b"; "/c"] in Hrun.
    rewrite Hrun. split; reflexivity.
  - destruct (fallback_over_statuses (H := scripted) (Some "http://evo/") (Some "key") "GET"
                None [] "/boom" ["/b"; "/c"] 0%nat 0%nat 1%nat 500 "Internal Server Error"
                Hbase eq_refl eq_refl)
      as (_ & Hfail & _).
    apply Hfail; [reflexivity | discriminate].
Defined.

(** C7 as stated fails on the scripted provider: the first candidate
    fails in transport, and the second one is attempted and succeeds. *)
Lemma transport_stops_as_stated_fails :
  ¬ transportStopsAsStated (H := scripted) (Some "http://evo/") None "GET" None
      "/down" ["/c"] 0%nat.
Proof.
  intros Hclaim. specialize (Hclaim "fetch failed" 1%nat eq_refl).
  vm_compute in Hclaim. discriminate.
Qed.

(** C7 as the code has it, on the scripted provider: a transport
    failure on the only candidate is the result; followed by a candidate
    that answers 200, or by one that answers 404, it is not. *)
Lemma transport_failure_advances_witness :
  normalizeBaseUrl (Some "http://evo/") ≠ ""
  ∧ evolutionTryRequest (H := scripted) (Some "http://evo/") None "GET" ["/down"] None 0%nat
    = (transportFailure (H := scripted) "/down" "fetch failed",
       [requestFor (H := scripted) "http://evo" None "GET" None "/down"], 1%nat)
  ∧ path (evolutionTryRequest (H := scripted) (Some "http://evo/") None "GET"
            ["/down"; "/c"] None 0%nat).1.1 = Some "/c"
  ∧ (status (evolutionTryRequest (H := scripted) (Some "http://evo/") None "GET"
               ["/down"; "/a"] None 0%nat).1.1 = 404
     ∧ path (evolutionTryRequest (H := scripted) (Some "http://evo/") None "GET"
               ["/down"; "/a"] None 0%nat).1.1 = Some "/a").
Proof.
  assert (normalizeBaseUrl (Some "http://evo/") ≠ "") as Hbase by (vm_compute; discriminate).
  destruct (transport_failure_advances (H := scripted) (Some "http://evo/") None "GET"
              None [] "/down" 0%nat 0%nat 1%nat "fetch failed" Hbase eq_refl eq_refl)
    as (Hlast & Hnext & _ & _ & _ & Hmissing).
  split; [exact Hbase|]. split; [exact Hlast|]. split.
  - assert (200 ≠ 404) as Hstatus by discriminate.
    pose proof (Hnext "/c" [] 200 "ok" 2%nat eq_refl Hstatus) as Hrun.
    cbn [app] in Hrun. rewrite Hrun. reflexivity.
  - assert (["/a"] ≠ []) as Hrest by discriminate.
    destruct (Hmissing ["/a"] 2%nat Hrest eq_refl) as (_ & _ & _ & Hcode & Hpath & _).
    split; [exact Hcode | exact Hpath].
Defined.

End GatewayFacts.

Module WorkflowFacts.
Import Js Agent Workflow.

Section Turns.
Context `{Host}.

(** A call either returns at once on a blank text, or runs its blocks on
    the frame it computed. *)
Lemma turn_inv app args t :
  runAgentWorkflow app args = Some t →
  (trim (text args) = "" ∧ t = idle app)
  ∨ (trim (text args) ≠ "" ∧ ∃ frame,
       frameOf app args (trim (text args)) = Some frame
       ∧ let lead := leadStep app frame in
         let follow := followUpStep app frame lead in
         let deal := dealStep app frame lead (ts_ids follow) in
         let automation := automationStep app frame lead (ts_tasks follow) (ds_ids deal) in
         sessions (after t)
           = <[channelId args := nextSession args frame lead deal automation]> (sessions app)
         ∧ storedLeads (after t) = ls_leads lead
         ∧ storedTasks (after t) = as_tasks automation
         ∧ createdLead t = ls_created lead
         ∧ createdTasks t = ts_created follow
         ∧ triggeredAutomations t = as_triggered automation
         ∧ automationTasks t = as_created automation
         ∧ payload t = Some (leadPayload frame)).
Proof.
  unfold runAgentWorkflow. case_bool_decide as Hblank.
  - intros [= <-]. by left.
  - intros Hrun. right. split; [done|].
    destruct (frameOf app args (trim (text args))) as [frame|]; [|done].
    exists frame. split; [done|]. apply (inj Some) in Hrun. by subst t.
Qed.

Lemma frameOf_inv app args trimmed frame :
  frameOf app args trimmed = Some frame →
  channelSession frame = default defaultSession (sessions app !! channelId args)
  ∧ nextDraft frame
      = agentMergeDraft (default ∅ (draft (channelSession frame)))
                        (agentExtractSignals trimmed)
  ∧ resolved frame = resolveLeadId (channelSession frame) (nextDraft frame) (storedLeads app)
  ∧ p_score (leadPayload frame) = agentComputeLeadScore (nextDraft frame).
Proof.
  unfold frameOf. intros Hframe.
  apply bind_Some in Hframe as (name & _ & Hframe).
  apply bind_Some in Hframe as (company & _ & Hframe).
  apply (inj Some) in Hframe. by subst frame.
Qed.

Lemma turn_flag app args t channel :
  runAgentWorkflow app args = Some t →
  flagOf (after t) channel =
    flagOf app channel || (bool_decide (channelId args = channel) && triggeredAutomations t).
Proof.
  intros [[_ ->] | (_ & frame & Hframe & Hturn)]%turn_inv.
  - simpl. by rewrite andb_false_r, orb_false_r.
  - cbv zeta in Hturn. destruct Hturn as (Hsessions & _ & _ & _ & _ & -> & _).
    destruct (frameOf_inv _ _ _ _ Hframe) as (Hsession & _).
    unfold flagOf, sessionOf. rewrite Hsessions.
    destruct (decide (channelId args = channel)) as [<-|Hne].
    + rewrite <- Hsession.
      by rewrite lookup_insert_eq, bool_decide_eq_true_2 by done.
    + rewrite lookup_insert_ne, bool_decide_eq_false_2 by done.
      by rewrite orb_false_r.
Qed.

Lemma stepTasks_origin automation related index steps supply task :
  task ∈ (stepTasks automation related index steps supply).1 →
  ∃ k step, steps !! k = Some step
            ∧ task_title task = automationTitle automation (index + k).
Proof.
  revert index supply. induction steps as [|step rest IH]; intros index supply.
  - simpl. by intros ?%elem_of_nil.
  - cbn [stepTasks fst]. intros [->|Hin]%elem_of_cons.
    + exists 0%nat, step. split; [done|]. simpl. by rewrite Nat.add_0_r.
    + destruct (IH _ _ Hin) as (k & step' & Hk & ->).
      exists (S k), step'. split; [done|]. f_equal. lia.
Qed.

Lemma automationTasksOf_origin automations related supply task :
  task ∈ (automationTasksOf automations related supply).1 →
  ∃ automation index step,
    automation ∈ automations
    ∧ auto_steps automation !! index = Some step
    ∧ task_title task = automationTitle automation index.
Proof.
  revert supply. induction automations as [|automation rest IH]; intros supply.
  - simpl. by intros ?%elem_of_nil.
  - cbn [automationTasksOf fst]. intros [Hin|Hin]%elem_of_app.
    + destruct (stepTasks_origin _ _ _ _ _ _ Hin) as (k & step & Hk & Htitle).
      exists automation, k, step. split_and!; [by left | done | done].
    + destruct (IH _ Hin) as (a & k & step & Ha & Hk & Htitle).
      exists a, k, step. split_and!; [by right | done | done].
Qed.

Lemma activeAutomations_spec app automation :
  automation ∈ activeAutomations app →
  automation ∈ storedAutomations app
  ∧ auto_active automation = true
  ∧ auto_trigger automation = "new_lead".
Proof.
  unfold activeAutomations. case_match; [|by intros ?%elem_of_nil].
  intros [Hactive Hin]%list_elem_of_filter. split; [done|].
  unfold activeNewLead in Hactive.
  apply Is_true_true, andb_true_iff in Hactive as [Hon Htrigger].
  by apply bool_decide_eq_true in Htrigger.
Qed.

Lemma idSet_resolved session draft leads :
  idSet (resolveLeadId session draft leads) = false → idSet (leadId session) = false.
Proof.
  unfold resolveLeadId. destruct (idSet (leadId session)) eqn:Hset; [|done].
  simpl. rewrite Hset. simpl. by rewrite Hset.
Qed.

Lemma leadStep_created app frame :
  ls_created (leadStep app frame) = true →
  idSet (resolved frame) = false
  ∧ notFalse (autoCreateLead (settings app)) = true
  ∧ ls_leadId (leadStep app frame) = Some (createId "k" (ids app)).1
  ∧ ls_leads (leadStep app frame)
      = leadOf (createId "k" (ids app)).1 (leadPayload frame) :: storedLeads app.
Proof.
  unfold leadStep.
  destruct (idSet (resolved frame)), (notFalse (autoCreateLead (settings app))); done.
Qed.

Lemma automationStep_triggered app frame lead tasks supply :
  as_triggered (automationStep app frame lead tasks supply) = true →
  ls_created lead = true
  ∧ alreadyTriggered (channelSession frame) = false
  ∧ as_created (automationStep app frame lead tasks supply)
      = (automationTasksOf (activeAutomations app) (leadName frame) supply).1.
Proof.
  unfold automationStep.
  destruct (ls_created lead), (idSet (ls_leadId lead)),
    (bool_decide (activeAutomations app ≠ [])),
    (alreadyTriggered (channelSession frame)); simpl; try done.
  by case_bool_decide.
Qed.

Lemma automationStep_quiet app frame lead tasks supply :
  as_triggered (automationStep app frame lead tasks supply) = false →
  as_created (automationStep app frame lead tasks supply) = [].
Proof.
  unfold automationStep. repeat case_match; done.
Qed.

Lemma automationStep_tasks app frame lead tasks supply :
  as_tasks (automationStep app frame lead tasks supply)
  = as_created (automationStep app frame lead tasks supply) ++ tasks.
Proof.
  unfold automationStep. repeat case_match; done.
Qed.

Lemma followUpStep_tasks app frame lead :
  ∃ followUp,
    ts_tasks (followUpStep app frame lead) = followUp ++ storedTasks app
    ∧ (ls_created lead = false → followUp = []).
Proof.
  unfold followUpStep. destruct (ls_created lead); simpl.
  - case_match; [by eexists [_] | by exists []].
  - by exists [].
Qed.

(** What a turn that fired the automations looked like. *)
Lemma turn_fired app args t :
  runAgentWorkflow app args = Some t →
  triggeredAutomations t = true →
  createdLead t = true
  ∧ idSet (leadId (sessionOf app (channelId args))) = false
  ∧ (∃ lead, storedLeads (after t) = lead :: storedLeads app)
  ∧ flagOf app (channelId args) = false
  ∧ ∀ task, task ∈ automationTasks t →
      ∃ automation index step,
        automation ∈ storedAutomations app
        ∧ auto_active automation = true
        ∧ auto_trigger automation = "new_lead"
        ∧ auto_steps automation !! index = Some step
        ∧ task_title task = automationTitle automation index.
Proof.
  intros [[_ ->] | (_ & frame & Hframe & Hturn)]%turn_inv; [done|].
  cbv zeta in Hturn.
  destruct Hturn as (_ & -> & _ & -> & _ & -> & -> & _). intros Hfired.
  destruct (frameOf_inv _ _ _ _ Hframe) as (Hsession & _ & Hresolved & _).
  destruct (automationStep_triggered _ _ _ _ _ Hfired) as (Hcreated & Hflag & ->).
  destruct (leadStep_created _ _ Hcreated) as (Hunset & _ & _ & Hleads).
  split_and!; [done | | by eexists | |].
  - unfold sessionOf. rewrite <- Hsession.
    rewrite Hresolved in Hunset. by apply idSet_resolved in Hunset.
  - unfold flagOf, sessionOf. by rewrite <- Hsession.
  - intros task (a & k & step & Ha & Hk & Htitle)%automationTasksOf_origin.
    destruct (activeAutomations_spec _ _ Ha) as (Hin & Hactive & Htrigger).
    by exists a, k, step.
Qed.

Lemma turn_tasks app args t :
  runAgentWorkflow app args = Some t →
  (triggeredAutomations t = false → automationTasks t = [])
  ∧ ∃ followUp,
      storedTasks (after t) = automationTasks t ++ followUp ++ storedTasks app
      ∧ (createdLead t = false → followUp = []).
Proof.
  intros [[_ ->] | (_ & frame & Hframe & Hturn)]%turn_inv.
  - split; [done|]. by exists [].
  - cbv zeta in Hturn. destruct Hturn as (_ & _ & -> & -> & _ & -> & -> & _).
    split; [apply automationStep_quiet|].
    destruct (followUpStep_tasks app frame (leadStep app frame)) as (followUp & Hf & Hnone).
    exists followUp. by rewrite automationStep_tasks, Hf.
Qed.

(** *** Runs *)

Lemma flagOf_keepSessions app edited channel :
  flagOf (keepSessions app edited) channel = flagOf app channel.
Proof. done. Qed.

(** On a page right after a render the call is [runAgentWorkflow] on the
    state React holds. *)
Lemma on_rendered app args :
  runAgentWorkflowOn (rendered app) args = runAgentWorkflow app args.
Proof. by destruct app. Qed.

Lemma current_rendered page : seen page = live page → page = rendered (live page).
Proof. destruct page as [l s]. cbn. by intros ->. Qed.

(** In a run whose messages are all handled with current refs, what
    every call keeps of the session of a channel the run keeps, and every
    processed message found it. *)
Lemma run_preserves (P : Session → Prop) channel :
  (∀ app args t, runAgentWorkflow app args = Some t →
     P (sessionOf app channel) → P (sessionOf (after t) channel)) →
  ∀ actions page current,
    (current = true → seen page = live page) →
    refreshed current actions = true →
    P (sessionOf (live page) channel) →
    P (sessionOf (live (run page actions).1) channel)
    ∧ Forall (λ entry, P (sessionOf (live (before entry)) channel)) (run page actions).2.
Proof.
  intros Hstep. induction actions as [|[msg|edit|] rest IH];
    intros page current Hcurrent Hfresh Hpage; cbn [run refreshed] in *.
  - done.
  - apply andb_true_iff in Hfresh as [-> Hrest].
    rewrite (current_rendered page (Hcurrent eq_refl)), on_rendered.
    fold (rendered (live page)). rewrite <- (current_rendered page (Hcurrent eq_refl)).
    destruct (runAgentWorkflow (live page) msg) as [t|] eqn:Hrun.
    + destruct (IH {| live := after t; seen := seen page |} false) as [Hfinal Hfound];
        [done | done | by apply (Hstep _ _ _ Hrun) |].
      cbn [fst snd]. split; [done|]. by constructor.
    + by apply (IH page false).
  - by apply (IH _ false).
  - by apply (IH _ true).
Qed.

(** Every entry of such a run records a call of [runAgentWorkflow] on
    the state React held, and the run ends in a state reached from the one
    that call left. *)
Lemma run_history actions page current entry :
  (current = true → seen page = live page) →
  refreshed current actions = true →
  entry ∈ (run page actions).2 →
  seen (before entry) = live (before entry)
  ∧ runAgentWorkflow (live (before entry)) (args entry) = Some (turn entry)
  ∧ ∃ rest page',
      live page' = after (turn entry)
      ∧ refreshed false rest = true
      ∧ (run page actions).1 = (run page' rest).1.
Proof.
  revert page current. induction actions as [|[msg|edit|] rest IH];
    intros page current Hcurrent Hfresh; cbn [run refreshed] in *.
  - by intros ?%elem_of_nil.
  - apply andb_true_iff in Hfresh as [-> Hrest].
    rewrite (current_rendered page (Hcurrent eq_refl)), on_rendered.
    fold (rendered (live page)). rewrite <- (current_rendered page (Hcurrent eq_refl)).
    destruct (runAgentWorkflow (live page) msg) as [t|] eqn:Hrun.
    + cbn [fst snd]. intros [->|Hin]%elem_of_cons.
      * split; [by apply Hcurrent|]. split; [done|].
        by exists rest, {| live := after t; seen := seen page |}.
      * by apply (IH _ false).
    + by apply (IH page false).
  - by apply (IH _ false).
  - by apply (IH _ true).
Qed.

Lemma run_latch actions page current channel :
  (current = true → seen page = live page) →
  refreshed current actions = true →
  flagOf (live page) channel = true →
  flagOf (live (run page actions).1) channel = true.
Proof.
  intros Hcurrent Hfresh Hflag.
  apply (run_preserves (λ s, alreadyTriggered s = true) channel) with (current := current);
    try done.
  intros app args t Hrun Happ.
  pose proof (turn_flag _ _ _ channel Hrun) as Hturn. unfold flagOf in Hturn.
  by rewrite Hturn, Happ.
Qed.

Lemma run_quiet actions page current channel :
  (current = true → seen page = live page) →
  refreshed current actions = true →
  flagOf (live page) channel = true →
  Forall (λ entry, fires channel entry = false) (run page actions).2.
Proof.
  intros Hcurrent Hfresh Hflag.
  destruct (run_preserves (λ s, alreadyTriggered s = true) channel) with
    (actions := actions) (page := page) (current := current) as [_ Hfound]; try done.
  { intros app args t Hrun Happ.
    pose proof (turn_flag _ _ _ channel Hrun) as Hturn. unfold flagOf in Hturn.
    by rewrite Hturn, Happ. }
  apply Forall_forall. intros entry Hentry.
  pose proof (proj1 (Forall_forall _ _) Hfound entry Hentry) as Hbefore. cbv beta in Hbefore.
  destruct (run_history _ _ _ _ Hcurrent Hfresh Hentry) as (_ & Hrun & _).
  unfold fires.
  destruct (triggeredAutomations (turn entry)) eqn:Hfired; [|by rewrite andb_false_r].
  destruct (turn_fired _ _ _ Hrun Hfired) as (_ & _ & _ & Hunset & _).
  rewrite bool_decide_eq_false_2; [done|]. intros <-. unfold flagOf in Hunset. congruence.
Qed.

Lemma filter_none {A} (p : A → bool) (l : list A) :
  Forall (λ x, p x = false) l → filter (λ x, p x) l = [].
Proof.
  induction 1 as [|x l Hx _ IH]; [done|].
  rewrite filter_cons_False by (rewrite Hx; intros []). exact IH.
Qed.

Lemma run_fires_once actions page current channel :
  (current = true → seen page = live page) →
  refreshed current actions = true →
  (length (filter (λ entry, fires channel entry) (run page actions).2) ≤ 1)%nat.
Proof.
  revert page current. induction actions as [|[msg|edit|] rest IH];
    intros page current Hcurrent Hfresh; cbn [run refreshed] in *.
  - simpl. lia.
  - apply andb_true_iff in Hfresh as [-> Hrest].
    rewrite (current_rendered page (Hcurrent eq_refl)), on_rendered.
    fold (rendered (live page)). rewrite <- (current_rendered page (Hcurrent eq_refl)).
    destruct (runAgentWorkflow (live page) msg) as [t|] eqn:Hrun; [|by apply (IH page false)].
    cbn [snd]. rewrite filter_cons. case_decide as Hfires; [|by apply (IH _ false)].
    apply Is_true_true in Hfires.
    assert (flagOf (after t) channel = true) as Hflag.
    { rewrite (turn_flag _ _ _ _ Hrun). unfold fires in Hfires. cbn [args turn] in Hfires.
      rewrite Hfires. by rewrite orb_true_r. }
    pose proof (run_quiet rest {| live := after t; seen := seen page |} false channel
                  ltac:(done) Hrest Hflag) as Hquiet.
    rewrite (filter_none _ _ Hquiet). simpl. lia.
  - by apply (IH _ false).
  - by apply (IH _ true).
Qed.

(** X22.  In a run in which the component renders between a message
    and the one before it, from a page right after a render: the latch of
    a session, once true, is true after every later message; the automation
    tasks of a turn are created only when the turn fires, and a turn fires
    only if it created the lead on that same turn, only if the latch of its
    session was false before, and its tasks come only from stored
    automations that are active with trigger [new_lead]; firing leaves the
    latch true from then on, and no session fires more than once.  A run
    is any sequence of messages, renders and edits of the other stores. *)
Theorem automation_latch (app : App) (actions : list Action) :
  refreshed true actions = true →
  let final := live (run (rendered app) actions).1 in
  let history := (run (rendered app) actions).2 in
  (∀ channel, flagOf app channel = true → flagOf final channel = true)
  ∧ (∀ entry, entry ∈ history →
       runAgentWorkflowOn (before entry) (args entry) = Some (turn entry)
       ∧ (∀ channel, flagOf (live (before entry)) channel = true →
            flagOf (after (turn entry)) channel = true ∧ flagOf final channel = true)
       ∧ (triggeredAutomations (turn entry) = false → automationTasks (turn entry) = [])
       ∧ (∃ followUp,
            storedTasks (after (turn entry))
              = automationTasks (turn entry) ++ followUp ++ storedTasks (live (before entry))
            ∧ (createdLead (turn entry) = false → followUp = []))
       ∧ (triggeredAutomations (turn entry) = true →
            createdLead (turn entry) = true
            ∧ idSet (leadId (sessionOf (live (before entry)) (channelId (args entry)))) = false
            ∧ (∃ lead, storedLeads (after (turn entry))
                       = lead :: storedLeads (live (before entry)))
            ∧ flagOf (live (before entry)) (channelId (args entry)) = false
            ∧ flagOf (after (turn entry)) (channelId (args entry)) = true
            ∧ flagOf final (channelId (args entry)) = true
            ∧ ∀ task, task ∈ automationTasks (turn entry) →
                ∃ automation index step,
                  automation ∈ storedAutomations (live (before entry))
                  ∧ auto_active automation = true
                  ∧ auto_trigger automation = "new_lead"
                  ∧ auto_steps automation !! index = Some step
                  ∧ task_title task = automationTitle automation index))
  ∧ (∀ channel,
       (length (filter (λ entry, fires channel entry) history) ≤ 1)%nat).
Proof.
  intros Hfresh final history.
  assert (true = true → seen (rendered app) = live (rendered app)) as Hcurrent by done.
  split_and!.
  - intros channel. by apply (run_latch actions (rendered app) true).
  - intros entry Hentry.
    destruct (run_history _ _ _ _ Hcurrent Hfresh Hentry)
      as (Hseen & Hrun & rest & page' & Hlive & Hrest & Hfinal).
    assert (∀ channel, flagOf (after (turn entry)) channel = true →
                       flagOf final channel = true) as Hlater.
    { intros channel Hflag. unfold final. rewrite Hfinal.
      apply (run_latch rest page' false); [done|done|by rewrite Hlive]. }
    destruct (turn_tasks _ _ _ Hrun) as [Hquiet Htasks].
    split_and!; [ | | done | done |].
    + by rewrite (current_rendered _ Hseen), on_rendered.
    + intros channel Hflag.
      assert (flagOf (after (turn entry)) channel = true) as Hafter
        by (by rewrite (turn_flag _ _ _ _ Hrun), Hflag).
      auto.
    + intros Hfired.
      destruct (turn_fired _ _ _ Hrun Hfired)
        as (Hcreated & Hnew & Hlead & Hbefore & Horigin).
      assert (flagOf (after (turn entry)) (channelId (args entry)) = true) as Hafter.
      { rewrite (turn_flag _ _ _ _ Hrun), Hfired, bool_decide_eq_true_2 by done.
        by rewrite orb_true_r. }
      split_and!; auto.
  - intros channel. by apply (run_fires_once actions (rendered app) true).
Qed.

(** *** Identity resolution *)

Lemma find_first {A} (p : A → bool) (pre : list A) (x : A) (post : list A) :
  p x = true → (∀ y, y ∈ pre → p y = false) → find p (pre ++ x :: post) = Some x.
Proof.
  intros Hx Hpre. unfold find. rewrite filter_app, filter_none.
  - rewrite filter_cons_True by (by rewrite Hx). done.
  - by apply Forall_forall.
Qed.

Lemma find_none {A} (p : A → bool) (l : list A) :
  (∀ y, y ∈ l → p y = false) → find p l = None.
Proof. intros Hl. unfold find. rewrite filter_none; [done|]. by apply Forall_forall. Qed.

Lemma resolve_reuse session draft leads :
  idSet (leadId session) = true → resolveLeadId session draft leads = leadId session.
Proof. intros Hset. unfold resolveLeadId. rewrite Hset. simpl. by rewrite Hset. Qed.

Lemma resolve_email session draft leads lead :
  idSet (leadId session) = false →
  has draft "email" = true →
  find (emailMatches (field draft "email")) leads = Some lead →
  lead_id lead ≠ "" →
  resolveLeadId session draft leads = Some (lead_id lead).
Proof.
  intros Hset Hemail Hfind Hid. unfold resolveLeadId.
  rewrite Hset, Hemail, Hfind. simpl. by rewrite bool_decide_eq_true_2.
Qed.

Lemma resolve_unmatched_email session draft leads :
  idSet (leadId session) = false →
  has draft "email" = false ∨ find (emailMatches (field draft "email")) leads = None →
  resolveLeadId session draft leads =
    if has draft "phone" then
      match find (phoneMatches (field draft "phone")) leads with
      | Some existing => Some (lead_id existing)
      | None => leadId session
      end
    else leadId session.
Proof.
  intros Hset Hemail. unfold resolveLeadId. rewrite Hset.
  destruct Hemail as [-> | Hnone].
  - simpl. by rewrite Hset.
  - rewrite Hnone. destruct (has draft "email"); simpl; by rewrite Hset.
Qed.

Lemma leadStep_update app frame :
  idSet (resolved frame) = true →
  ls_leadId (leadStep app frame) = resolved frame
  ∧ ls_created (leadStep app frame) = false
  ∧ ls_leads (leadStep app frame)
      = updateLead (default "" (resolved frame)) (leadPayload frame) <$> storedLeads app.
Proof. intros Hset. unfold leadStep. by rewrite Hset. Qed.

Lemma leadStep_skip app frame :
  idSet (resolved frame) = false →
  autoCreateLead (settings app) = Some false →
  ls_leadId (leadStep app frame) = resolved frame
  ∧ ls_created (leadStep app frame) = false
  ∧ ls_leads (leadStep app frame) = storedLeads app.
Proof. intros Hset Hoff. unfold leadStep. by rewrite Hset, Hoff. Qed.

Lemma leadStep_create app frame :
  idSet (resolved frame) = false →
  notFalse (autoCreateLead (settings app)) = true →
  ls_leadId (leadStep app frame) = Some (createId "k" (ids app)).1
  ∧ ls_created (leadStep app frame) = true
  ∧ ls_leads (leadStep app frame)
      = leadOf (createId "k" (ids app)).1 (leadPayload frame) :: storedLeads app.
Proof. intros Hset Hon. unfold leadStep. by rewrite Hset, Hon. Qed.

(** The lead step of a turn, read off the state it leaves. *)
Lemma turn_lead app args t frame :
  runAgentWorkflow app args = Some t →
  trim (text args) ≠ "" →
  frameOf app args (trim (text args)) = Some frame →
  leadId (sessionOf (after t) (channelId args)) = ls_leadId (leadStep app frame)
  ∧ createdLead t = ls_created (leadStep app frame)
  ∧ storedLeads (after t) = ls_leads (leadStep app frame)
  ∧ payload t = Some (leadPayload frame).
Proof.
  intros [[Hblank _] | (_ & frame' & Hframe' & Hturn)]%turn_inv Hfilled Hframe; [done|].
  rewrite Hframe in Hframe'. apply (inj Some) in Hframe'. subst frame'.
  cbv zeta in Hturn. destruct Hturn as (Hsessions & -> & _ & -> & _ & _ & _ & ->).
  unfold sessionOf. rewrite Hsessions, lookup_insert_eq. done.
Qed.

(** C9, as the code has it.  Take a message with a non-blank text, the
    frame the orchestrator computes for it, and a lead store whose ids are
    non-empty.  If the session already has a lead id, that id is kept and
    the stored leads are updated in place.  Otherwise, when the draft has an
    email, the first lead whose email equals it case-insensitively is
    picked, whatever the phones.  If the draft has no email or no lead
    matches it, and the draft has a phone, the first lead whose digits-only
    phone is non-empty and equals the digits-only phone of the draft is
    picked.  If neither matches, a lead is created and its fresh id stored
    in the session unless [autoCreateLead] is [false]; when it is [false],
    no lead is created and the session keeps its unset id.  Matching is
    equality of the lower-cased emails, respectively of the digit strings. *)
Theorem resolver_priority (app : App) (args : Args) (t : Turn) (frame : Frame) :
  runAgentWorkflow app args = Some t →
  trim (text args) ≠ "" →
  frameOf app args (trim (text args)) = Some frame →
  (∀ lead, lead ∈ storedLeads app → lead_id lead ≠ "") →
  let session := sessionOf app (channelId args) in
  let draft := nextDraft frame in
  let leads := storedLeads app in
  let stored := leadId (sessionOf (after t) (channelId args)) in
  let email := field draft "email" in
  let phone := field draft "phone" in
  let noEmailMatch :=
    has draft "email" = false ∨ ∀ other, other ∈ leads → emailMatches email other = false in
  let noPhoneMatch :=
    has draft "phone" = false ∨ ∀ other, other ∈ leads → phoneMatches phone other = false in
  (idSet (leadId session) = true →
     stored = leadId session ∧ createdLead t = false
     ∧ storedLeads (after t)
         = updateLead (default "" (leadId session)) (leadPayload frame) <$> leads)
  ∧ (idSet (leadId session) = false → has draft "email" = true →
     ∀ pre lead post,
       leads = pre ++ lead :: post →
       emailMatches email lead = true →
       (∀ other, other ∈ pre → emailMatches email other = false) →
       stored = Some (lead_id lead) ∧ createdLead t = false
       ∧ storedLeads (after t) = updateLead (lead_id lead) (leadPayload frame) <$> leads)
  ∧ (idSet (leadId session) = false → noEmailMatch → has draft "phone" = true →
     ∀ pre lead post,
       leads = pre ++ lead :: post →
       phoneMatches phone lead = true →
       (∀ other, other ∈ pre → phoneMatches phone other = false) →
       stored = Some (lead_id lead) ∧ createdLead t = false
       ∧ storedLeads (after t) = updateLead (lead_id lead) (leadPayload frame) <$> leads)
  ∧ (idSet (leadId session) = false → noEmailMatch → noPhoneMatch →
     (notFalse (autoCreateLead (settings app)) = true →
        createdLead t = true
        ∧ stored = Some (createId "k" (ids app)).1
        ∧ storedLeads (after t)
            = leadOf (createId "k" (ids app)).1 (leadPayload frame) :: leads)
     ∧ (autoCreateLead (settings app) = Some false →
        createdLead t = false ∧ idSet stored = false ∧ storedLeads (after t) = leads))
  ∧ (∀ lead,
       (emailMatches email lead = true ↔
          toLowerCase (toString (orEmpty (lead_email lead))) = toLowerCase (toString email))
       ∧ (phoneMatches phone lead = true ↔
            leadPhoneDigits lead ≠ "" ∧ leadPhoneDigits lead = digitsOnly (toString phone))).
Proof.
  intros Hrun Hfilled Hframe Hids session draft leads stored email phone
    noEmailMatch noPhoneMatch.
  destruct (turn_lead _ _ _ _ Hrun Hfilled Hframe) as (Hstored & Hcreated & Hleads & _).
  destruct (frameOf_inv _ _ _ _ Hframe) as (Hsession & _ & Hresolved & _).
  fold (sessionOf app (channelId args)) in Hsession. fold session in Hsession.
  rewrite Hsession in Hresolved. fold draft leads in Hresolved.
  unfold stored. rewrite Hstored, Hcreated, Hleads. clear Hstored Hcreated Hleads.
  assert (noEmailMatch →
          has draft "email" = false ∨ find (emailMatches email) leads = None) as Hemail.
  { intros [?|Hnone]; [by left | right; by apply find_none]. }
  split_and!.
  - intros Hset. pose proof (resolve_reuse session draft leads Hset) as Hres.
    rewrite <- Hresolved in Hres.
    destruct (leadStep_update app frame) as (-> & -> & ->); by rewrite Hres.
  - intros Hset Hhas pre lead post Hsplit Hmatch Hpre.
    assert (lead_id lead ≠ "") as Hid.
    { apply Hids. fold leads. rewrite Hsplit. apply elem_of_app. right. by left. }
    assert (resolved frame = Some (lead_id lead)) as Hres.
    { rewrite Hresolved. apply resolve_email; [done..| |done].
      rewrite Hsplit. by apply find_first. }
    destruct (leadStep_update app frame) as (-> & -> & ->).
    + rewrite Hres. simpl. by rewrite bool_decide_eq_true_2.
    + by rewrite Hres.
  - intros Hset Hno Hhas pre lead post Hsplit Hmatch Hpre.
    assert (lead_id lead ≠ "") as Hid.
    { apply Hids. fold leads. rewrite Hsplit. apply elem_of_app. right. by left. }
    assert (resolved frame = Some (lead_id lead)) as Hres.
    { rewrite Hresolved, (resolve_unmatched_email _ _ _ Hset (Hemail Hno)).
      fold phone. rewrite Hhas, Hsplit. by rewrite find_first. }
    destruct (leadStep_update app frame) as (-> & -> & ->).
    + rewrite Hres. simpl. by rewrite bool_decide_eq_true_2.
    + by rewrite Hres.
  - intros Hset Hno Hnophone.
    assert (resolved frame = leadId session) as Hres.
    { rewrite Hresolved, (resolve_unmatched_email _ _ _ Hset (Hemail Hno)).
      fold phone. destruct Hnophone as [-> | Hnone]; [done|].
      rewrite (find_none _ _ Hnone). by destruct (has draft "phone"). }
    assert (idSet (resolved frame) = false) as Hunset by (by rewrite Hres).
    split.
    + intros Hon. by destruct (leadStep_create app frame Hunset Hon) as (-> & -> & ->).
    + intros Hoff. destruct (leadStep_skip app frame Hunset Hoff) as (-> & -> & ->).
      done.
  - intros lead. split.
    + unfold emailMatches, orEmpty. by rewrite bool_decide_eq_true.
    + unfold phoneMatches. rewrite andb_true_iff, !bool_decide_eq_true. done.
Qed.

(** *** The score carried by lead records *)

Lemma leadStep_scores app frame lead :
  lead ∈ ls_leads (leadStep app frame) →
  lead ∈ storedLeads app ∨ lead_score lead = p_score (leadPayload frame).
Proof.
  unfold leadStep. repeat case_match; cbn [ls_leads].
  - intros [->|Hin]%elem_of_cons; [by right | by left].
  - intros (old & -> & Hold)%list_elem_of_fmap. unfold updateLead.
    case_bool_decide; [by right | by left].
  - by left.
Qed.

(** C10.  The score of any draft lies between 25 and 100.  Hence the
    payload of every turn carries such a score, and every lead record a
    turn leaves in the store is either a record that was there before,
    untouched, or a record created or updated with that score, which
    satisfies the range check 0 <= score <= 100 of [crm_leads]. *)
Theorem score_floor (app : App) (args : Args) (t : Turn) :
  runAgentWorkflow app args = Some t →
  (∀ draft, 25 ≤ agentComputeLeadScore draft ≤ 100)
  ∧ (∀ p, payload t = Some p → 25 ≤ p_score p ≤ 100)
  ∧ (∀ lead, lead ∈ storedLeads (after t) →
       lead ∈ storedLeads app
       ∨ (25 ≤ lead_score lead ≤ 100 ∧ 0 ≤ lead_score lead ≤ 100)).
Proof.
  intros Hrun. split; [apply AgentFacts.lead_score_floor|].
  destruct (turn_inv _ _ _ Hrun) as [[_ ->] | (Hfilled & frame & Hframe & _)].
  - split; [done | by left].
  - destruct (turn_lead _ _ _ _ Hrun Hfilled Hframe) as (_ & _ & -> & ->).
    destruct (frameOf_inv _ _ _ _ Hframe) as (_ & _ & _ & Hscore).
    pose proof (AgentFacts.lead_score_floor (nextDraft frame)) as Hrange.
    split.
    + intros p [= <-]. by rewrite Hscore.
    + intros lead [Hold | Hnew]%leadStep_scores; [by left | right].
      rewrite Hnew, Hscore. lia.
Qed.

End Turns.

(** X22 on two messages of the same peer with a render in between,
    with an active new-lead automation in store: the automations fire
    exactly once. *)
Lemma automation_latch_witness :
  refreshed (H := scriptedHost) true [Message hello; Render; Message hello] = true
  ∧ length (filter (λ entry, fires (H := scriptedHost) "whatsapp" entry)
                   (run (rendered freshApp) [Message hello; Render; Message hello]).2)
    = 1%nat
  ∧ (length (filter (λ entry, fires (H := scriptedHost) "whatsapp" entry)
                    (run (rendered freshApp) [Message hello; Render; Message hello]).2)
     ≤ 1)%nat.
Proof.
  assert (refreshed (H := scriptedHost) true [Message hello; Render; Message hello] = true)
    as Hfresh by reflexivity.
  split; [exact Hfresh|]. split; [vm_compute; reflexivity|].
  apply (automation_latch (H := scriptedHost) freshApp
           [Message hello; Render; Message hello] Hfresh).
Defined.


(** C9 as stated fails where lead creation is switched off: nothing
    matches, and no lead is created. *)
Lemma new_lead_as_stated_fails : ¬ newLeadAsStated noCreateApp hello.
Proof.
  intros Hclaim.
  eassert (runAgentWorkflow noCreateApp hello = Some ?[t]) as Hrun
    by (vm_compute; reflexivity).
  eassert (frameOf noCreateApp hello (trim (text hello)) = Some ?[frame]) as Hframe
    by (vm_compute; reflexivity).
  destruct (Hclaim _ _ Hrun Hframe eq_refl) as [Hcreated _].
  vm_compute in Hcreated. discriminate.
Qed.

(** C9 as the code has it, on a store whose first lead has the phone of
    the draft and whose second lead has its email: the second is picked. *)
Lemma resolver_priority_witness :
  ∃ t, runAgentWorkflow knownApp hello = Some t
       ∧ leadId (sessionOf (after t) "whatsapp") = Some "k-2"
       ∧ createdLead t = false.
Proof.
  eassert (runAgentWorkflow knownApp hello = Some ?[t]) as Hrun
    by (vm_compute; reflexivity).
  eassert (frameOf knownApp hello (trim (text hello)) = Some ?[frame]) as Hframe
    by (vm_compute; reflexivity).
  assert (trim (text hello) ≠ "") as Hfilled by (vm_compute; discriminate).
  assert (∀ lead, lead ∈ storedLeads knownApp → lead_id lead ≠ "") as Hids.
  { intros lead Hin. apply list_elem_of_In in Hin.
    destruct Hin as [<-|[<-|[]]]; vm_compute; discriminate. }
  destruct (resolver_priority (H := scriptedHost) knownApp hello _ _ Hrun Hfilled Hframe Hids)
    as (_ & Hemail & _).
  cbv zeta in Hemail.
  lazymatch type of Hemail with
  | ?unset → ?hasEmail → _ =>
      assert unset as Hunset by (vm_compute; reflexivity);
      assert hasEmail as Hhas by (vm_compute; reflexivity)
  end.
  specialize (Hemail Hunset Hhas [storedLead "k-1" "bob@x.com" "11 99999 8888"]
                (storedLead "k-2" "ana@x.com" "") []).
  lazymatch type of Hemail with
  | ?split → ?matches → ?first → _ =>
      assert split as Hsplit by (vm_compute; reflexivity);
      assert matches as Hmatch by (vm_compute; reflexivity);
      assert first as Hfirst
  end.
  { intros other Hin. apply list_elem_of_In in Hin.
    destruct Hin as [<-|[]]. vm_compute. reflexivity. }
  destruct (Hemail Hsplit Hmatch Hfirst) as (Hstored & Hcreated & _).
  eexists. split; [exact Hrun|]. split; [exact Hstored | exact Hcreated].
Defined.

(** C10 on the first message of a fresh application. *)
Lemma score_floor_witness :
  ∃ t, runAgentWorkflow freshApp hello = Some t
       ∧ ∀ lead, lead ∈ storedLeads (after t) → 0 ≤ lead_score lead ≤ 100.
Proof.
  eassert (runAgentWorkflow freshApp hello = Some ?[t]) as Hrun
    by (vm_compute; reflexivity).
  destruct (score_floor (H := scriptedHost) freshApp hello _ Hrun) as (_ & _ & Hleads).
  eexists. split; [exact Hrun|].
  intros lead Hin. destruct (Hleads lead Hin) as [Hold | [_ Hrange]]; [|exact Hrange].
  apply list_elem_of_In in Hold. destruct Hold.
Defined.

End WorkflowFacts.

Module TrimFacts.
Import Js Trimming JsFacts.

Lemma trim_trimL s : trim s = str (trimL (chars s)).
Proof. done. Qed.

Lemma dropSpaces_head l : headOk (dropSpaces l).
Proof.
  induction l as [|c l IH]; [done|]. simpl.
  destruct (isSpace c) eqn:Hc; [done|]. simpl. done.
Qed.

Lemma dropSpaces_id l : headOk l → dropSpaces l = l.
Proof. destruct l as [|c l]; [done|]. simpl. by intros ->. Qed.

Lemma dropSpaces_split l :
  ∃ pre, l = pre ++ dropSpaces l ∧ Forall (λ c, isSpace c = true) pre.
Proof.
  induction l as [|c l (pre & Hl & Hpre)]; [by exists []|]. simpl.
  destruct (isSpace c) eqn:Hc.
  - exists (c :: pre). split; [by rewrite Hl at 1 | by constructor].
  - by exists [].
Qed.

Lemma headOk_app l k : l ≠ [] → headOk (l ++ k) → headOk l.
Proof. by destruct l. Qed.

Lemma trimL_split l :
  ∃ pre post, l = pre ++ trimL l ++ post
              ∧ Forall (λ c, isSpace c = true) pre
              ∧ Forall (λ c, isSpace c = true) post.
Proof.
  destruct (dropSpaces_split l) as (pre & Hl & Hpre).
  destruct (dropSpaces_split (reverse (dropSpaces l))) as (post & Hm & Hpost).
  exists pre, (reverse post). split_and!; [|done|by apply Forall_reverse].
  unfold trimL. rewrite <- reverse_app, <- Hm, reverse_involutive. done.
Qed.

Lemma trimL_ends l : headOk (trimL l) ∧ headOk (reverse (trimL l)).
Proof.
  split.
  - destruct (dropSpaces_split (reverse (dropSpaces l))) as (post & Hm & _).
    pose proof (dropSpaces_head l) as Hhead.
    apply (f_equal reverse) in Hm. rewrite reverse_involutive, reverse_app in Hm.
    fold (trimL l) in Hm. rewrite Hm in Hhead.
    destruct (trimL l) as [|c t] eqn:Ht; [done|]. by apply (headOk_app _ _) in Hhead.
  - unfold trimL. rewrite reverse_involutive. apply dropSpaces_head.
Qed.

Lemma trimL_fixed l : headOk l → headOk (reverse l) → trimL l = l.
Proof.
  intros Hhead Hlast. unfold trimL.
  rewrite (dropSpaces_id l) by done. rewrite (dropSpaces_id (reverse l)) by done.
  apply reverse_involutive.
Qed.

Lemma trimL_idem l : trimL (trimL l) = trimL l.
Proof. destruct (trimL_ends l). by apply trimL_fixed. Qed.

Lemma trim_idem s : trim (trim s) = trim s.
Proof. by rewrite !trim_trimL, chars_str, trimL_idem. Qed.

Lemma trim_fixed s : headOk (chars s) → headOk (reverse (chars s)) → trim s = s.
Proof. intros ??. by rewrite trim_trimL, trimL_fixed, str_chars. Qed.

Lemma trim_ends s : headOk (chars (trim s)) ∧ headOk (reverse (chars (trim s))).
Proof. rewrite trim_trimL, chars_str. apply trimL_ends. Qed.

Lemma trim_split s :
  ∃ pre post, chars s = pre ++ chars (trim s) ++ post
              ∧ Forall (λ c, isSpace c = true) pre
              ∧ Forall (λ c, isSpace c = true) post.
Proof. rewrite trim_trimL, chars_str. apply trimL_split. Qed.

Lemma str_nil_inv l : str l = "" → l = [].
Proof. intros Hl. apply (f_equal chars) in Hl. by rewrite chars_str in Hl. Qed.

Lemma dropSpaces_spaces l : Forall (λ c, isSpace c = true) l → dropSpaces l = [].
Proof. induction 1 as [|c l Hc _ IH]; [done|]. simpl. by rewrite Hc. Qed.

Lemma trim_blank s : trim s = "" ↔ Forall (λ c, isSpace c = true) (chars s).
Proof.
  split.
  - intros Hs. destruct (trim_split s) as (pre & post & Hsplit & Hpre & Hpost).
    rewrite Hs in Hsplit. rewrite Hsplit. simpl. by apply Forall_app.
  - intros Hs. rewrite trim_trimL. unfold trimL. by rewrite (dropSpaces_spaces _ Hs).
Qed.

Lemma space_not_digit c : isSpace c = true → isDigit c = false.
Proof.
  unfold isSpace, isDigit. intros Hc.
  destruct (48 <=? code c)%N eqn:Hlo; [|done].
  destruct (code c <=? 57)%N eqn:Hhi; [|done].
  apply N.leb_le in Hlo, Hhi.
  repeat (apply orb_true_iff in Hc as [Hc|Hc]).
  - apply andb_true_iff in Hc as [_ Hc]. apply N.leb_le in Hc. lia.
  - apply N.eqb_eq in Hc. lia.
  - apply N.eqb_eq in Hc. lia.
Qed.

Lemma filter_digits_spaces l :
  Forall (λ c, isSpace c = true) l → filter (λ c, isDigit c) l = [].
Proof.
  induction 1 as [|c l Hc _ IH]; [done|].
  rewrite filter_cons_False by (rewrite (space_not_digit _ Hc); intros []). exact IH.
Qed.

Lemma digitsOnly_trim s : digitsOnly (trim s) = digitsOnly s.
Proof.
  destruct (trim_split s) as (pre & post & Hsplit & Hpre & Hpost).
  unfold digitsOnly. rewrite Hsplit, !filter_app.
  by rewrite (filter_digits_spaces pre), (filter_digits_spaces post), app_nil_r.
Qed.

End TrimFacts.

Module PayloadFacts.
Import Js JsFacts Trimming TrimFacts Payloads.

Lemma digitsOnly_idem s : digitsOnly (digitsOnly s) = digitsOnly s.
Proof.
  rewrite <- (str_chars (digitsOnly s)) at 1 2.
  apply digitsOnly_digits, digitsOnly_all_digits.
Qed.

Lemma lowerChar_digit c : isDigit c = true → lowerChar c = c.
Proof.
  unfold isDigit, lowerChar. intros [Hlo Hhi]%andb_true_iff.
  apply N.leb_le in Hlo, Hhi.
  rewrite (proj2 (N.leb_gt 65 (code c))) by lia.
  rewrite (proj2 (N.leb_gt 192 (code c))) by lia. done.
Qed.

Lemma chars_toLowerCase s : chars (toLowerCase s) = lowerChar <$> chars s.
Proof. unfold toLowerCase. by rewrite chars_str. Qed.

(** Removing a suffix that holds no digit does not change the digits. *)
Lemma digitsOnly_removeSuffixCI suffix s :
  Forall (λ c, isDigit c = false) (chars suffix) →
  digitsOnly (removeSuffixCI suffix s) = digitsOnly s.
Proof.
  intros Hsuffix. unfold removeSuffixCI.
  destruct (endsWith suffix (toLowerCase s)) eqn:Hends; [|done].
  unfold endsWith in Hends. apply andb_true_iff in Hends as [_ Hdrop].
  apply bool_decide_eq_true in Hdrop.
  unfold strlen in *. rewrite chars_toLowerCase, length_fmap in Hdrop.
  rewrite <- fmap_drop in Hdrop.
  set (n := (length (chars s) - length (chars suffix))%nat) in *.
  unfold digitsOnly. rewrite chars_str. f_equal.
  rewrite <- (take_drop n (chars s)) at 2. rewrite filter_app.
  assert (filter (λ c, isDigit c) (drop n (chars s)) = []) as ->;
    [|by rewrite app_nil_r].
  rewrite <- Hdrop in Hsuffix. apply Forall_fmap in Hsuffix. clear Hdrop.
  generalize dependent (drop n (chars s)). intros tail Hsuffix.
  induction Hsuffix as [|c l Hc _ IH]; [done|]. simpl in Hc.
  assert (isDigit c = false) as Hd.
  { destruct (isDigit c) eqn:Hd; [|done].
    rewrite (lowerChar_digit _ Hd) in Hc. congruence. }
  rewrite filter_cons_False by (rewrite Hd; intros []). exact IH.
Qed.

Lemma suffixes_hold_no_digit :
  Forall (λ c, isDigit c = false) (chars "@s.whatsapp.net")
  ∧ Forall (λ c, isDigit c = false) (chars "@g.us").
Proof. split; vm_compute; repeat constructor. Qed.

Lemma normalizeWhatsappSender_digits value :
  normalizeWhatsappSender value = digitsOnly value.
Proof.
  destruct suffixes_hold_no_digit as [Hs Hg].
  unfold normalizeWhatsappSender. case_bool_decide as Hraw.
  - rewrite <- digitsOnly_trim, Hraw. reflexivity.
  - by rewrite !digitsOnly_removeSuffixCI, digitsOnly_trim.
Qed.

(** X1.  The sender is the digits of the raw value, in order: white space
    and the two JID suffixes never contribute.  Hence it holds digits only,
    and normalizing twice is normalizing once. *)
Theorem sender_is_digits (value : string) :
  normalizeWhatsappSender value = digitsOnly value
  ∧ Forall (λ c, isDigit c = true) (chars (normalizeWhatsappSender value))
  ∧ normalizeWhatsappSender (normalizeWhatsappSender value) = normalizeWhatsappSender value.
Proof.
  rewrite !normalizeWhatsappSender_digits. split_and!; [done | |].
  - apply digitsOnly_all_digits.
  - apply digitsOnly_idem.
Qed.

Section Extraction.
Context `{Numbers}.

Lemma asString_Some candidate s :
  asString candidate = Some s → candidate = Some (JString s).
Proof. destruct candidate as [[| | |s'| |]|]; simpl; congruence. Qed.

Lemma firstText_spec candidates result :
  firstText candidates = Some result →
  result ≠ "" ∧ trim result = result
  ∧ ∃ before s after,
      candidates = before ++ Some (JString s) :: after
      ∧ result = trim s
      ∧ ∀ earlier, earlier ∈ before →
          ∀ s', earlier = Some (JString s') → trim s' = "".
Proof.
  induction candidates as [|candidate rest IH]; [done|]. cbn [firstText].
  destruct (asString candidate) as [s|] eqn:Hs.
  - apply asString_Some in Hs as ->.
    case_bool_decide as Hblank.
    + intros [= <-]. split_and!; [done | apply trim_idem |].
      exists [], s, rest. split_and!; [done..|]. by intros ? ?%elem_of_nil.
    + intros (Hne & Htrim & before & s' & after & -> & -> & Hbefore)%IH.
      split_and!; [done..|]. exists (Some (JString s) :: before), s', after.
      split_and!; [done..|]. intros earlier [->|Hin]%elem_of_cons.
      * intros s'' [= <-]. by destruct (decide (trim s = "")).
      * by apply Hbefore.
  - intros (Hne & Htrim & before & s' & after & -> & -> & Hbefore)%IH.
    split_and!; [done..|]. exists (candidate :: before), s', after.
    split_and!; [done..|]. intros earlier [->|Hin]%elem_of_cons.
    + intros s'' ->. done.
    + by apply Hbefore.
Qed.

Lemma firstText_none candidates :
  firstText candidates = None ↔
  ∀ s, Some (JString s) ∈ candidates → trim s = "".
Proof.
  induction candidates as [|candidate rest IH]; cbn [firstText].
  - split; [by intros _ s ?%elem_of_nil | done].
  - destruct (asString candidate) as [s|] eqn:Hs.
    + apply asString_Some in Hs as ->.
      case_bool_decide as Hblank.
      * split; [done|]. intros Hall. destruct Hblank. apply Hall. by left.
      * rewrite IH. split.
        -- intros Hall s' [[= ->]|Hin]%elem_of_cons; [|by apply Hall].
           by destruct (decide (trim s = "")).
        -- intros Hall s' Hin. apply Hall. by right.
    + rewrite IH. split.
      * intros Hall s' [Heq|Hin]%elem_of_cons; [by rewrite <- Heq in Hs | by apply Hall].
      * intros Hall s' Hin. apply Hall. by right.
Qed.

(** X2.  What [extractQrCode] and [extractConnectionState] return is
    never empty and carries no surrounding white space; a falsy payload
    yields nothing; and a usable string at the first place looked at
    ([qrcode.base64], respectively [state]) wins over every other place. *)
Theorem extraction_results (payload : option Json) :
  (∀ qr, extractQrCode payload = Some qr → qr ≠ "" ∧ trim qr = qr)
  ∧ (∀ state, extractConnectionState payload = Some state →
       state ≠ "" ∧ trim state = state)
  ∧ (jsonTruthy payload = false →
       extractQrCode payload = None ∧ extractConnectionState payload = None)
  ∧ (∀ s, get "base64" (get "qrcode" payload) = Some (JString s) → trim s ≠ "" →
       extractQrCode payload = Some (trim s))
  ∧ (∀ s, get "state" payload = Some (JString s) → trim s ≠ "" →
       extractConnectionState payload = Some (trim s)).
Proof.
  split_and!.
  - unfold extractQrCode. intros qr. case_match; [done|].
    intros (? & ? & _)%firstText_spec. done.
  - unfold extractConnectionState. intros state. case_match; [done|].
    intros (? & ? & _)%firstText_spec. done.
  - intros Hfalsy. unfold extractQrCode, extractConnectionState. by rewrite Hfalsy.
  - intros s Hget Hs. unfold extractQrCode.
    assert (jsonTruthy payload = true) as ->.
    { destruct payload as [[| | | | |fields]|]; try done. }
    cbn [negb firstText]. rewrite Hget. cbn [asString].
    by rewrite bool_decide_eq_true_2.
  - intros s Hget Hs. unfold extractConnectionState.
    assert (jsonTruthy payload = true) as ->.
    { destruct payload as [[| | | | |fields]|]; try done. }
    cbn [negb firstText]. rewrite Hget. cbn [asString].
    by rewrite bool_decide_eq_true_2.
Qed.

End Extraction.

(** *** Data images *)

Lemma startsWith_app p rest : startsWith p (p +:+ rest) = true.
Proof.
  unfold startsWith, strlen. apply bool_decide_eq_true.
  rewrite chars_app. by rewrite take_app_length.
Qed.

Lemma headOk_snoc_app (l k : list ascii) :
  k ≠ [] → headOk (reverse k) → headOk (reverse (l ++ k)).
Proof.
  intros Hk Hlast. rewrite reverse_app.
  destruct (reverse k) as [|c r] eqn:Hr; [|done].
  apply (f_equal reverse) in Hr. rewrite reverse_involutive in Hr. done.
Qed.

Lemma trim_nonblank_chars s : trim s ≠ "" → chars (trim s) ≠ [].
Proof. intros Hs Hnil. apply Hs. apply chars_inj. by rewrite Hnil. Qed.

Lemma trim_prefixed (p s : string) :
  headOk (chars p) → chars p ≠ [] → trim s ≠ "" →
  trim (p +:+ trim s) = p +:+ trim s.
Proof.
  intros Hhead Hp Hs. apply trim_fixed; rewrite chars_app.
  - destruct (chars p); done.
  - apply headOk_snoc_app; [by apply trim_nonblank_chars | apply trim_ends].
Qed.

(** X3.  [toDataImage] is idempotent, returns the empty string exactly
    on blank input, and its result carries no surrounding white space. *)
Theorem data_image_stable (value : string) :
  toDataImage (toDataImage value) = toDataImage value
  ∧ (toDataImage value = "" ↔ trim value = "")
  ∧ trim (toDataImage value) = toDataImage value.
Proof.
  destruct (decide (trim value = "")) as [Hblank|Hfilled].
  { assert (toDataImage value = "") as Hvalue
      by (unfold toDataImage; by rewrite bool_decide_eq_true_2).
    rewrite Hvalue. split_and!; [reflexivity | done | reflexivity]. }
  assert (toDataImage value ≠ "" → (toDataImage value = "" ↔ trim value = "")) as Hiff
    by (intros ?; split; done).
  destruct (startsWith "data:image/" (trim value)) eqn:Hdata.
  { assert (toDataImage value = trim value) as Hvalue
      by (unfold toDataImage; by rewrite bool_decide_eq_false_2, Hdata).
    rewrite Hvalue in *. split_and!; [|by apply Hiff|apply trim_idem].
    unfold toDataImage. by rewrite trim_idem, bool_decide_eq_false_2, Hdata. }
  destruct (looksLikeBase64Image (trim value)) eqn:Hlooks.
  - assert (toDataImage value = "data:image/png;base64," +:+ trim value) as Hvalue
      by (unfold toDataImage; by rewrite bool_decide_eq_false_2, Hdata, Hlooks).
    assert (trim ("data:image/png;base64," +:+ trim value)
            = "data:image/png;base64," +:+ trim value) as Hfixed
      by (by apply trim_prefixed).
    assert ("data:image/png;base64," +:+ trim value ≠ "") as Hne.
    { intros Heq. apply (f_equal chars) in Heq. by rewrite chars_app in Heq. }
    rewrite Hvalue in *. split_and!; [|by apply Hiff|done].
    unfold toDataImage. rewrite Hfixed, bool_decide_eq_false_2 by done.
    assert (startsWith "data:image/" ("data:image/png;base64," +:+ trim value) = true)
      as ->; [|done].
    change ("data:image/png;base64," +:+ trim value)
      with ("data:image/" +:+ ("png;base64," +:+ trim value)).
    apply startsWith_app.
  - assert (toDataImage value = trim value) as Hvalue
      by (unfold toDataImage; by rewrite bool_decide_eq_false_2, Hdata, Hlooks).
    rewrite Hvalue in *. split_and!; [|by apply Hiff|apply trim_idem].
    unfold toDataImage. by rewrite trim_idem, bool_decide_eq_false_2, Hdata, Hlooks.
Qed.

End PayloadFacts.

Module WebhookFacts.
Import Js JsFacts Trimming TrimFacts Payloads PayloadFacts EventLog EventLogFacts Webhook Poller.

Section Receiver.
Context `{Numbers}.

Lemma parsed_sender_digits payload :
  Forall (λ c, isDigit c = true) (chars (sender (parseEvolutionWebhook payload))).
Proof.
  unfold parseEvolutionWebhook. cbn [sender].
  rewrite normalizeWhatsappSender_digits. apply digitsOnly_all_digits.
Qed.

Lemma parsed_text_trimmed payload :
  trim (text (parseEvolutionWebhook payload)) = text (parseEvolutionWebhook payload).
Proof. unfold parseEvolutionWebhook. cbn [text]. apply trim_idem. Qed.

(** The four outcomes of the route, by the tests the handler makes. *)
Lemma handleWebhook_cases token st request :
  let parsed := parseEvolutionWebhook (payload request) in
  (requireWebhookToken token request = false
   ∧ handleWebhook token st request = (st, Unauthorized))
  ∨ (requireWebhookToken token request = true
     ∧ (text parsed = "" ∨ sender parsed = "")
     ∧ handleWebhook token st request = (st, Ignored None))
  ∨ (requireWebhookToken token request = true
     ∧ text parsed ≠ "" ∧ sender parsed ≠ "" ∧ fromMe parsed = true
     ∧ handleWebhook token st request = (st, Ignored (Some "fromMe")))
  ∨ (requireWebhookToken token request = true
     ∧ text parsed ≠ "" ∧ sender parsed ≠ "" ∧ fromMe parsed = false
     ∧ ∃ event,
         handleWebhook token st request = ((pushEvent st event).1, Accepted)
         ∧ ev_id event = uuid request
         ∧ ev_type event = "whatsapp_message"
         ∧ ev_sender event = sender parsed
         ∧ ev_text event = text parsed
         ∧ ev_receivedAt event = now request).
Proof.
  intros parsed. unfold handleWebhook. fold parsed.
  destruct (requireWebhookToken token request); [|by left]. right.
  destruct (decide (text parsed = "")) as [Htext|Htext].
  { left. rewrite bool_decide_eq_true_2 by done. auto. }
  destruct (decide (sender parsed = "")) as [Hsender|Hsender].
  { left. rewrite (bool_decide_eq_true_2 (sender parsed = "")), orb_true_r by done. auto. }
  right. rewrite !bool_decide_eq_false_2 by done. cbn [negb orb].
  destruct (fromMe parsed); [by left|]. right.
  split_and!; [done..|]. eexists. split; [reflexivity|]. done.
Qed.

(** X4.  A request the route does not accept leaves the log and its
    counter as they were: an unauthorised request, a message without text
    or without a digit in its sender, and an echo of a message of our own
    never take a sequence number.  The request is accepted exactly when it
    is authorised, carries text and a sender, and is not ours; it is
    refused as unauthorised exactly when a token is configured and neither
    the query nor the header carries it. *)
Theorem webhook_rejections (token : string) (st : Log) (request : Request) :
  let parsed := parseEvolutionWebhook (payload request) in
  let out := handleWebhook token st request in
  (out.2 ≠ Accepted → out.1 = st)
  ∧ (out.2 = Accepted ↔
       requireWebhookToken token request = true
       ∧ text parsed ≠ "" ∧ sender parsed ≠ "" ∧ fromMe parsed = false)
  ∧ (out.2 = Unauthorized ↔
       token ≠ ""
       ∧ trim (default "" (queryToken request)) ≠ token
       ∧ trim (default "" (headerToken request)) ≠ token)
  ∧ (fromMe parsed = true → out.2 ≠ Accepted)
  ∧ (replyStatus out.2 = 401 ↔ out.2 = Unauthorized).
Proof.
  intros parsed out.
  assert (requireWebhookToken token request = false ↔
          token ≠ ""
          ∧ trim (default "" (queryToken request)) ≠ token
          ∧ trim (default "" (headerToken request)) ≠ token) as Hgate.
  { unfold requireWebhookToken. case_bool_decide as Htoken; [naive_solver|].
    rewrite orb_false_iff, !bool_decide_eq_false. naive_solver. }
  destruct (handleWebhook_cases token st request)
    as [(Hauth & Hout) | [(Hauth & Hblank & Hout)
        | [(Hauth & Htext & Hsender & Hmine & Hout)
          | (Hauth & Htext & Hsender & Hmine & event & Hout & _)]]];
    fold parsed in Hblank || idtac; unfold out; rewrite Hout; cbn [fst snd].
  - split_and!; [done | | | done | done].
    + split; [done|]. intros [? _]. congruence.
    + split; [intros _; by apply Hgate | done].
  - split_and!; [done | | | done | done].
    + split; [done|]. intros (_ & ? & ? & _). by destruct Hblank.
    + split; [done|]. intros ?%Hgate. congruence.
  - split_and!; [done | | | done | done].
    + split; [done|]. intros (_ & _ & _ & ?). fold parsed in Hmine. congruence.
    + split; [done|]. intros ?%Hgate. congruence.
  - split_and!; [done | | | | done].
    + split; [|done]. intros _. done.
    + split; [done|]. intros ?%Hgate. congruence.
    + fold parsed in Hmine. congruence.
Qed.

(** X5.  An accepted request appends exactly one event, numbered with
    the next sequence number: its sender is a non-empty string of digits,
    its text is non-empty and trimmed, and it passes the filter the polling
    page applies before handing an item to the orchestrator. *)
Theorem webhook_accepts (token : string) (st : Log) (request : Request) :
  (handleWebhook token st request).2 = Accepted →
  ∃ kept event,
    events (handleWebhook token st request).1 = kept ++ [event]
    ∧ eventSeq (handleWebhook token st request).1 = eventSeq st + 1
    ∧ seq event = eventSeq st + 1
    ∧ ev_id (data event) = uuid request
    ∧ ev_sender (data event) ≠ ""
    ∧ Forall (λ c, isDigit c = true) (chars (ev_sender (data event)))
    ∧ ev_text (data event) ≠ ""
    ∧ trim (ev_text (data event)) = ev_text (data event)
    ∧ deliverable event = true.
Proof.
  destruct (handleWebhook_cases token st request)
    as [(_ & Hout) | [(_ & _ & Hout) | [(_ & _ & _ & _ & Hout)
        | (_ & Htext & Hsender & _ & ev & Hout & Hid & Htype & Hs & Ht & _)]]];
    rewrite Hout; cbn [fst snd]; try done.
  intros _. rewrite pushEvent_events, pushEvent_counter.
  set (event := (pushEvent st ev).2).
  assert (data event = ev) as Hdata by done.
  exists (drop (length (events st ++ [event]) - MAX_EVENTS) (events st)), event.
  split_and!.
  - rewrite drop_app_le; [done|]. rewrite length_app. simpl. unfold MAX_EVENTS. lia.
  - done.
  - done.
  - by rewrite Hdata.
  - by rewrite Hdata, Hs.
  - rewrite Hdata, Hs. apply parsed_sender_digits.
  - by rewrite Hdata, Ht.
  - rewrite Hdata, Ht. apply parsed_text_trimmed.
  - unfold deliverable. rewrite Hdata, Htype, Hs, Ht.
    by rewrite !bool_decide_eq_true_2.
Qed.

(** X6.  A body that is blank or that [JSON.parse] rejects never
    creates an event: the route answers "ignored" (or refuses the request
    for its token) and the log stays as it was. *)
Theorem malformed_body_ignored (token : string) (st : Log) (request : Request)
    (parse : string → option Json) (raw : string) :
  trim raw = "" ∨ parse raw = None →
  payload request = readJson parse raw →
  (handleWebhook token st request).1 = st
  ∧ (requireWebhookToken token request = true →
       (handleWebhook token st request).2 = Ignored None).
Proof.
  intros Hraw Hpayload.
  assert (text (parseEvolutionWebhook (payload request)) = "") as Htext.
  { rewrite Hpayload. unfold readJson.
    destruct Hraw as [Hblank|Hbad].
    - by rewrite bool_decide_eq_true_2.
    - case_bool_decide; [done|]. by rewrite Hbad. }
  destruct (handleWebhook_cases token st request)
    as [(Hauth & Hout) | [(Hauth & _ & Hout) | [(_ & ? & _) | (_ & ? & _)]]];
    try done; rewrite Hout; cbn [fst snd]; split; try done.
  intros ?. congruence.
Qed.

End Receiver.

(** X4 on a message of our own, X5 on a message of a peer. *)
Lemma webhook_rejections_witness :
  (handleWebhook "s3cret" initial (Samples.post "5511999998888@s.whatsapp.net" "oi" true)).2
    = Ignored (Some "fromMe")
  ∧ (handleWebhook "s3cret" initial (Samples.post "5511999998888@s.whatsapp.net" "oi" true)).1
    = initial.
Proof.
  split; [reflexivity|].
  apply (webhook_rejections (H := Samples.plainNumbers) "s3cret" initial
           (Samples.post "5511999998888@s.whatsapp.net" "oi" true)).
  vm_compute. discriminate.
Defined.

Lemma webhook_accepts_witness :
  ∃ kept event,
    events (handleWebhook "s3cret" initial
              (Samples.post "5511999998888@s.whatsapp.net" " oi " false)).1 = kept ++ [event]
    ∧ seq event = 1
    ∧ ev_sender (data event) = "5511999998888"
    ∧ ev_text (data event) = "oi".
Proof.
  destruct (webhook_accepts (H := Samples.plainNumbers) "s3cret" initial
              (Samples.post "5511999998888@s.whatsapp.net" " oi " false) eq_refl)
    as (kept & event & Hevents & _ & Hseq & _).
  exists kept, event. split; [exact Hevents|]. split; [exact Hseq|].
  assert (events (handleWebhook "s3cret" initial
                    (Samples.post "5511999998888@s.whatsapp.net" " oi " false)).1
          = [] ++ [{| seq := 1;
                      data := {| ev_id := "u-1"; ev_type := "whatsapp_message";
                                 ev_channel := "whatsapp"; ev_instance := Some "loja";
                                 ev_sender := "5511999998888"; ev_author := Some "Ana";
                                 ev_text := "oi"; ev_receivedAt := 1700000000000 |} |}])
    as Hconcrete by (vm_compute; reflexivity).
  rewrite Hconcrete in Hevents. apply app_inj_tail in Hevents as [_ <-]. done.
Defined.

Lemma malformed_body_ignored_witness :
  (handleWebhook (H := Samples.plainNumbers) "" initial
     {| queryToken := None; headerToken := None;
        payload := readJson (λ _, None) "{oops"; uuid := "u-2"; now := 0 |})
  = (initial, Ignored None).
Proof.
  pose proof (malformed_body_ignored (H := Samples.plainNumbers) "" initial
     {| queryToken := None; headerToken := None;
        payload := readJson (λ _, None) "{oops"; uuid := "u-2"; now := 0 |}
     (λ _, None) "{oops" (or_intror eq_refl) eq_refl) as [Hlog Hreply].
  rewrite (surjective_pairing (handleWebhook _ _ _)), Hlog, (Hreply eq_refl). done.
Defined.

End WebhookFacts.

Module EnvFacts.
Import Js Env.

Lemma envLine_keeps env line key value :
  env !! key = Some value → envLine env line !! key = Some value.
Proof.
  intros Hkey. unfold envLine.
  destruct (indexOfEq (chars line)) as [[|index]|]; [done| |done].
  case_bool_decide as Hempty; [done|].
  case_bool_decide as Hset; [done|].
  rewrite lookup_insert_ne; [done|]. intros <-. apply Hset. by rewrite Hkey.
Qed.

Lemma envLines_keep env lines key value :
  env !! key = Some value → foldl envLine env lines !! key = Some value.
Proof.
  revert env. induction lines as [|line rest IH]; intros env Hkey; [done|].
  simpl. apply IH. by apply envLine_keeps.
Qed.

(** A line either defines nothing, or names one variable and sets it
    where it is not set yet. *)
Lemma envLine_cases line :
  (∀ env, envLine env line = env)
  ∨ ∃ key value, ∀ env,
      envLine env line =
        if bool_decide (is_Some (env !! key)) then env else <[key := value]> env.
Proof.
  unfold envLine. destruct (indexOfEq (chars line)) as [[|index]|]; [by left| |by left].
  case_bool_decide as Hempty; [by left|]. right. by eexists _, _.
Qed.

Lemma envLine_settled env line env' :
  (∀ key, is_Some (envLine env line !! key) → is_Some (env' !! key)) →
  envLine env' line = env'.
Proof.
  intros Hsub. destruct (envLine_cases line) as [Hnone | (key & value & Hline)]; [done|].
  rewrite Hline, bool_decide_eq_true_2; [done|]. apply Hsub. rewrite Hline.
  case_bool_decide as Hset; [done|]. rewrite lookup_insert_eq. eauto.
Qed.

Lemma envLines_mono env lines key :
  is_Some (env !! key) → is_Some (foldl envLine env lines !! key).
Proof. intros [value Hkey]. exists value. by apply envLines_keep. Qed.

Lemma envLines_settled lines :
  ∀ env env',
    (∀ key, is_Some (foldl envLine env lines !! key) → is_Some (env' !! key)) →
    foldl envLine env' lines = env'.
Proof.
  induction lines as [|line rest IH]; intros env env' Hsub; [done|]. simpl in *.
  assert (envLine env' line = env') as ->.
  { apply (envLine_settled env). intros key Hkey. apply Hsub. by apply envLines_mono. }
  by apply (IH (envLine env line)).
Qed.

(** X7.  Loading an environment file never changes a variable that is
    already set, so the process environment wins over [.env] and [.env]
    wins over [.env.local]; within a file the first definition of a
    variable wins; a missing file changes nothing; and loading the same
    file again changes nothing. *)
Theorem env_precedence (dotEnv dotEnvLocal : option string) (env : gmap string string) :
  (∀ file key value, env !! key = Some value →
     loadEnvFile file env !! key = Some value)
  ∧ (∀ key value, loadEnvFile dotEnv env !! key = Some value →
       loadEnvFiles dotEnv dotEnvLocal env !! key = Some value)
  ∧ (∀ first second,
       foldl envLine env (first ++ second) = foldl envLine (foldl envLine env first) second
       ∧ ∀ key value, foldl envLine env first !! key = Some value →
           foldl envLine env (first ++ second) !! key = Some value)
  ∧ loadEnvFile None env = env
  ∧ (∀ file, loadEnvFile file (loadEnvFile file env) = loadEnvFile file env).
Proof.
  assert (∀ file e key value, e !! key = Some value →
            loadEnvFile file e !! key = Some value) as Hkeep.
  { intros [raw|] e key value Hkey; [|done]. by apply envLines_keep. }
  split_and!.
  - intros file. apply Hkeep.
  - intros key value. apply Hkeep.
  - intros first second. rewrite foldl_app. split; [done|].
    intros key value. apply envLines_keep.
  - done.
  - intros [raw|]; [|done]. simpl. by apply (envLines_settled _ env).
Qed.

Example env_file_sample :
  loadEnvFile (Some Samples.dotEnv) {[ "TOKEN" := "real" ]} !! "PORT" = Some "9000"
  ∧ loadEnvFile (Some Samples.dotEnv) {[ "TOKEN" := "real" ]} !! "TOKEN" = Some "real"
  ∧ loadEnvFile (Some Samples.dotEnv) ∅ !! "TOKEN" = Some "a b"
  ∧ loadEnvFile (Some Samples.dotEnv) ∅ !! "plain" = None.
Proof. vm_compute. done. Qed.

End EnvFacts.

Module PipelineFacts.
Import Js Payloads EventLog EventLogFacts Webhook WebhookFacts Poller Pipeline.

Lemma sorted_sublist {A} (R : relation A) (k l : list A) :
  k `sublist_of` l → StronglySorted R l → StronglySorted R k.
Proof.
  induction 1 as [|x k l Hsub IH|x k l Hsub IH]; [done| |].
  - intros [Hx Hl]%StronglySorted_cons. apply StronglySorted_cons. split; [|auto].
    apply Forall_forall. intros y Hy. rewrite Forall_forall in Hx.
    apply Hx. by apply (sublist_subseteq _ _ Hsub).
  - intros [_ Hl]%StronglySorted_cons. auto.
Qed.

Lemma sorted_lookup (l : list Event) i j a b :
  StronglySorted earlier l → l !! i = Some a → l !! j = Some b → (i < j)%nat →
  seq a < seq b.
Proof.
  intros Hsorted. revert i j. induction Hsorted as [|x l Hl IH Hx]; [done|].
  intros [|i] [|j] Ha Hb Hij; try lia.
  - apply (inj Some) in Ha. subst x. rewrite Forall_forall in Hx. apply Hx.
    by eapply list_elem_of_lookup_2.
  - apply (IH i j); [done..|lia].
Qed.

Lemma advance_bounds cursor items bound :
  cursor ≤ bound → Forall (λ ev, seq ev ≤ bound) items →
  cursor ≤ foldl advance cursor items ≤ bound.
Proof.
  intros Hc Hitems. revert cursor Hc.
  induction Hitems as [|ev items Hev _ IH]; intros cursor Hc; [simpl; lia|].
  simpl.
  change (advance cursor ev) with (if bool_decide (cursor < seq ev) then seq ev else cursor).
  case_bool_decide.
  - specialize (IH (seq ev) Hev). lia.
  - specialize (IH cursor Hc). lia.
Qed.

Lemma advance_covers cursor items :
  cursor ≤ foldl advance cursor items
  ∧ Forall (λ ev, seq ev ≤ foldl advance cursor items) items.
Proof.
  revert cursor. induction items as [|ev items IH]; intros cursor; [by split|].
  cbn [foldl].
  change (advance cursor ev) with (if bool_decide (cursor < seq ev) then seq ev else cursor).
  case_bool_decide as Hnew.
  - destruct (IH (seq ev)) as [Hle Hall]. split; [lia|]. by constructor.
  - destruct (IH cursor) as [Hle Hall]. split; [done|]. constructor; [lia|done].
Qed.

(** A poll answered by the server moves the cursor to the counter. *)
Lemma poll_cursor cursor st :
  cursor ≤ eventSeq st → Forall (λ ev, seq ev ≤ eventSeq st) (events st) →
  (pollResponse cursor (Some (readAfter cursor st))).1 = eventSeq st.
Proof.
  intros Hc Hbound. unfold pollResponse, readAfter. cbn [fst].
  pose proof (advance_bounds cursor
                (filter (λ event, cursor < seq event) (events st)) (eventSeq st) Hc) as Hreach.
  destruct Hreach as [_ Hreach].
  { apply Forall_forall. intros ev [_ Hin]%list_elem_of_filter.
    rewrite Forall_forall in Hbound. by apply Hbound. }
  case_bool_decide; [done|lia].
Qed.

Lemma pushEvent_ordered st event :
  deliverable {| seq := eventSeq st + 1; data := event |} = true →
  logOrdered st → logOrdered (pushEvent st event).1.
Proof.
  intros Hdeliverable (Hcounter & Hsorted & Hbound & Hall). unfold logOrdered.
  rewrite pushEvent_events, pushEvent_counter.
  set (new := (pushEvent st event).2).
  assert (StronglySorted earlier (events st ++ [new])) as Hsorted'.
  { apply StronglySorted_app_2; [|done|by repeat constructor].
    intros a b Ha ->%list_elem_of_singleton. rewrite Forall_forall in Hbound.
    unfold earlier. unfold new. rewrite pushEvent_seq. specialize (Hbound a Ha). lia. }
  assert (Forall (λ ev, 0 < seq ev ≤ eventSeq st + 1) (events st ++ [new])) as Hbound'.
  { apply Forall_app. split.
    - eapply Forall_impl; [exact Hbound|]. simpl. lia.
    - repeat constructor; unfold new; rewrite pushEvent_seq; lia. }
  split_and!.
  - lia.
  - eapply sorted_sublist; [apply sublist_drop|done].
  - by apply Forall_drop.
  - apply Forall_drop, Forall_app. split; [done|]. by repeat constructor.
Qed.

Lemma filter_every {A} (P : A → Prop) `{∀ x, Decision (P x)} (l : list A) :
  Forall P l → filter P l = l.
Proof.
  induction 1 as [|x l Hx _ IH]; [done|]. by rewrite filter_cons_True, IH.
Qed.

Lemma filter_nothing {A} (P : A → Prop) `{∀ x, Decision (P x)} (l : list A) :
  Forall (λ x, ¬ P x) l → filter P l = [].
Proof.
  induction 1 as [|x l Hx _ IH]; [done|]. by rewrite filter_cons_False.
Qed.

Lemma seqZ_one m : seqZ m 1 = [m].
Proof. rewrite seqZ_cons by lia. by rewrite seqZ_nil by lia. Qed.

Lemma recent_above (recent : list Event) c n :
  seq <$> recent = seqZ (c + 1) (n - c) →
  Forall (λ ev, c < seq ev ≤ n) recent.
Proof.
  intros Hseqs. apply Forall_forall. intros ev Hev.
  assert (seq ev ∈ seqZ (c + 1) (n - c)) as Hin
    by (rewrite <- Hseqs; by apply list_elem_of_fmap_2).
  apply elem_of_seqZ in Hin. lia.
Qed.

Lemma sorted_NoDup (l : list Event) : StronglySorted earlier l → NoDup (seq <$> l).
Proof.
  intros Hsorted. apply NoDup_alt. intros i j z Hi Hj.
  rewrite list_lookup_fmap in Hi, Hj.
  destruct (l !! i) as [a|] eqn:Ha; [|done].
  destruct (l !! j) as [b|] eqn:Hb; [|done].
  simpl in Hi, Hj. simplify_eq.
  destruct (Nat.lt_trichotomy i j) as [Hlt|[->|Hlt]]; [|done|].
  - pose proof (sorted_lookup _ _ _ _ _ Hsorted Ha Hb Hlt). lia.
  - pose proof (sorted_lookup _ _ _ _ _ Hsorted Hb Ha Hlt). lia.
Qed.

Lemma initial_ordered : logOrdered initial.
Proof. unfold logOrdered. simpl. split_and!; done || constructor. Qed.

Section Systems.
Context `{Numbers}.

Lemma handleWebhook_ordered token st request :
  logOrdered st → logOrdered (handleWebhook token st request).1.
Proof.
  intros Hst.
  destruct (handleWebhook_cases token st request)
    as [(_ & ->) | [(_ & _ & ->) | [(_ & _ & _ & _ & ->)
        | (_ & Htext & Hsender & _ & ev & -> & _ & Htype & Hs & Ht & _)]]]; try done.
  cbn [fst]. apply pushEvent_ordered; [|done].
  unfold deliverable. cbn [data]. rewrite Htype, Hs, Ht.
  by rewrite !bool_decide_eq_true_2.
Qed.

Lemma step_ordered token sys a : logOrdered (log sys) → logOrdered (log (step token sys a)).
Proof.
  intros Hlog. destruct a as [request| | | |]; cbn [step log]; try done.
  - by apply handleWebhook_ordered.
  - apply initial_ordered.
Qed.

(** The server log is in order, whatever happened. *)
Lemma simulate_ordered token steps : logOrdered (log (simulate token start steps)).
Proof.
  assert (∀ sys, logOrdered (log sys) → logOrdered (log (simulate token sys steps))) as Hany.
  { induction steps as [|a rest IH]; intros sys Hsys; [done|].
    apply IH. by apply step_ordered. }
  apply Hany, initial_ordered.
Qed.

(** What a poll the server answers hands over. *)
Lemma poll_handed (c : Z) (st : Log) :
  logOrdered st →
  (pollResponse c (Some (readAfter c st))).2 = filter (λ event, c < seq event) (events st).
Proof.
  intros (_ & _ & _ & Hall). unfold pollResponse, readAfter. cbn [snd].
  apply filter_every, Forall_forall. intros ev [_ Hin]%list_elem_of_filter.
  rewrite Forall_forall in Hall. by rewrite (Hall ev Hin).
Qed.

Lemma poll_reaches sys :
  let reached := (pollResponse (cursor sys) (Some (readAfter (cursor sys) (log sys)))).1 in
  cursor sys ≤ reached
  ∧ Forall (λ ev, seq ev ≤ reached)
           (filter (λ event, cursor sys < seq event) (events (log sys))).
Proof.
  cbv zeta. unfold pollResponse, readAfter. cbn [fst].
  destruct (advance_covers (cursor sys)
              (filter (λ event, cursor sys < seq event) (events (log sys)))) as [Hle Hall].
  case_bool_decide; (split; [lia|]); [|done].
  eapply Forall_impl; [exact Hall|]. simpl. lia.
Qed.

Lemma step_inOrder token base from handed sys a :
  (match a with Start => False | _ => True end) →
  inOrder base from handed sys →
  ∃ handed', inOrder base from handed' (step token sys a).
Proof.
  intros Hsteady (Hlog & Hfrom & Hdelivered & Hsorted & Hbound).
  destruct a as [request| | | |]; [| | |done|].
  - exists handed. split; [by apply step_ordered|]. done.
  - pose proof (poll_handed (cursor sys) (log sys) Hlog) as Hpolled.
    destruct (poll_reaches sys) as [Hle Hreach]. cbv zeta in Hle, Hreach.
    exists (handed ++ filter (λ event, cursor sys < seq event) (events (log sys))).
    unfold inOrder. cbn [step log cursor delivered]. rewrite Hpolled.
    destruct Hlog as (Hcounter & Hlsorted & Hlbound & Hlall).
    split; [done|]. split; [lia|]. split; [by rewrite Hdelivered, (assoc_L (++))|]. split.
    + apply StronglySorted_app_2; [|done|].
      * intros a b Ha [Hb _]%list_elem_of_filter.
        rewrite Forall_forall in Hbound. specialize (Hbound a Ha).
        unfold earlier. lia.
      * eapply sorted_sublist; [apply sublist_filter|done].
    + apply Forall_app. split.
      * eapply Forall_impl; [exact Hbound|]. intros x Hx. cbv beta in Hx |- *. lia.
      * apply Forall_forall. intros b Hb.
        pose proof Hb as [Habove _]%list_elem_of_filter.
        rewrite Forall_forall in Hreach. specialize (Hreach b Hb). lia.
  - by exists handed.
  - exists handed. split; [apply initial_ordered|]. done.
Qed.

Lemma simulate_inOrder token base from steps :
  steady steps = true →
  ∀ handed sys, inOrder base from handed sys →
  ∃ handed', inOrder base from handed' (simulate token sys steps).
Proof.
  induction steps as [|a rest IH]; intros Hsteady handed sys Hsys; [by exists handed|].
  cbn [steady forallb] in Hsteady. apply andb_true_iff in Hsteady as [Ha Hrest].
  destruct (step_inOrder token base from handed sys a) as [handed' Hstep]; [|done|].
  { by destruct a. }
  by apply (IH Hrest handed').
Qed.

(** X8.  While the polling effect runs on without being started anew,
    the items it hands to the orchestrator come in strictly increasing
    order of sequence number, each above the cursor the stretch began with
    and none above the cursor it ends with, so none is handed over twice,
    and the cursor never moves back.  A start of the effect sets the
    cursor to 0, and the next poll the server answers then hands over
    every event the server still holds, those handed over before
    included.  This holds from any state the server and the page can reach,
    restarts of either included. *)
Theorem poller_never_repeats (token : string) (history stretch : list Step) :
  steady stretch = true →
  let sys := simulate token start history in
  let sys' := simulate token sys stretch in
  (∃ handed,
     delivered sys' = delivered sys ++ handed
     ∧ (∀ i j a b, handed !! i = Some a → handed !! j = Some b →
          (i < j)%nat → seq a < seq b)
     ∧ NoDup (seq <$> handed)
     ∧ Forall (λ ev, cursor sys < seq ev ≤ cursor sys') handed)
  ∧ cursor sys ≤ cursor sys'
  ∧ cursor (step token sys Start) = 0
  ∧ delivered (simulate token sys [Start; Poll]) = delivered sys ++ events (log sys).
Proof.
  intros Hsteady sys sys'.
  pose proof (simulate_ordered token history) as Hlog. fold sys in Hlog.
  assert (inOrder (delivered sys) (cursor sys) [] sys) as Hsys.
  { split; [done|]. split; [done|]. split; [by rewrite app_nil_r|]. split; constructor. }
  destruct (simulate_inOrder token _ _ stretch Hsteady [] sys Hsys)
    as (handed & _ & Hfrom & Hdelivered & Hsorted & Hbound).
  fold sys' in Hfrom, Hdelivered, Hbound.
  split_and!; [|done|done|].
  - exists handed. split; [done|]. split; [|split; [|done]].
    + intros i j a b. by apply sorted_lookup.
    + by apply sorted_NoDup.
  - cbn [simulate foldl step delivered log cursor]. f_equal.
    rewrite (poll_handed 0 (log sys) Hlog). destruct Hlog as (_ & _ & Hbound0 & _).
    apply filter_every. eapply Forall_impl; [exact Hbound0|]. simpl. lia.
Qed.

Lemma step_caughtUp_hook token base from sys request pending :
  (S pending ≤ MAX_EVENTS)%nat →
  caughtUp base from pending sys →
  caughtUp base from (S pending) (step token sys (Hook request)).
Proof.
  intros Hroom (old & recent & handed & Hevents & Hseqs & Hall & Hold & Hdelivered
                & Hdone & Hcursor & Hgap).
  unfold caughtUp. cbn [step log cursor delivered].
  destruct (handleWebhook_cases token (log sys) request)
    as [(_ & ->) | [(_ & _ & ->) | [(_ & _ & _ & _ & ->)
        | (_ & Htext & Hsender & _ & ev & -> & _ & Htype & Hs & Ht & _)]]];
    cbn [fst];
    try (exists old, recent, handed; split_and!; try done; lia).
  rewrite pushEvent_events, pushEvent_counter.
  set (new := (pushEvent (log sys) ev).2).
  assert (length recent = Z.to_nat (eventSeq (log sys) - cursor sys)) as Hlen.
  { rewrite <- (length_fmap seq), Hseqs. apply length_seqZ. }
  set (k := (length (events (log sys) ++ [new]) - MAX_EVENTS)%nat).
  assert (k ≤ length old)%nat as Hk.
  { unfold k. rewrite Hevents, !length_app. simpl. lia. }
  exists (drop k old), (recent ++ [new]), handed. split_and!.
  - rewrite Hevents, <- (assoc_L (++)). by rewrite drop_app_le.
  - rewrite fmap_app, Hseqs. change (seq <$> [new]) with [eventSeq (log sys) + 1].
    replace (eventSeq (log sys) + 1 - cursor sys)
      with ((eventSeq (log sys) - cursor sys) + 1) by lia.
    rewrite seqZ_app, seqZ_one by lia. do 2 f_equal. lia.
  - apply Forall_app. split; [done|]. repeat constructor.
    unfold deliverable. cbn [data new pushEvent snd]. rewrite Htype, Hs, Ht.
    by rewrite !bool_decide_eq_true_2.
  - by apply Forall_drop.
  - done.
  - done.
  - lia.
  - lia.
  - lia.
Qed.

Lemma step_caughtUp_poll token base from sys pending :
  caughtUp base from pending sys →
  caughtUp base from 0 (step token sys Poll)
  ∧ cursor (step token sys Poll) = eventSeq (log sys).
Proof.
  intros (old & recent & handed & Hevents & Hseqs & Hall & Hold & Hdelivered
          & Hdone & Hcursor & Hgap).
  pose proof (recent_above _ _ _ Hseqs) as Habove.
  assert (cursor (step token sys Poll) = eventSeq (log sys)) as Hnew.
  { cbn [step cursor]. apply poll_cursor; [lia|]. rewrite Hevents. apply Forall_app. split.
    - eapply Forall_impl; [exact Hold|]. simpl. lia.
    - eapply Forall_impl; [exact Habove|]. simpl. lia. }
  assert (delivered (step token sys Poll) = delivered sys ++ recent) as Hmore.
  { cbn [step delivered]. f_equal. unfold pollResponse, readAfter. cbn [snd].
    rewrite Hevents, filter_app.
    rewrite (filter_nothing _ old), (filter_every _ recent); cbn [app].
    - by apply filter_every, (Forall_impl _ _ _ Hall); intros ev ->.
    - eapply Forall_impl; [exact Habove|]. simpl. lia.
    - eapply Forall_impl; [exact Hold|]. simpl. lia. }
  split; [|done]. unfold caughtUp. rewrite Hnew, Hmore. cbn [step log].
  exists (old ++ recent), [], (handed ++ recent). split_and!.
  - by rewrite app_nil_r.
  - rewrite Z.sub_diag. done.
  - done.
  - apply Forall_app. split.
    + eapply Forall_impl; [exact Hold|]. simpl. lia.
    + eapply Forall_impl; [exact Habove|]. simpl. lia.
  - by rewrite Hdelivered, (assoc_L (++)).
  - rewrite fmap_app, Hdone, Hseqs.
    replace (eventSeq (log sys) - from)
      with ((cursor sys - from) + (eventSeq (log sys) - cursor sys)) by lia.
    rewrite seqZ_app by lia. do 2 f_equal. lia.
  - lia.
  - lia.
  - lia.
Qed.

Lemma simulate_caughtUp token base from steps :
  ∀ sys pending,
    caughtUp base from pending sys →
    pollsKeepUp MAX_EVENTS pending steps = true →
    ∃ pending', caughtUp base from pending' (simulate token sys steps).
Proof.
  induction steps as [|a rest IH]; intros sys pending Hsys Hkeep.
  - by exists pending.
  - destruct a as [request| | | |]; cbn [pollsKeepUp] in Hkeep; cbn [simulate foldl];
      [| | |done|done].
    + apply andb_true_iff in Hkeep as [Hroom Hkeep]. apply bool_decide_eq_true in Hroom.
      eapply (IH _ (S pending)); [|done]. by apply step_caughtUp_hook.
    + eapply (IH _ 0%nat); [|done]. by eapply step_caughtUp_poll.
    + by eapply (IH _ pending).
Qed.

(** A poll the server answers, made by a page that is not ahead of the
    server, brings the page level with the server. *)
Lemma poll_syncs token sys :
  logOrdered (log sys) → cursor sys ≤ eventSeq (log sys) →
  caughtUp (delivered (step token sys Poll)) (eventSeq (log sys)) 0 (step token sys Poll)
  ∧ cursor (step token sys Poll) = eventSeq (log sys).
Proof.
  intros (Hcounter & _ & Hbound & _) Hbehind.
  assert (cursor (step token sys Poll) = eventSeq (log sys)) as Hnew.
  { cbn [step cursor]. apply poll_cursor; [done|].
    eapply Forall_impl; [exact Hbound|]. simpl. lia. }
  split; [|done]. unfold caughtUp. rewrite Hnew. cbn [step log].
  exists (events (log sys)), [], []. split_and!.
  - by rewrite app_nil_r.
  - by rewrite Z.sub_diag.
  - done.
  - eapply Forall_impl; [exact Hbound|]. simpl. lia.
  - by rewrite app_nil_r.
  - by rewrite Z.sub_diag.
  - lia.
  - lia.
  - lia.
Qed.

(** X9.  Take any state the server and the page can reach in which the
    page is not ahead of the server, as it is after a start of the effect.
    A poll the server answers then hands over every event the server holds
    above the cursor and brings the cursor to the counter of the server.
    From there on, as long as neither of them restarts and no more than
    500 requests reach the webhook between two polls the server answers,
    nothing is lost: after a poll, what has been handed over since is
    exactly the events accepted since, each once and in order, and the
    cursor is the counter of the server. *)
Theorem poller_loses_nothing (token : string) (history between : list Step) :
  let sys := simulate token start history in
  cursor sys ≤ eventSeq (log sys) →
  pollsKeepUp MAX_EVENTS 0 between = true →
  let synced := step token sys Poll in
  let final := simulate token synced (between ++ [Poll]) in
  delivered synced
    = delivered sys ++ filter (λ event, cursor sys < seq event) (events (log sys))
  ∧ cursor synced = eventSeq (log synced)
  ∧ (∃ handed,
       delivered final = delivered synced ++ handed
       ∧ seq <$> handed
         = seqZ (eventSeq (log synced) + 1) (eventSeq (log final) - eventSeq (log synced)))
  ∧ cursor final = eventSeq (log final).
Proof.
  intros sys Hbehind Hkeep synced final.
  pose proof (simulate_ordered token history) as Hlog. fold sys in Hlog.
  destruct (poll_syncs token sys Hlog Hbehind) as [Hsynced Hcursor]. fold synced in Hsynced, Hcursor.
  destruct (simulate_caughtUp token _ _ between synced 0 Hsynced Hkeep) as [pending Hup].
  destruct (step_caughtUp_poll token _ _ _ _ Hup)
    as [(old & recent & handed & _ & _ & _ & _ & Hdelivered & Hdone & _) Hfinal].
  assert (final = step token (simulate token synced between) Poll) as Hlast.
  { unfold final, simulate. by rewrite foldl_app. }
  rewrite <- Hlast in Hdelivered, Hdone, Hfinal.
  assert (log (step token (simulate token synced between) Poll)
          = log (simulate token synced between)) as Hsame by done.
  rewrite <- Hlast in Hsame.
  split_and!.
  - unfold synced. cbn [step delivered]. f_equal. by apply poll_handed.
  - done.
  - exists handed. split; [done|]. rewrite Hdone, Hfinal, Hsame. done.
  - by rewrite Hfinal, Hsame.
Qed.

End Systems.

(** X8 on a page that is remounted after two messages were handed over:
    the two are handed over again. *)
Example remount_replays :
  let peer := Samples.post "5511999998888@s.whatsapp.net" "oi" false in
  seq <$> delivered (simulate "s3cret" start [Hook peer; Hook peer; Poll; Start; Poll])
  = [1; 2; 1; 2].
Proof. vm_compute. reflexivity. Qed.

(** A restart of the server leaves the page ahead of it, and what the
    server then accepts below the cursor is never handed over. *)
Example reboot_loses :
  let peer := Samples.post "5511999998888@s.whatsapp.net" "oi" false in
  seq <$> delivered (simulate "s3cret" start [Hook peer; Hook peer; Poll; Reboot; Hook peer; Poll])
  = [1; 2].
Proof. vm_compute. reflexivity. Qed.

Lemma poller_never_repeats_witness :
  let peer := Samples.post "5511999998888@s.whatsapp.net" "oi" false in
  let sys := simulate (H := Samples.plainNumbers) "s3cret" start [Hook peer; Poll; Start] in
  let stretch := [Hook peer; Poll; Reboot; Hook peer; PollFails; Poll] in
  steady (H := Samples.plainNumbers) stretch = true
  ∧ cursor sys ≤ cursor (simulate (H := Samples.plainNumbers) "s3cret" sys stretch)
  ∧ delivered (simulate (H := Samples.plainNumbers) "s3cret" sys [Start; Poll])
    = delivered sys ++ events (log sys).
Proof.
  intros peer sys stretch.
  assert (steady (H := Samples.plainNumbers) stretch = true) as Hsteady by reflexivity.
  split; [exact Hsteady|].
  destruct (poller_never_repeats (H := Samples.plainNumbers) "s3cret"
              [Hook peer; Poll; Start] stretch Hsteady) as (_ & Hcursor & _ & Hreplay).
  split; [exact Hcursor | exact Hreplay].
Defined.

(** X9 on a page that starts when the server already holds a message:
    the message is handed over by the first poll, and the three accepted
    afterwards by the next one that is answered. *)
Lemma poller_loses_nothing_witness :
  let peer := Samples.post "5511999998888@s.whatsapp.net" "oi" false in
  let sys := simulate (H := Samples.plainNumbers) "s3cret" start [Hook peer; Start] in
  let between := [Hook peer; Hook peer; PollFails; Hook peer] in
  cursor sys ≤ eventSeq (log sys)
  ∧ pollsKeepUp (H := Samples.plainNumbers) MAX_EVENTS 0 between = true
  ∧ seq <$> delivered (simulate (H := Samples.plainNumbers) "s3cret"
                         (step (H := Samples.plainNumbers) "s3cret" sys Poll)
                         (between ++ [Poll]))
    = [1; 2; 3; 4].
Proof.
  intros peer sys between.
  assert (cursor sys ≤ eventSeq (log sys)) as Hbehind by (vm_compute; discriminate).
  assert (pollsKeepUp (H := Samples.plainNumbers) MAX_EVENTS 0 between = true) as Hkeep
    by (vm_compute; reflexivity).
  split; [exact Hbehind|]. split; [exact Hkeep|].
  destruct (poller_loses_nothing (H := Samples.plainNumbers) "s3cret" [Hook peer; Start]
              between Hbehind Hkeep) as (_ & _ & (handed & Hdelivered & Hseqs) & _).
  unfold sys. rewrite Hdelivered, fmap_app, Hseqs. vm_compute. reflexivity.
Defined.

End PipelineFacts.

(** ** The provider client: every exit of the loop *)

Module ClientFacts.
Import Js Gateway JsFacts Trimming TrimFacts PayloadFacts.

Section Client.
Context `{Network}.

Lemma tryCandidates_prefix request lastError paths w :
  ∃ k, (tryCandidates request lastError paths w).1.2 = request <$> take k paths.
Proof.
  revert lastError w. induction paths as [|candidate rest IH]; intros lastError w.
  - by exists 0%nat.
  - cbn [tryCandidates]. destruct (fetch w (request candidate)) as [[status text|message] w1].
    + destruct (isOk status); [by exists 1%nat|].
      case_bool_decide; [by exists 1%nat|].
      destruct (IH (Some (failure candidate status text)) w1) as [k Hk].
      exists (S k). cbn [fst snd take fmap list_fmap]. by rewrite Hk.
    + destruct (IH (Some (transportFailure candidate message)) w1) as [k Hk].
      exists (S k). cbn [fst snd take fmap list_fmap]. by rewrite Hk.
Qed.

Lemma tryCandidates_faithful request lastError paths w :
  ok (default noAttempt lastError) = isOk (status (default noAttempt lastError)) →
  let result := (tryCandidates request lastError paths w).1.1 in
  ok result = isOk (status result).
Proof.
  revert lastError w. induction paths as [|candidate rest IH]; intros lastError w Hlast.
  - done.
  - cbn [tryCandidates]. destruct (fetch w (request candidate)) as [[status text|message] w1].
    + destruct (isOk status) eqn:Hok; [by cbn; rewrite Hok|].
      case_bool_decide; [by cbn; rewrite Hok|].
      cbn [fst]. apply IH. by cbn; rewrite Hok.
    + cbn [fst]. by apply IH.
Qed.

Lemma tryCandidates_none request lastError w :
  tryCandidates request lastError [] w = (default noAttempt lastError, [], w).
Proof. done. Qed.

Lemma tryCandidates_cons request lastError candidate rest w :
  tryCandidates request lastError (candidate :: rest) w =
  match fetch w (request candidate) with
  | (Responded status text, w1) =>
      if isOk status then (success candidate status text, [request candidate], w1)
      else
        let error := failure candidate status text in
        if bool_decide (status ≠ 404) then (error, [request candidate], w1)
        else
          let later := tryCandidates request (Some error) rest w1 in
          (later.1.1, request candidate :: later.1.2, later.2)
  | (Failed message, w1) =>
      let later :=
        tryCandidates request (Some (transportFailure candidate message)) rest w1 in
      (later.1.1, request candidate :: later.1.2, later.2)
  end.
Proof. done. Qed.

(** Once a candidate was tried, the result names the candidate tried last. *)
Lemma tryCandidates_last request lastError candidate rest w :
  let out := tryCandidates request lastError (candidate :: rest) w in
  ∃ c, c ∈ candidate :: rest ∧ path out.1.1 = Some c ∧ last out.1.2 = Some (request c).
Proof.
  revert lastError candidate w.
  induction rest as [|next rest IH]; intros lastError candidate w; cbn zeta.
  - cbn [tryCandidates]. exists candidate. split; [by left|].
    destruct (fetch w (request candidate)) as [[status text|message] w1].
    + destruct (isOk status); [done|]. by case_bool_decide.
    + done.
  - rewrite tryCandidates_cons.
    destruct (fetch w (request candidate)) as [[status text|message] w1].
    + destruct (isOk status); [exists candidate; split; [by left|done]|].
      case_bool_decide; [exists candidate; split; [by left|done]|].
      destruct (IH (Some (failure candidate status text)) next w1) as (c & Hin & Hpath & Hlast).
      exists c. split; [by right|]. split; [done|]. cbn [fst snd] in *.
      destruct ((tryCandidates request _ (next :: rest) w1).1.2) as [|a l] eqn:Hl; [done|].
      done.
    + destruct (IH (Some (transportFailure candidate message)) next w1)
        as (c & Hin & Hpath & Hlast).
      exists c. split; [by right|]. split; [done|]. cbn [fst snd] in *.
      destruct ((tryCandidates request _ (next :: rest) w1).1.2) as [|a l] eqn:Hl; [done|].
      done.
Qed.

(** A failure that leaves candidates untried is an answer of the provider
    other than 404; a transport failure never ends the loop early. *)
Lemma tryCandidates_early request lastError paths w :
  let out := tryCandidates request lastError paths w in
  ok out.1.1 = false → (length out.1.2 < length paths)%nat →
  status out.1.1 ≠ 404 ∧ error out.1.1 = None.
Proof.
  revert lastError w. induction paths as [|candidate rest IH]; intros lastError w; cbn zeta.
  - cbn. lia.
  - cbn [tryCandidates]. destruct (fetch w (request candidate)) as [[status text|message] w1].
    + destruct (isOk status) eqn:Hok; [done|].
      case_bool_decide as Hstatus.
      * intros _ _. by cbn.
      * cbn [fst snd length]. intros Hfail Hlen. apply IH; [done|lia].
    + cbn [fst snd length]. intros Hfail Hlen. apply IH; [done|lia].
Qed.

Lemma lone_slash t : endsWith "/" t = true → dropLast t = "" → t = "/".
Proof.
  unfold endsWith, dropLast. intros Hends Hdrop.
  apply andb_true_iff in Hends as [Hlen Htail].
  apply bool_decide_eq_true in Hlen, Htail.
  apply (f_equal chars) in Hdrop. rewrite chars_str in Hdrop.
  change (strlen "/") with 1%nat in *. change (chars "") with (@nil ascii) in Hdrop.
  unfold strlen in *. destruct (chars t) as [|c [|d l]] eqn:Ht; simpl in *; try done; try lia.
  apply chars_inj. by rewrite Ht.
Qed.

Lemma normalizeBaseUrl_blank baseUrl :
  normalizeBaseUrl baseUrl = ""
  ↔ trim (default "" baseUrl) = "" ∨ trim (default "" baseUrl) = "/".
Proof.
  unfold normalizeBaseUrl. case_bool_decide as Hblank.
  - split; [by left|done].
  - destruct (endsWith "/" (trim (default "" baseUrl))) eqn:Hends.
    + split.
      * intros Hdrop. right. by apply lone_slash.
      * intros [?| ->]; done.
    + split; [done|]. intros [?|Hslash]; [done|]. by rewrite Hslash in Hends.
Qed.

(** X10.  Whatever the provider answers, the requests issued are those of
    the first candidates of [paths], in order; the result is a success
    exactly when its status is a 2xx one; where no request was issued the
    result is the 400 or the 500 failure and the outside world is
    untouched; otherwise the result names the candidate that was tried last;
    and a failure that leaves candidates untried is an answer of the
    provider other than 404, never a transport failure. *)
Theorem client_result_shape (baseUrl apiKey : option string) (method : string)
    (paths : list string) (body : option Body) (w : World) :
  let out := evolutionTryRequest baseUrl apiKey method paths body w in
  let request := requestFor (normalizeBaseUrl baseUrl) apiKey method body in
  (∃ k, out.1.2 = request <$> take k paths)
  ∧ ok out.1.1 = isOk (status out.1.1)
  ∧ (out.1.2 = [] →
      ok out.1.1 = false ∧ path out.1.1 = None ∧ out.2 = w
      ∧ (status out.1.1 = 400 ∨ status out.1.1 = 500))
  ∧ (out.1.2 ≠ [] →
      ∃ candidate, candidate ∈ paths ∧ path out.1.1 = Some candidate
                   ∧ last out.1.2 = Some (request candidate))
  ∧ (out.1.2 ≠ [] → ok out.1.1 = false → (length out.1.2 < length paths)%nat →
      status out.1.1 ≠ 404 ∧ error out.1.1 = None).
Proof.
  cbn zeta. unfold evolutionTryRequest. case_bool_decide as Hbase.
  - cbn [fst snd]. split_and!; try done.
    + by exists 0%nat.
    + intros _. split_and!; try done. by left.
  - set (request := requestFor (normalizeBaseUrl baseUrl) apiKey method body).
    split_and!.
    + apply tryCandidates_prefix.
    + by apply tryCandidates_faithful.
    + destruct paths as [|candidate rest].
      * intros _. cbn. split_and!; try done. by right.
      * destruct (tryCandidates_last request None candidate rest w) as (c & _ & _ & Hlast).
        intros Hnone. by rewrite Hnone in Hlast.
    + destruct paths as [|candidate rest]; [done|]. intros _.
      apply tryCandidates_last.
    + intros _. apply tryCandidates_early.
Qed.

(** X11.  A base URL that is missing, blank or a lone slash is answered
    with the 400 failure without any request, and that failure is the
    result in no other case; any other base URL with at least one
    candidate path has a request issued. *)
Theorem missing_base_url (baseUrl apiKey : option string) (method : string)
    (paths : list string) (body : option Body) (w : World) :
  let out := evolutionTryRequest baseUrl apiKey method paths body w in
  let blank := trim (default "" baseUrl) = "" ∨ trim (default "" baseUrl) = "/" in
  (blank → out = (missingBaseUrl, [], w))
  ∧ (¬ blank → paths ≠ [] → out.1.2 ≠ [])
  ∧ (out.1.1 = missingBaseUrl ↔ blank).
Proof.
  cbn zeta. rewrite <- normalizeBaseUrl_blank.
  unfold evolutionTryRequest. case_bool_decide as Hbase.
  - done.
  - set (request := requestFor (normalizeBaseUrl baseUrl) apiKey method body).
    split; [done|]. destruct paths as [|candidate rest].
    + split; [done|]. split; [|done]. cbn. intros Hr. by apply (f_equal status) in Hr.
    + destruct (tryCandidates_last request None candidate rest w)
        as (c & _ & Hpath & Hlast). split.
      * intros _ _ Hnone. by rewrite Hnone in Hlast.
      * split; [|done]. intros Hr. by rewrite Hr in Hpath.
Qed.

Lemma startsWith_slash candidate :
  startsWith "/" candidate = true → ∃ rest, candidate = "/" +:+ rest.
Proof.
  unfold startsWith. intros Hp%bool_decide_eq_true.
  change (take 1 (chars candidate) = ["/"%char]) in Hp.
  destruct candidate as [|c rest]; [done|]. exists rest.
  cbn in Hp. by simplify_eq.
Qed.

Lemma append_assoc a b c : a +:+ (b +:+ c) = (a +:+ b) +:+ c.
Proof. apply chars_inj. by rewrite !chars_app, (assoc_L app). Qed.

Lemma candidateUrl_base normalized candidate :
  startsWith (normalized +:+ "/") (candidateUrl normalized candidate) = true.
Proof.
  unfold candidateUrl. destruct (startsWith "/" candidate) eqn:Hslash.
  - apply startsWith_slash in Hslash as [rest ->].
    rewrite append_assoc. apply startsWith_app.
  - rewrite append_assoc. apply startsWith_app.
Qed.

(** X12.  Every request the client issues goes to the configured base
    URL followed by a slash, with the method and the body of the call and
    the same headers: the JSON content type first, and then either no
    credential at all, when the key is missing or blank, or the trimmed key
    both as [apikey] and as a bearer token. *)
Theorem requests_uniform (baseUrl apiKey : option string) (method : string)
    (paths : list string) (body : option Body) (w : World) :
  let out := evolutionTryRequest baseUrl apiKey method paths body w in
  let token := trim (default "" apiKey) in
  Forall (λ r, Gateway.method r = method
               ∧ Gateway.body r = JSON_stringify <$> body
               ∧ startsWith (normalizeBaseUrl baseUrl +:+ "/") (url r) = true
               ∧ headers r
                 = ("content-type", "application/json")
                   :: (if bool_decide (token = "") then []
                       else [("apikey", token); ("authorization", "Bearer " +:+ token)]))
         out.1.2
  ∧ trim token = token.
Proof.
  cbv zeta. split; [|apply trim_idem].
  unfold evolutionTryRequest.
  destruct (bool_decide (normalizeBaseUrl baseUrl = "")); [by constructor|].
  destruct (tryCandidates_prefix (requestFor (normalizeBaseUrl baseUrl) apiKey method body)
              None paths w) as [k ->].
  apply Forall_fmap, Forall_forall. intros candidate _.
  unfold requestFor, buildAuthHeaders.
  cbn [compose Gateway.method Gateway.body Gateway.headers Gateway.url].
  split_and!; try done. apply candidateUrl_base.
Qed.

End Client.
End ClientFacts.

(** ** The agent helpers, beyond the claims *)

Module AgentReach.
Import Js Agent Policy Checklist JsFacts AgentFacts.

(** *** Phone formatting *)

Lemma phoneTrimmed_formatted (i : nat) t :
  (2 ≤ i)%nat → (strlen t ≤ 11)%nat → Forall (λ c, isDigit c = true) (chars t) →
  phoneTrimmed ("(" +:+ slice 0 2 t +:+ ") " +:+ slice 2 i t +:+ "-" +:+ sliceFrom i t) = t.
Proof.
  intros Hi Hlen Ht. unfold phoneTrimmed, phoneDigits.
  rewrite (formatted_digits i t Hi Ht).
  rewrite (bool_decide_eq_false_2 (11 < strlen t)%nat) by lia.
  by rewrite andb_false_r.
Qed.

(** X13.  Formatting a phone twice changes nothing more: the formatted
    text has the digits the first pass kept, so it is formatted to itself.
    The result is the 15-character mobile form when 11 digits are kept,
    the 14-character landline form when 10 are kept, and the raw text
    otherwise. *)
Theorem phone_format_stable (raw : string) :
  agentNormalizePhone (agentNormalizePhone raw) = agentNormalizePhone raw
  ∧ phoneTrimmed (agentNormalizePhone raw) = phoneTrimmed raw
  ∧ (strlen (phoneTrimmed raw) = 11%nat → strlen (agentNormalizePhone raw) = 15%nat)
  ∧ (strlen (phoneTrimmed raw) = 10%nat → strlen (agentNormalizePhone raw) = 14%nat)
  ∧ (strlen (phoneTrimmed raw) ≠ 11%nat → strlen (phoneTrimmed raw) ≠ 10%nat →
      agentNormalizePhone raw = raw).
Proof.
  pose proof (phoneTrimmed_all_digits raw) as Hdigits.
  assert (∀ i : nat, (2 ≤ i)%nat → (i ≤ strlen (phoneTrimmed raw))%nat →
    strlen ("(" +:+ slice 0 2 (phoneTrimmed raw) +:+ ") " +:+ slice 2 i (phoneTrimmed raw)
            +:+ "-" +:+ sliceFrom i (phoneTrimmed raw))
    = (strlen (phoneTrimmed raw) + 4)%nat) as Hsize.
  { intros i Hi Hle. unfold strlen, slice, sliceFrom in *.
    rewrite !chars_app, !chars_str, !length_app, !length_take, !length_drop.
    change (length (chars "(")) with 1%nat. change (length (chars ") ")) with 2%nat.
    change (length (chars "-")) with 1%nat. lia. }
  unfold agentNormalizePhone at 2 3 4 5 6.
  case_bool_decide as H11; [|case_bool_decide as H10].
  - pose proof (phoneTrimmed_formatted 7 (phoneTrimmed raw)) as Hsame.
    split_and!; try (done || lia).
    + unfold agentNormalizePhone. rewrite Hsame by (done || lia).
      by rewrite bool_decide_eq_true_2.
    + apply Hsame; done || lia.
    + intros _. rewrite Hsize by lia. lia.
  - pose proof (phoneTrimmed_formatted 6 (phoneTrimmed raw)) as Hsame.
    split_and!; try (done || lia).
    + unfold agentNormalizePhone. rewrite Hsame by (done || lia).
      rewrite bool_decide_eq_false_2 by done. by rewrite bool_decide_eq_true_2.
    + apply Hsame; done || lia.
    + intros _. rewrite Hsize by lia. lia.
  - split_and!; try done; intros; unfold agentNormalizePhone;
      by rewrite !bool_decide_eq_false_2 by done.
Qed.

(** *** The fact merger and what is computed from the draft *)

Lemma pick_is_max (s : Stage) draft :
  agentPickNextStageId (Some (stageId s)) draft = stageId (stageMax s (desired draft)).
Proof.
  unfold agentPickNextStageId. rewrite desiredStage_desired, !rankOf_stage.
  unfold stageMax. cbn [default].
  destruct (desired_cases draft) as [-> | ->]; by destruct s.
Qed.

Lemma weight_mono (points : Z) (before after : bool) :
  0 ≤ points → (before = true → after = true) →
  (if before then points else 0) ≤ (if after then points else 0).
Proof.
  intros Hp Hmono. destruct before, after; first [lia | by specialize (Hmono eq_refl)].
Qed.

Lemma score_mono (before after : gmap string JsValue) :
  (∀ key, has before key = true → has after key = true) →
  agentComputeLeadScore before ≤ agentComputeLeadScore after.
Proof.
  intros Hmono. unfold agentComputeLeadScore. cbn [foldl].
  apply Z.min_le_compat_l.
  pose proof (weight_mono 10 _ _ ltac:(lia) (Hmono "name")).
  pose proof (weight_mono 15 _ _ ltac:(lia) (Hmono "email")).
  pose proof (weight_mono 15 _ _ ltac:(lia) (Hmono "phone")).
  pose proof (weight_mono 5 _ _ ltac:(lia) (Hmono "intent")).
  pose proof (weight_mono 10 _ _ ltac:(lia) (Hmono "propertyType")).
  pose proof (weight_mono 10 _ _ ltac:(lia) (Hmono "location")).
  pose proof (weight_mono 5 _ _ ltac:(lia) (Hmono "bedrooms")).
  pose proof (weight_mono 15 _ _ ltac:(lia) (Hmono "budget")).
  lia.
Qed.

Lemma desired_mono (before after : gmap string JsValue) :
  (∀ key, has before key = true → has after key = true) →
  position (desired before) ≤ position (desired after).
Proof.
  intros Hmono. unfold desired.
  pose proof (Hmono "intent"). pose proof (Hmono "budget").
  pose proof (Hmono "location"). pose proof (Hmono "propertyType").
  destruct (has before "intent"), (has before "budget"), (has before "location"),
    (has before "propertyType"); cbn [andb orb position];
    try (destruct (has after "intent"), (has after "budget"), (has after "location"),
           (has after "propertyType"); cbn [andb orb position]; lia);
    repeat match goal with Hk : true = true → _ |- _ => specialize (Hk eq_refl); rewrite Hk end;
    cbn [andb orb position]; try lia;
    destruct (has after "location"), (has after "propertyType"); cbn; lia.
Qed.

(** X14.  The merger never removes a key and adds only keys of the
    signals; merging the same signals again changes nothing; signals whose
    values are all skipped leave the draft as it was. *)
Theorem merge_keeps_keys (prev signals : gmap string JsValue) :
  (∀ key, is_Some (prev !! key) → is_Some (agentMergeDraft prev signals !! key))
  ∧ (∀ key, is_Some (agentMergeDraft prev signals !! key) →
            is_Some (prev !! key) ∨ is_Some (signals !! key))
  ∧ agentMergeDraft (agentMergeDraft prev signals) signals = agentMergeDraft prev signals
  ∧ ((∀ key value, signals !! key = Some value → skipped value = true) →
      agentMergeDraft prev signals = prev).
Proof.
  split_and!.
  - intros key Hkey. rewrite agentMergeDraft_lookup.
    destruct (signals !! key) as [value|]; [|done]. by destruct (skipped value).
  - intros key. rewrite agentMergeDraft_lookup.
    destruct (signals !! key) as [value|]; [|by left]. by right.
  - apply map_eq. intros key. rewrite !agentMergeDraft_lookup.
    destruct (signals !! key) as [value|]; [|done]. by destruct (skipped value).
  - intros Hall. apply map_eq. intros key. rewrite agentMergeDraft_lookup.
    destruct (signals !! key) as [value|] eqn:Hkey; [|done]. by rewrite (Hall _ _ Hkey).
Qed.

(** X15.  Where every signal value that is not skipped is truthy, merging
    never loses a fact: the facts the draft has it keeps, the lead score
    does not fall, and the next stage computed from any current stage does
    not move back. *)
Theorem merge_never_lowers (prev signals : gmap string JsValue) :
  (∀ key value, signals !! key = Some value → skipped value = false → truthy value = true) →
  let merged := agentMergeDraft prev signals in
  (∀ key, has prev key = true → has merged key = true)
  ∧ agentComputeLeadScore prev ≤ agentComputeLeadScore merged
  ∧ (∀ s : Stage,
       rankOf (Some (agentPickNextStageId (Some (stageId s)) prev))
       ≤ rankOf (Some (agentPickNextStageId (Some (stageId s)) merged))).
Proof.
  intros Hsignals merged.
  assert (∀ key, has prev key = true → has merged key = true) as Hmono.
  { intros key. unfold has, field, merged. rewrite agentMergeDraft_lookup.
    destruct (signals !! key) as [value|] eqn:Hkey; [|done].
    destruct (skipped value) eqn:Hskip; [done|]. intros _. cbn [default]. eauto. }
  split_and!; [done|by apply score_mono|].
  intros s. rewrite !pick_is_max, !rankOf_stage.
  pose proof (desired_mono _ _ Hmono) as Hd. unfold stageMax.
  repeat case_match; lia.
Qed.

Lemma merge_never_lowers_witness :
  let prev : gmap string JsValue := {[ "name" := VStr "Ana" ]} in
  let signals : gmap string JsValue := {[ "name" := VStr " "; "budget" := VNum (Fin 500000) ]} in
  (∀ key value, signals !! key = Some value → skipped value = false → truthy value = true)
  ∧ agentComputeLeadScore prev ≤ agentComputeLeadScore (agentMergeDraft prev signals).
Proof.
  intros prev signals.
  assert (∀ key value, signals !! key = Some value → skipped value = false →
                       truthy value = true) as Hsignals.
  { intros key value Hkey Hskip. unfold signals in Hkey.
    apply lookup_insert_Some in Hkey as [[_ <-]|[_ Hkey]]; [done|].
    apply lookup_singleton_Some in Hkey as [_ <-]. done. }
  split; [exact Hsignals|].
  exact (proj1 (proj2 (merge_never_lowers prev signals Hsignals))).
Defined.

(** *** The checklist *)

Lemma questions_none (draft : gmap string JsValue) :
  agentBuildQuestions draft = [] ↔
    has draft "name" = true
    ∧ (has draft "phone" = true ∨ has draft "email" = true)
    ∧ has draft "intent" = true ∧ has draft "propertyType" = true
    ∧ has draft "location" = true ∧ has draft "budget" = true.
Proof.
  unfold agentBuildQuestions.
  destruct (has draft "name"), (has draft "phone"), (has draft "email"),
    (has draft "intent"), (has draft "propertyType"), (has draft "location"),
    (has draft "budget"); cbn [negb andb app];
    (split; [try done; intros _; repeat split; auto
            | try done; by intros (? & [?|?] & ? & ? & ? & ?)]).
Qed.

Lemma questions_order (draft : gmap string JsValue) :
  agentBuildQuestions draft `sublist_of`
    [askName; askContact; askIntent; askProperty; askLocation; askBudget].
Proof.
  unfold agentBuildQuestions.
  change [askName; askContact; askIntent; askProperty; askLocation; askBudget]
    with ([askName] ++ [askContact] ++ [askIntent] ++ [askProperty] ++ [askLocation]
          ++ [askBudget]).
  repeat (apply sublist_app; [case_match; [done | apply sublist_nil_l]|]).
  case_match; [done | apply sublist_nil_l].
Qed.

(** X16.  The checklist asks at most six questions, one per missing fact
    and in a fixed order; it is empty exactly when the draft has a name, a
    phone or an e-mail, an intent, a property type, a location and a
    budget, and then the desired stage is qualified and the score is at
    least 90.  A reply surfaces the first two questions at most. *)
Theorem checklist_complete (draft : gmap string JsValue) :
  (length (agentBuildQuestions draft) ≤ 6)%nat
  ∧ agentBuildQuestions draft `sublist_of`
      [askName; askContact; askIntent; askProperty; askLocation; askBudget]
  ∧ (agentBuildQuestions draft = [] ↔
       has draft "name" = true
       ∧ (has draft "phone" = true ∨ has draft "email" = true)
       ∧ has draft "intent" = true ∧ has draft "propertyType" = true
       ∧ has draft "location" = true ∧ has draft "budget" = true)
  ∧ (agentBuildQuestions draft = [] →
       desiredStage draft = "qualified" ∧ 90 ≤ agentComputeLeadScore draft)
  ∧ (length (surfaced draft) ≤ 2)%nat
  ∧ surfaced draft `prefix_of` agentBuildQuestions draft
  ∧ (surfaced draft = [] ↔ agentBuildQuestions draft = []).
Proof.
  pose proof (questions_order draft) as Horder.
  split; [by apply sublist_length in Horder|].
  split; [done|]. split; [apply questions_none|].
  split.
  { intros (Hname & Hcontact & Hintent & Htype & Hplace & Hbudget)%questions_none.
    unfold desiredStage, agentComputeLeadScore. cbn [foldl].
    rewrite Hname, Hintent, Htype, Hplace, Hbudget. split; [done|].
    destruct Hcontact as [-> | ->];
      repeat match goal with |- context [has draft ?k] => destruct (has draft k) end;
      vm_compute; discriminate. }
  unfold surfaced. split; [rewrite length_take; lia|].
  split; [apply prefix_take|].
  destruct (agentBuildQuestions draft) as [|q [|q' l]]; done.
Qed.

End AgentReach.

(** ** The orchestrator, beyond the claims *)

Module WorkflowReach.
Import Js Agent Workflow Memory JsFacts AgentFacts WorkflowFacts.

Section Turns.
Context `{Host}.

(** The whole of what a call that does not return at once leaves. *)
Lemma turn_whole app args t :
  runAgentWorkflow app args = Some t →
  (trim (text args) = "" ∧ t = idle app)
  ∨ (trim (text args) ≠ "" ∧ ∃ frame,
       frameOf app args (trim (text args)) = Some frame
       ∧ let lead := leadStep app frame in
         let follow := followUpStep app frame lead in
         let deal := dealStep app frame lead (ts_ids follow) in
         let automation := automationStep app frame lead (ts_tasks follow) (ds_ids deal) in
         sessions (after t)
           = <[channelId args := nextSession args frame lead deal automation]> (sessions app)
         ∧ storedLeads (after t) = ls_leads lead
         ∧ storedDeals (after t) = ds_deals deal
         ∧ storedAutomations (after t) = storedAutomations app
         ∧ settings (after t) = settings app
         ∧ createdLead t = ls_created lead
         ∧ createdDeal t = ds_created deal
         ∧ createdTasks t = ts_created follow
         ∧ payload t = Some (leadPayload frame)).
Proof.
  unfold runAgentWorkflow. case_bool_decide as Hblank.
  - intros [= <-]. by left.
  - intros Hrun. right. split; [done|].
    destruct (frameOf app args (trim (text args))) as [frame|]; [|done].
    exists frame. split; [done|]. apply (inj Some) in Hrun. by subst t.
Qed.

Lemma updateLead_id id payload lead : lead_id (updateLead id payload lead) = lead_id lead.
Proof. unfold updateLead. by case_bool_decide. Qed.

Lemma leadStep_ids app frame :
  lead_id <$> ls_leads (leadStep app frame)
  = (if ls_created (leadStep app frame) then [(createId "k" (ids app)).1] else [])
    ++ (lead_id <$> storedLeads app).
Proof.
  unfold leadStep. repeat case_match; cbn [ls_leads ls_created List.app fmap list_fmap]; try done.
  rewrite <- list_fmap_compose. apply list_fmap_ext. intros _ lead _. apply updateLead_id.
Qed.

Lemma followUpStep_created app frame lead :
  ts_created (followUpStep app frame lead) = true → ls_created lead = true.
Proof.
  unfold followUpStep. destruct (ls_created lead); [done|]. by cbn.
Qed.

Lemma positive_orZero n : positive n = true → positive (orZero n) = true.
Proof. by destruct n. Qed.

Lemma dealStep_opened app frame lead supply :
  ds_created (dealStep app frame lead supply) = true →
  idSet (ls_leadId lead) = true
  ∧ idSet (dealId (channelSession frame)) = false
  ∧ has (nextDraft frame) "intent" = true
  ∧ ∃ deal,
      ds_deals (dealStep app frame lead supply) = deal :: storedDeals app
      ∧ ds_dealId (dealStep app frame lead supply) = Some (deal_id deal)
      ∧ deal_id deal = (createId "d" supply).1
      ∧ deal_stageId deal = "discovery"
      ∧ deal_probability deal = 25
      ∧ positive (deal_amount deal) = true.
Proof.
  unfold dealStep.
  destruct (idSet (ls_leadId lead)); [|done].
  destruct (notFalse (autoCreateDeal (settings app))); [|done].
  destruct (idSet (dealId (channelSession frame))); [done|].
  destruct (has (nextDraft frame) "intent"); [|done].
  destruct (positive (toNumber (field (nextDraft frame) "budget"))) eqn:Hbudget; [|done].
  cbn [andb negb ds_created ds_deals ds_dealId]. intros _. split_and!; try done.
  eexists. split; [reflexivity|]. cbn [deal_id deal_stageId deal_probability deal_amount].
  split_and!; try done. by apply positive_orZero.
Qed.

Lemma dealStep_closed app frame lead supply :
  ds_created (dealStep app frame lead supply) = false →
  ds_deals (dealStep app frame lead supply) = storedDeals app
  ∧ ds_dealId (dealStep app frame lead supply) = dealId (channelSession frame).
Proof. unfold dealStep. by case_match. Qed.

Lemma dealStep_kept app frame lead supply :
  idSet (dealId (channelSession frame)) = true →
  ds_created (dealStep app frame lead supply) = false.
Proof.
  intros Hset. unfold dealStep. rewrite Hset.
  by rewrite !andb_false_r.
Qed.

(** What a call leaves in the session of a channel. *)
Lemma turn_session app args t channel :
  runAgentWorkflow app args = Some t →
  (sessionOf (after t) channel = sessionOf app channel
   ∧ (trim (text args) = "" ∨ channel ≠ channelId args))
  ∨ (trim (text args) ≠ "" ∧ channel = channelId args ∧ ∃ frame,
       frameOf app args (trim (text args)) = Some frame
       ∧ channelSession frame = sessionOf app channel
       ∧ let lead := leadStep app frame in
         let follow := followUpStep app frame lead in
         let deal := dealStep app frame lead (ts_ids follow) in
         leadId (sessionOf (after t) channel) = ls_leadId lead
         ∧ dealId (sessionOf (after t) channel) = ds_dealId deal
         ∧ draft (sessionOf (after t) channel) = Some (nextDraft frame)
         ∧ createdLead t = ls_created lead
         ∧ createdDeal t = ds_created deal).
Proof.
  intros [[Hblank ->] | (Hfilled & frame & Hframe & Hturn)]%turn_whole.
  - left. split; [done|by left].
  - cbv zeta in Hturn.
    destruct Hturn as (Hsessions & _ & _ & _ & _ & Hlead & Hdeal & _).
    destruct (frameOf_inv _ _ _ _ Hframe) as (Hsession & _).
    destruct (decide (channel = channelId args)) as [->|Hother].
    + right. split; [done|]. split; [done|]. exists frame. split; [done|]. split; [done|].
      cbv zeta. unfold sessionOf. rewrite Hsessions, lookup_insert_eq. by split_and!.
    + left. split; [|by right]. unfold sessionOf. by rewrite Hsessions, lookup_insert_ne.
Qed.

Lemma turn_lead_created app args t :
  runAgentWorkflow app args = Some t → createdLead t = true →
  idSet (leadId (sessionOf app (channelId args))) = false
  ∧ leadId (sessionOf (after t) (channelId args)) = Some (createId "k" (ids app)).1.
Proof.
  intros Hrun Hcreated.
  destruct (turn_session _ _ _ (channelId args) Hrun)
    as [[_ [Hblank|Hother]] | (_ & _ & frame & Hframe & Hsession & Hturn)]; [| done |].
  - apply turn_whole in Hrun as [[_ ->] | [? _]]; done.
  - cbv zeta in Hturn. destruct Hturn as (Hid & _ & _ & Hlead & _).
    rewrite Hlead in Hcreated.
    apply leadStep_created in Hcreated as (Hunset & _ & Hnew & _).
    destruct (frameOf_inv _ _ _ _ Hframe) as (_ & _ & Hresolved & _).
    rewrite Hresolved, Hsession in Hunset. apply idSet_resolved in Hunset.
    split; [done|]. by rewrite Hid.
Qed.

Lemma turn_deal_opened app args t :
  runAgentWorkflow app args = Some t → createdDeal t = true →
  idSet (leadId (sessionOf (after t) (channelId args))) = true
  ∧ idSet (dealId (sessionOf app (channelId args))) = false
  ∧ ∃ supply deal,
      storedDeals (after t) = deal :: storedDeals app
      ∧ dealId (sessionOf (after t) (channelId args)) = Some (deal_id deal)
      ∧ deal_id deal = (createId "d" supply).1
      ∧ deal_stageId deal = "discovery"
      ∧ deal_probability deal = 25
      ∧ positive (deal_amount deal) = true.
Proof.
  intros Hrun Hopened.
  destruct (turn_session _ _ _ (channelId args) Hrun)
    as [[_ [Hblank|Hother]] | (Hfilled & _ & frame & Hframe & Hsession & Hturn)]; [| done |].
  - apply turn_whole in Hrun as [[_ ->] | [? _]]; done.
  - cbv zeta in Hturn. destruct Hturn as (Hid & Hdeal & _ & _ & Hcreated).
    apply turn_whole in Hrun as [[? _] | (_ & frame' & Hframe' & Hturn)]; [done|].
    rewrite Hframe in Hframe'. apply (inj Some) in Hframe'. subst frame'.
    cbv zeta in Hturn. destruct Hturn as (_ & _ & Hdeals & _).
    rewrite Hcreated in Hopened.
    apply dealStep_opened in Hopened
      as (Hhas & Hnone & _ & deal & Hstore & Hpoint & Hnew & Hstage & Hprob & Hamount).
    rewrite Hid, Hdeal, Hdeals, <- Hsession. split_and!; try done.
    eexists _, deal. by split_and!.
Qed.


(** X17.  A call touches the session of its own channel only: the
    sessions of the other channels, the automations and the settings are
    left as they were.  A message whose text is blank changes nothing at
    all; any other message leaves a session for its channel, with the peer
    of the call when one is given and the peer it had otherwise. *)
Theorem turn_isolation (app : App) (args : Args) (t : Turn) :
  runAgentWorkflow app args = Some t →
  (∀ channel, channel ≠ channelId args →
     sessions (after t) !! channel = sessions app !! channel)
  ∧ storedAutomations (after t) = storedAutomations app
  ∧ settings (after t) = settings app
  ∧ (trim (text args) = "" → t = idle app)
  ∧ (trim (text args) ≠ "" →
       is_Some (sessions (after t) !! channelId args)
       ∧ is_Some (draft (sessionOf (after t) (channelId args)))
       ∧ peer (sessionOf (after t) (channelId args))
         = match arg_peer args with
           | Some p => Some p
           | None => peer (sessionOf app (channelId args))
           end
       ∧ payload t ≠ None).
Proof.
  intros [[Hblank ->] | (Hfilled & frame & Hframe & Hturn)]%turn_whole.
  - by split_and!.
  - cbv zeta in Hturn.
    destruct Hturn as (Hsessions & _ & _ & Hautomations & Hsettings & _ & _ & _ & Hpayload).
    destruct (frameOf_inv _ _ _ _ Hframe) as (Hsession & _).
    split_and!; try done.
    + intros channel Hother. by rewrite Hsessions, lookup_insert_ne.
    + intros _. unfold sessionOf. rewrite Hsessions, lookup_insert_eq.
      cbn [from_option id nextSession draft peer]. rewrite Hsession.
      split_and!; try done. by rewrite Hpayload.
Qed.

(** X18.  A call never removes or reorders a stored lead, and never
    changes the id of one: the ids after the call are the ids before it,
    with the id of the created lead in front when one is created.  A deal
    is opened only for a session that has a lead and no deal yet, and then
    exactly one deal is put in front of the store, in stage discovery with
    probability 25 and a positive amount, and the session points at it;
    otherwise the deals and the deal of the session are as before.  The
    follow-up task is created only together with the lead, and a lead is
    created only for a session without one. *)
Theorem stores_grow (app : App) (args : Args) (t : Turn) :
  runAgentWorkflow app args = Some t →
  let session := sessionOf app (channelId args) in
  let session' := sessionOf (after t) (channelId args) in
  lead_id <$> storedLeads (after t)
    = (if createdLead t then [(createId "k" (ids app)).1] else [])
      ++ (lead_id <$> storedLeads app)
  ∧ (createdDeal t = false →
       storedDeals (after t) = storedDeals app ∧ dealId session' = dealId session)
  ∧ (createdDeal t = true →
       idSet (leadId session') = true
       ∧ idSet (dealId session) = false
       ∧ ∃ deal,
           storedDeals (after t) = deal :: storedDeals app
           ∧ dealId session' = Some (deal_id deal)
           ∧ deal_stageId deal = "discovery"
           ∧ deal_probability deal = 25
           ∧ positive (deal_amount deal) = true)
  ∧ (createdTasks t = true → createdLead t = true)
  ∧ (createdLead t = true →
       idSet (leadId session) = false
       ∧ leadId session' = Some (createId "k" (ids app)).1).
Proof.
  intros Hrun. cbv zeta. split_and!.
  - apply turn_whole in Hrun as [[Hblank ->] | (_ & frame & _ & Hturn)]; [done|].
    cbv zeta in Hturn. destruct Hturn as (_ & -> & _ & _ & _ & -> & _).
    apply leadStep_ids.
  - pose proof Hrun as [[Hblank ->] | (_ & frame & Hframe & Hturn)]%turn_whole; [done|].
    cbv zeta in Hturn. destruct Hturn as (Hsessions & _ & -> & _ & _ & _ & -> & _).
    intros [Hdeals Hdeal]%dealStep_closed. split; [done|].
    destruct (frameOf_inv _ _ _ _ Hframe) as (Hsession & _).
    unfold sessionOf. rewrite Hsessions, lookup_insert_eq.
    cbn [from_option id nextSession dealId]. by rewrite Hdeal, Hsession.
  - intros Hopened.
    destruct (turn_deal_opened _ _ _ Hrun Hopened)
      as (Hlead & Hnone & supply & deal & Hstore & Hpoint & _ & Hstage & Hprob & Hamount).
    split_and!; try done. by exists deal.
  - apply turn_whole in Hrun as [[Hblank ->] | (_ & frame & _ & Hturn)]; [done|].
    cbv zeta in Hturn. destruct Hturn as (_ & _ & _ & _ & _ & -> & _ & -> & _).
    apply followUpStep_created.
  - by apply turn_lead_created.
Qed.

(** *** Runs *)

Lemma turn_keeps_lead channel id :
  idSet (Some id) = true → ∀ app args t,
  runAgentWorkflow app args = Some t →
  leadId (sessionOf app channel) = Some id → leadId (sessionOf (after t) channel) = Some id.
Proof.
  intros Hset app args t Hrun Hid.
  destruct (turn_session _ _ _ channel Hrun)
    as [[-> _] | (_ & _ & frame & Hframe & Hsession & Hturn)]; [done|].
  cbv zeta in Hturn. destruct Hturn as (-> & _).
  destruct (frameOf_inv _ _ _ _ Hframe) as (_ & _ & Hresolved & _).
  rewrite Hsession, resolve_reuse in Hresolved by (by rewrite Hid).
  destruct (leadStep_update app frame) as (-> & _); by rewrite Hresolved, Hid.
Qed.

Lemma turn_keeps_deal channel id :
  idSet (Some id) = true → ∀ app args t,
  runAgentWorkflow app args = Some t →
  dealId (sessionOf app channel) = Some id → dealId (sessionOf (after t) channel) = Some id.
Proof.
  intros Hset app args t Hrun Hid.
  destruct (turn_session _ _ _ channel Hrun)
    as [[-> _] | (_ & _ & frame & Hframe & Hsession & Hturn)]; [done|].
  cbv zeta in Hturn. destruct Hturn as (_ & -> & _).
  assert (idSet (dealId (channelSession frame)) = true) as Hkept
    by (by rewrite Hsession, Hid).
  pose proof (dealStep_kept app frame (leadStep app frame)
                (ts_ids (followUpStep app frame (leadStep app frame))) Hkept) as Hclosed.
  apply dealStep_closed in Hclosed as [_ ->]. by rewrite Hsession.
Qed.

Lemma turn_keeps_key channel key app args t :
  runAgentWorkflow app args = Some t →
  is_Some (default ∅ (draft (sessionOf app channel)) !! key) →
  is_Some (default ∅ (draft (sessionOf (after t) channel)) !! key).
Proof.
  intros Hrun Hkey.
  destruct (turn_session _ _ _ channel Hrun)
    as [[-> _] | (_ & _ & frame & Hframe & Hsession & Hturn)]; [done|].
  cbv zeta in Hturn. destruct Hturn as (_ & _ & -> & _).
  destruct (frameOf_inv _ _ _ _ Hframe) as (_ & -> & _).
  cbn [from_option id]. rewrite agentMergeDraft_lookup, Hsession.
  destruct (agentExtractSignals _ !! key) as [value|]; [|done]. by destruct (skipped value).
Qed.

Lemma run_no_create channel id actions page current :
  idSet (Some id) = true →
  (current = true → seen page = live page) →
  refreshed current actions = true →
  leadId (sessionOf (live page) channel) = Some id →
  Forall (λ entry, creates channel entry = false) (run page actions).2.
Proof.
  intros Hset Hcurrent Hfresh Hid.
  destruct (run_preserves (λ s, leadId s = Some id) channel
              (turn_keeps_lead channel id Hset) actions page current Hcurrent Hfresh Hid)
    as [_ Hfound].
  apply Forall_forall. intros entry Hentry.
  pose proof (proj1 (Forall_forall _ _) Hfound entry Hentry) as Hbefore. cbv beta in Hbefore.
  destruct (run_history _ _ _ _ Hcurrent Hfresh Hentry) as (_ & Hrun & _).
  unfold creates. case_bool_decide as Hchannel; [|done].
  destruct (createdLead (turn entry)) eqn:Hcreated; [|done].
  destruct (turn_lead_created _ _ _ Hrun Hcreated) as [Hunset _].
  by rewrite Hchannel, Hbefore, Hset in Hunset.
Qed.

Lemma run_no_deal channel id actions page current :
  idSet (Some id) = true →
  (current = true → seen page = live page) →
  refreshed current actions = true →
  dealId (sessionOf (live page) channel) = Some id →
  Forall (λ entry, opens channel entry = false) (run page actions).2.
Proof.
  intros Hset Hcurrent Hfresh Hid.
  destruct (run_preserves (λ s, dealId s = Some id) channel
              (turn_keeps_deal channel id Hset) actions page current Hcurrent Hfresh Hid)
    as [_ Hfound].
  apply Forall_forall. intros entry Hentry.
  pose proof (proj1 (Forall_forall _ _) Hfound entry Hentry) as Hbefore. cbv beta in Hbefore.
  destruct (run_history _ _ _ _ Hcurrent Hfresh Hentry) as (_ & Hrun & _).
  unfold opens. case_bool_decide as Hchannel; [|done].
  destruct (createdDeal (turn entry)) eqn:Hopened; [|done].
  destruct (turn_deal_opened _ _ _ Hrun Hopened) as (_ & Hunset & _).
  by rewrite Hchannel, Hbefore, Hset in Hunset.
Qed.

(** X19.  In a run in which the component renders between a message and
    the one before it, from a page right after a render, what the session
    of a channel has learnt is kept: a lead id, once set, is the lead id of
    the session after every later message, and so is a deal id; a key of
    the draft is never dropped; and no message of the channel creates a
    lead once the session has one, or opens a deal once the session has
    one. *)
Theorem session_memory (app : App) (actions : list Action) (channel : string) :
  refreshed true actions = true →
  let final := live (run (rendered app) actions).1 in
  let history := (run (rendered app) actions).2 in
  (∀ id, id ≠ "" → leadId (sessionOf app channel) = Some id →
     leadId (sessionOf final channel) = Some id
     ∧ Forall (λ entry, creates channel entry = false) history)
  ∧ (∀ id, id ≠ "" → dealId (sessionOf app channel) = Some id →
     dealId (sessionOf final channel) = Some id
     ∧ Forall (λ entry, opens channel entry = false) history)
  ∧ (∀ key, is_Some (draftOf app channel !! key) → is_Some (draftOf final channel !! key)).
Proof.
  intros Hfresh. cbv zeta.
  assert (true = true → seen (rendered app) = live (rendered app)) as Hcurrent by done.
  split_and!.
  - intros id Hid Hlead.
    assert (idSet (Some id) = true) as Hset by (by apply bool_decide_eq_true_2).
    split; [|by eapply (run_no_create channel id actions (rendered app) true)].
    by apply (run_preserves (λ s, leadId s = Some id) channel (turn_keeps_lead channel id Hset)
                actions (rendered app) true).
  - intros id Hid Hdeal.
    assert (idSet (Some id) = true) as Hset by (by apply bool_decide_eq_true_2).
    split; [|by eapply (run_no_deal channel id actions (rendered app) true)].
    by apply (run_preserves (λ s, dealId s = Some id) channel (turn_keeps_deal channel id Hset)
                actions (rendered app) true).
  - intros key. unfold draftOf.
    apply (run_preserves (λ s, is_Some (default ∅ (draft s) !! key)) channel
             ltac:(intros app' args t; apply turn_keeps_key) actions (rendered app) true);
      done.
Qed.

Section Fresh.
(** The ids of [createId] are never empty: they hold the prefix and a
    dash. *)
Hypothesis createId_filled : ∀ prefix supply, (createId prefix supply).1 ≠ "".

Lemma run_creates_once actions page current channel :
  (current = true → seen page = live page) →
  refreshed current actions = true →
  (length (filter (λ entry, creates channel entry) (run page actions).2) ≤ 1)%nat.
Proof.
  revert page current. induction actions as [|[msg|edit|] rest IH];
    intros page current Hcurrent Hfresh; cbn [run refreshed] in *.
  - simpl. lia.
  - apply andb_true_iff in Hfresh as [-> Hrest].
    rewrite (current_rendered page (Hcurrent eq_refl)), on_rendered.
    fold (rendered (live page)). rewrite <- (current_rendered page (Hcurrent eq_refl)).
    destruct (runAgentWorkflow (live page) msg) as [t|] eqn:Hrun; [|by apply (IH page false)].
    cbn [snd]. rewrite filter_cons. case_decide as Hcreates; [|by apply (IH _ false)].
    apply Is_true_true in Hcreates. unfold creates in Hcreates. cbn [args turn] in Hcreates.
    apply andb_true_iff in Hcreates as [Hchannel%bool_decide_eq_true Hcreated].
    destruct (turn_lead_created _ _ _ Hrun Hcreated) as [_ Hid]. rewrite Hchannel in Hid.
    assert (idSet (Some (createId "k" (ids (live page))).1) = true) as Hset
      by (by apply bool_decide_eq_true_2).
    pose proof (run_no_create channel _ rest {| live := after t; seen := seen page |} false
                  Hset ltac:(done) Hrest Hid) as Hquiet.
    rewrite (filter_none _ _ Hquiet). simpl. lia.
  - by apply (IH _ false).
  - by apply (IH _ true).
Qed.

Lemma run_opens_once actions page current channel :
  (current = true → seen page = live page) →
  refreshed current actions = true →
  (length (filter (λ entry, opens channel entry) (run page actions).2) ≤ 1)%nat.
Proof.
  revert page current. induction actions as [|[msg|edit|] rest IH];
    intros page current Hcurrent Hfresh; cbn [run refreshed] in *.
  - simpl. lia.
  - apply andb_true_iff in Hfresh as [-> Hrest].
    rewrite (current_rendered page (Hcurrent eq_refl)), on_rendered.
    fold (rendered (live page)). rewrite <- (current_rendered page (Hcurrent eq_refl)).
    destruct (runAgentWorkflow (live page) msg) as [t|] eqn:Hrun; [|by apply (IH page false)].
    cbn [snd]. rewrite filter_cons. case_decide as Hopens; [|by apply (IH _ false)].
    apply Is_true_true in Hopens. unfold opens in Hopens. cbn [args turn] in Hopens.
    apply andb_true_iff in Hopens as [Hchannel%bool_decide_eq_true Hopened].
    destruct (turn_deal_opened _ _ _ Hrun Hopened)
      as (_ & _ & supply & deal & _ & Hid & Hnew & _).
    rewrite Hchannel in Hid.
    assert (idSet (Some (deal_id deal)) = true) as Hset
      by (rewrite Hnew; by apply bool_decide_eq_true_2).
    pose proof (run_no_deal channel _ rest {| live := after t; seen := seen page |} false
                  Hset ltac:(done) Hrest Hid) as Hquiet.
    rewrite (filter_none _ _ Hquiet). simpl. lia.
  - by apply (IH _ false).
  - by apply (IH _ true).
Qed.

End Fresh.

(** X20.  Where the id generator never returns the empty string, and in
    a run in which the component renders between a message and the one
    before it, a channel gets at most one lead and at most one deal created
    by the orchestrator, whatever the messages and the edits of the other
    stores in between; the follow-up task comes only with the lead. *)
Theorem one_lead_per_session (app : App) (actions : list Action) (channel : string) :
  (∀ prefix supply, (createId prefix supply).1 ≠ "") →
  refreshed true actions = true →
  let history := (run (rendered app) actions).2 in
  (length (filter (λ entry, creates channel entry) history) ≤ 1)%nat
  ∧ (length (filter (λ entry, opens channel entry) history) ≤ 1)%nat
  ∧ Forall (λ entry, createdTasks (turn entry) = true → createdLead (turn entry) = true)
           history.
Proof.
  intros Hids Hfresh. cbv zeta.
  assert (true = true → seen (rendered app) = live (rendered app)) as Hcurrent by done.
  split; [by apply (run_creates_once Hids actions (rendered app) true)|].
  split; [by apply (run_opens_once Hids actions (rendered app) true)|].
  apply Forall_forall. intros entry Hentry.
  destruct (run_history _ _ _ _ Hcurrent Hfresh Hentry) as (_ & Hrun & _).
  apply turn_whole in Hrun as [[_ ->] | (_ & frame & _ & Hturn)]; [done|].
  cbv zeta in Hturn. destruct Hturn as (_ & _ & _ & _ & _ & -> & _ & -> & _).
  apply followUpStep_created.
Qed.

End Turns.

(** X17 and X18 on the first message of a fresh application. *)
Lemma turn_isolation_witness :
  ∃ t, runAgentWorkflow freshApp hello = Some t
       ∧ sessions (after t) !! "instagram" = sessions freshApp !! "instagram"
       ∧ peer (sessionOf (after t) "whatsapp") = Some "5511999998888".
Proof.
  eassert (runAgentWorkflow freshApp hello = Some ?[t]) as Hrun
    by (vm_compute; reflexivity).
  destruct (turn_isolation (H := scriptedHost) freshApp hello _ Hrun)
    as (Hothers & _ & _ & _ & Hfilled).
  assert (trim (text hello) ≠ "") as Hnonblank by (vm_compute; discriminate).
  destruct (Hfilled Hnonblank) as (_ & _ & Hpeer & _).
  eexists. split; [exact Hrun|]. split; [|exact Hpeer].
  apply Hothers. vm_compute. discriminate.
Defined.

Lemma stores_grow_witness :
  ∃ t, runAgentWorkflow freshApp hello = Some t
       ∧ lead_id <$> storedLeads (after t) = ["k-0"].
Proof.
  eassert (runAgentWorkflow freshApp hello = Some ?[t]) as Hrun
    by (vm_compute; reflexivity).
  destruct (stores_grow (H := scriptedHost) freshApp hello _ Hrun) as (Hleads & _).
  eexists. split; [exact Hrun|]. rewrite Hleads. vm_compute. reflexivity.
Defined.

(** X19 and X20 on two messages of the same peer with a render in
    between: the e-mail the session knew is still in its draft, and one
    lead is created, not two. *)
Lemma session_memory_witness :
  refreshed (H := scriptedHost) true [Message hello; Render; Message hello] = true
  ∧ is_Some (draftOf (live (run (rendered knownApp)
                              [Message hello; Render; Message hello]).1) "whatsapp"
             !! "email").
Proof.
  assert (refreshed (H := scriptedHost) true [Message hello; Render; Message hello] = true)
    as Hfresh by reflexivity.
  split; [exact Hfresh|].
  destruct (session_memory (H := scriptedHost) knownApp
              [Message hello; Render; Message hello] "whatsapp" Hfresh) as (_ & _ & Hkeys).
  apply Hkeys. vm_compute. by eexists.
Defined.

Lemma one_lead_per_session_witness :
  (∀ prefix supply, (createId (Host := scriptedHost) prefix supply).1 ≠ "")
  ∧ refreshed (H := scriptedHost) true [Message hello; Render; Message hello] = true
  ∧ (length (filter (λ entry, creates (H := scriptedHost) "whatsapp" entry)
                    (run (rendered freshApp) [Message hello; Render; Message hello]).2)
     ≤ 1)%nat.
Proof.
  assert (∀ prefix supply, (createId (Host := scriptedHost) prefix supply).1 ≠ "")
    as Hids by (intros prefix supply; cbn; destruct prefix; discriminate).
  assert (refreshed (H := scriptedHost) true [Message hello; Render; Message hello] = true)
    as Hfresh by reflexivity.
  split; [exact Hids|]. split; [exact Hfresh|].
  apply (one_lead_per_session (H := scriptedHost) freshApp
           [Message hello; Render; Message hello] "whatsapp" Hids Hfresh).
Defined.

End WorkflowReach.

(** ** From the webhook to the orchestrator *)

Module DeliveryFacts.
Import Js Agent EventLog Payloads Webhook Poller Workflow.
Import JsFacts EventLogFacts Trimming TrimFacts WebhookFacts WorkflowFacts WorkflowReach.

Section Delivery.
Context `{Numbers} `{Host}.

Lemma authorOf_filled item : authorOf item ≠ "".
Proof.
  unfold authorOf. case_bool_decide as Hnamed; [done|].
  case_bool_decide as Hphone; [done|]. done.
Qed.

(** X21.  A message the webhook accepts is one the polling page hands
    to the orchestrator, and the orchestrator does not pass it over: the
    event is the last of the log and passes the filter of the page; the
    call made for it is on the channel whatsapp, with a text that is not
    blank, an author that is not empty and the digits of the sender as
    peer; and whenever that call returns, it has computed a lead payload
    and left the sender as the peer of the whatsapp session. *)
Theorem accepted_message_is_processed (token : string) (st : Log)
    (request : Webhook.Request) (app : App) :
  (handleWebhook token st request).2 = Accepted →
  ∃ item,
    last (events (handleWebhook token st request).1) = Some item
    ∧ deliverable item = true
    ∧ channelId (argsOf item) = "whatsapp"
    ∧ trim (Workflow.text (argsOf item)) ≠ ""
    ∧ (∃ name, author (argsOf item) = Some name ∧ name ≠ "")
    ∧ arg_peer (argsOf item) = Some (ev_sender (data item))
    ∧ Forall (λ c, isDigit c = true) (chars (ev_sender (data item)))
    ∧ ∀ t, runAgentWorkflow app (argsOf item) = Some t →
        payload t ≠ None
        ∧ peer (sessionOf (after t) "whatsapp") = Some (ev_sender (data item)).
Proof.
  destruct (handleWebhook_cases token st request)
    as [(_ & Hout) | [(_ & _ & Hout) | [(_ & _ & _ & _ & Hout)
        | (_ & Htext & Hsender & _ & ev & Hout & Hid & Htype & Hs & Ht & _)]]];
    rewrite Hout; cbn [fst snd]; try done.
  intros _. set (item := (pushEvent st ev).2).
  assert (data item = ev) as Hdata by done.
  assert (trim (Workflow.text (argsOf item)) ≠ "") as Hfilled.
  { cbn [argsOf Workflow.text]. rewrite Hdata, Ht, parsed_text_trimmed. exact Htext. }
  exists item. split_and!.
  - rewrite pushEvent_events. fold item.
    rewrite drop_app_le by (rewrite length_app; simpl; unfold MAX_EVENTS; lia).
    apply last_snoc.
  - unfold deliverable. rewrite Hdata, Htype, Hs, Ht.
    by rewrite !bool_decide_eq_true_2.
  - done.
  - done.
  - exists (authorOf item). split; [done|]. apply authorOf_filled.
  - done.
  - rewrite Hdata, Hs. apply parsed_sender_digits.
  - intros t [[Hblank _] | (_ & frame & Hframe & Hturn)]%turn_whole; [done|].
    cbv zeta in Hturn. destruct Hturn as (Hsessions & _ & _ & _ & _ & _ & _ & _ & ->).
    split; [done|]. unfold sessionOf. rewrite Hsessions.
    change (channelId (argsOf item)) with "whatsapp". by rewrite lookup_insert_eq.
Qed.

End Delivery.

(** X21 on a message of a peer, received by a fresh application. *)
Lemma accepted_message_is_processed_witness :
  ∃ item,
    last (events (handleWebhook "s3cret" initial
                    (Samples.post "5511999998888@s.whatsapp.net" "oi" false)).1) = Some item
    ∧ deliverable item = true
    ∧ arg_peer (argsOf item) = Some (ev_sender (data item)).
Proof.
  destruct (accepted_message_is_processed (H := Samples.plainNumbers) (H0 := scriptedHost)
              "s3cret" initial (Samples.post "5511999998888@s.whatsapp.net" "oi" false)
              freshApp eq_refl)
    as (item & Hlast & Hpass & _ & _ & _ & Hpeer & _).
  by exists item.
Defined.

End DeliveryFacts.
